(** * Alfred: paired-fragment coverage engine

    A shallow embedding of the coverage code of [src/count_dna.h] and
    [src/tracks.h]: the pairing of mates ([bam_dna_counter], [create_tracks]),
    the per-base and the mid-point accumulation of coverage, the run-length
    encoding of a coverage vector into a track and its lossy reduction, the
    per-interval sums, and the artificial windows of [createIntervals].

    Unsigned and signed machine integers are integers of [Z] with the
    wrap-around written out; [double] values are the binary64 floats of the
    kernel; a [std::vector] read or written out of range is undefined in the
    source and is a [Fault] (or [None]) here. *)

From Stdlib Require Import ZArith Lia List Bool Floats Uint63.
From stdpp Require Import gmap strings list pretty.

Open Scope Z_scope.

(** ** Machine integers *)

Definition u8 (z : Z) : Z := z mod 2 ^ 8.
Definition u16 (z : Z) : Z := z mod 2 ^ 16.
Definition u32 (z : Z) : Z := z mod 2 ^ 32.
Definition u64 (z : Z) : Z := z mod 2 ^ 64.
Definition i32 (z : Z) : Z := (z + 2 ^ 31) mod 2 ^ 32 - 2 ^ 31.

(** [v[i]] of a [std::vector]: [None] where the source reads out of range. *)
Definition vec_get {A} (v : list A) (i : Z) : option A :=
  if i <? 0 then None else v !! Z.to_nat i.

(** What a run of the source comes to: a value, an access out of range
    (undefined behaviour), or a loop that has not stopped within the fuel. *)
Inductive result (A : Type) : Type :=
  | Done (a : A)
  | Fault
  | Timeout.
Arguments Done {A} a.
Arguments Fault {A}.
Arguments Timeout {A}.

Definition bind {A B} (r : result A) (k : A -> result B) : result B :=
  match r with
  | Done a => k a
  | Fault => Fault
  | Timeout => Timeout
  end.

(** ** Alignment records (htslib's [bam1_t], the fields the code reads) *)

Module Bam.

Inductive cigar_op : Type :=
  | BAM_CMATCH | BAM_CINS | BAM_CDEL | BAM_CREF_SKIP | BAM_CSOFT_CLIP
  | BAM_CHARD_CLIP | BAM_CPAD | BAM_CEQUAL | BAM_CDIFF | BAM_CBACK.

Record bam1_t : Type := {
  flag : Z;                       (* uint16_t core.flag *)
  tid : Z;                        (* int32_t core.tid *)
  mtid : Z;                       (* int32_t core.mtid *)
  pos : Z;                        (* int32_t core.pos *)
  mpos : Z;                       (* int32_t core.mpos *)
  qual : Z;                       (* uint8_t core.qual *)
  qname : string;                 (* bam_get_qname *)
  cigar : list (cigar_op * Z)     (* bam_get_cigar: operation, length *)
}.

Definition BAM_FPAIRED : Z := 1.
Definition BAM_FUNMAP : Z := 4.
Definition BAM_FMUNMAP : Z := 8.
Definition BAM_FSECONDARY : Z := 256.
Definition BAM_FQCFAIL : Z := 512.
Definition BAM_FDUP : Z := 1024.
Definition BAM_FSUPPLEMENTARY : Z := 2048.

(** [hash_string], [hash_pair], [hash_pair_mate] and [halfAlignmentLength]
    are defined in util.h, which is not among the sources: the code is read
    over any such functions. The first three make the FragmentKey of a
    record and of its mate, the last is half of the aligned span. *)
Class PairHash : Type := {
  hash_string : string -> Z;
  hash_pair : bam1_t -> Z;
  hash_pair_mate : bam1_t -> Z;
  halfAlignmentLength : bam1_t -> Z
}.

End Bam.

(** ** FragmentPairResolver: the pairing of the two mates *)

Module Resolver.
Import Bam.

Record state : Type := {
  lastAlignedPos : Z;
  lastAlignedPosReads : gset Z;
  qualities : gmap Z Z
}.

Definition init : state :=
  {| lastAlignedPos := 0; lastAlignedPosReads := ∅; qualities := ∅ |}.

(** The outcome of a resolved pair, as the loops have it in hand after
    "Low quality pair": the key [hv], the pair quality, and the record of
    the second mate. What follows in each loop is its use of the pair (the
    mid-point count, the sum of matched bases, the entry in [validPairs]). *)
Record ValidFragment : Type := {
  hv : Z;
  pairQuality : Z;
  rec : bam1_t
}.

(** The flag test that opens each loop over the records. *)
Definition flag_filtered (r : bam1_t) : bool :=
  negb (Z.land (flag r)
          (Z.lor BAM_FSECONDARY (Z.lor BAM_FQCFAIL (Z.lor BAM_FDUP
            (Z.lor BAM_FSUPPLEMENTARY (Z.lor BAM_FUNMAP BAM_FMUNMAP))))) =? 0)
  || negb (tid r =? mtid r)
  || (Z.land (flag r) BAM_FPAIRED =? 0).

(** A record that both tests let through. *)
Definition passes (minQual : Z) (r : bam1_t) : bool :=
  negb (flag_filtered r) && negb (qual r <? minQual).

(** "Clean-up the read store for identical alignment positions". *)
Definition cleanup (st : state) (r : bam1_t) : state :=
  if lastAlignedPos st <? pos r
  then {| lastAlignedPos := pos r; lastAlignedPosReads := ∅;
          qualities := qualities st |}
  else st.

Section WithHash.
Context `{PairHash}.

(** The test that takes a record as the first read of its pair. *)
Definition is_first (st : state) (r : bam1_t) : bool :=
  (pos r <? mpos r)
  || ((pos r =? mpos r)
      && bool_decide (hash_string (qname r) ∉ lastAlignedPosReads st)).

(** One turn of the loop, up to the point where a valid pair is used. *)
Definition resolve (minQual : Z) (st : state) (r : bam1_t)
  : state * option ValidFragment :=
  if flag_filtered r then (st, None)
  else if qual r <? minQual then (st, None)
  else
    let st := cleanup st r in
    if is_first st r then
      (* First read *)
      ({| lastAlignedPos := lastAlignedPos st;
          lastAlignedPosReads :=
            {[ hash_string (qname r) ]} ∪ lastAlignedPosReads st;
          qualities := <[ hash_pair r := qual r ]> (qualities st) |}, None)
    else
      (* Second read *)
      let hv := hash_pair_mate r in
      match qualities st !! hv with
      | None => (st, None)                         (* Mate discarded *)
      | Some q =>
          let pairQuality := Z.min (u8 q) (u8 (qual r)) in
          let st := {| lastAlignedPos := lastAlignedPos st;
                       lastAlignedPosReads := lastAlignedPosReads st;
                       qualities := <[ hv := 0 ]> (qualities st) |} in
          if pairQuality <? minQual then (st, None) (* Low quality pair *)
          else (st, Some {| hv := hv; pairQuality := pairQuality;
                            rec := r |})
      end.

(** The state after a stream, and what each record of it gave. *)
Fixpoint resolve_state (minQual : Z) (st : state) (rs : list bam1_t)
  : state :=
  match rs with
  | [] => st
  | r :: rs' => resolve_state minQual (fst (resolve minQual st r)) rs'
  end.

Fixpoint resolve_trace (minQual : Z) (st : state) (rs : list bam1_t)
  : list (option ValidFragment) :=
  match rs with
  | [] => []
  | r :: rs' =>
      snd (resolve minQual st r)
      :: resolve_trace minQual (fst (resolve minQual st r)) rs'
  end.

(** The valid fragments of a stream, in the order they are found. *)
Definition fragments (minQual : Z) (rs : list bam1_t)
  : list ValidFragment :=
  omap id (resolve_trace minQual init rs).

(** [create_tracks], first pass over a chromosome: the valid pairs. *)
Definition validPairs (minQual : Z) (rs : list bam1_t) : gset Z :=
  list_to_set (hv <$> fragments minQual rs).

End WithHash.

End Resolver.

(** ** CoverageAccumulator *)

Module Coverage.
Import Bam.

(** [std::numeric_limits<uint16_t>::max()], held in a [uint32_t]. *)
Definition maxCoverage : Z := 65535.

(** [TCoverage cov(target_len, 0)]. *)
Definition empty_cov (target_len : Z) : list Z :=
  replicate (Z.to_nat target_len) 0.

(** *** The mid-point count of [bam_dna_counter] (count_dna.h) *)

Section MidPoint.
Context `{PairHash}.

(** "Count mid point": the guarded increment of [cov[midPoint]]. The
    second operand of [&&] reads the vector only when the first holds. *)
Definition count_midpoint (target_len : Z) (cov : list Z) (r : bam1_t)
  : result (list Z) :=
  let midPoint := i32 (pos r + halfAlignmentLength r) in
  if midPoint <? i32 target_len then
    match vec_get cov midPoint with
    | None => Fault
    | Some c =>
        if c <? maxCoverage - 1
        then Done (<[ Z.to_nat midPoint := u16 (c + 1) ]> cov)
        else Done cov
    end
  else Done cov.

(** The loop over the records of one chromosome. *)
Fixpoint count_reads (minQual target_len : Z) (st : Resolver.state)
    (cov : list Z) (rs : list bam1_t) : result (list Z) :=
  match rs with
  | [] => Done cov
  | r :: rs' =>
      let '(st', f) := Resolver.resolve minQual st r in
      match f with
      | None => count_reads minQual target_len st' cov rs'
      | Some f =>
          bind (count_midpoint target_len cov (Resolver.rec f))
               (fun cov' => count_reads minQual target_len st' cov' rs')
      end
  end.

End MidPoint.

(** *** The per-base coverage of [create_tracks] (tracks.h) *)

(** The inner loop over the bases of a match or mismatch operation. *)
Fixpoint count_bases (oplen : nat) (cov : list Z) (rp : Z)
  : result (list Z * Z) :=
  match oplen with
  | O => Done (cov, rp)
  | S k =>
      match vec_get cov rp with
      | None => Fault
      | Some c =>
          let cov' :=
            if c <? maxCoverage then <[ Z.to_nat rp := u16 (c + 1) ]> cov
            else cov in
          count_bases k cov' (u32 (rp + 1))
      end
  end.

(** "Parse the CIGAR". *)
Fixpoint parse_cigar (ops : list (cigar_op * Z)) (cov : list Z) (rp : Z)
  : result (list Z) :=
  match ops with
  | [] => Done cov
  | (op, oplen) :: ops' =>
      match op with
      | BAM_CMATCH | BAM_CEQUAL | BAM_CDIFF =>
          bind (count_bases (Z.to_nat oplen) cov rp)
               (fun '(cov', rp') => parse_cigar ops' cov' rp')
      | BAM_CDEL | BAM_CREF_SKIP => parse_cigar ops' cov (u32 (rp + oplen))
      | _ => parse_cigar ops' cov rp
      end
  end.

(** The coverage of one record: the reference pointer starts at its
    position. *)
Definition add_record (cov : list Z) (r : bam1_t) : result (list Z) :=
  parse_cigar (cigar r) cov (u32 (pos r)).

Section PerBase.
Context `{PairHash}.

(** The second pass: the read store is cleaned but never filled here,
    so a record with [pos = mpos] always takes [hash_pair]. *)
Fixpoint coverage_pass (minQual : Z) (validPairs : gset Z)
    (st : Resolver.state) (cov : list Z) (rs : list bam1_t)
  : result (list Z) :=
  match rs with
  | [] => Done cov
  | r :: rs' =>
      if Resolver.flag_filtered r
      then coverage_pass minQual validPairs st cov rs'
      else if qual r <? minQual
      then coverage_pass minQual validPairs st cov rs'
      else
        let st := Resolver.cleanup st r in
        let hv := if Resolver.is_first st r then hash_pair r
                  else hash_pair_mate r in
        if bool_decide (hv ∈ validPairs) then
          bind (add_record cov r)
               (fun cov' => coverage_pass minQual validPairs st cov' rs')
        else coverage_pass minQual validPairs st cov rs'
  end.

(** The coverage vector of one chromosome: the second pass runs only
    when the first found a valid pair. *)
Definition coverage (minQual target_len : Z) (rs : list bam1_t)
  : result (list Z) :=
  let vp := Resolver.validPairs minQual rs in
  if bool_decide (vp = ∅) then Done (empty_cov target_len)
  else coverage_pass minQual vp Resolver.init (empty_cov target_len) rs.

End PerBase.

End Coverage.

(** ** SegmentCompressor: the coverage track of [create_tracks] *)

Module Compressor.

Record Track : Type := {
  start : Z;        (* uint32_t *)
  end_ : Z;         (* uint32_t end, exclusive *)
  score : float     (* double *)
}.

(** An unsigned integer read as a [double]: exact below [2^53], and the
    integers met here (widths, sizes, depths) are below [2^32]. *)
Definition Z2f (z : Z) : float := PrimFloat.of_uint63 (Uint63.of_Z z).

(** A [double] converted to [uint32_t]: the value is truncated; the
    conversion is undefined when the truncated value does not fit. *)
Definition double_to_u32 (f : float) : option Z :=
  match Prim2SF f with
  | S754_zero _ => Some 0
  | S754_finite s m e =>
      let q := if 0 <=? e then Z.pos m * 2 ^ e else Z.pos m / 2 ^ (- e) in
      if s then (if q =? 0 then Some 0 else None)
      else if q <? 2 ^ 32 then Some q else None
  | _ => None
  end.

(** "Normalize to 100bp paired-end reads". *)
Definition norm_factor (normalize totalPairs : Z) : float :=
  if normalize =? 0 then 1%float
  else ((Z2f normalize / Z2f totalPairs) * 100 * 2)%float.

(** *** The run-length encoding ("Coverage track") *)

(** The loop over [cov[i]], [i >= 1]: [rest] is what is left of [cov]. *)
Fixpoint track_runs (normFactor : float) (rest : list Z) (i wb we : Z)
    (wval : float) : list Track :=
  match rest with
  | [] => [ {| start := wb; end_ := u32 (we + 1);
               score := (normFactor * wval)%float |} ]
  | c :: rest' =>
      if (Z2f c =? wval)%float
      then track_runs normFactor rest' (u32 (i + 1)) wb (u32 (we + 1)) wval
      else {| start := wb; end_ := u32 (we + 1);
              score := (normFactor * wval)%float |}
           :: track_runs normFactor rest' (u32 (i + 1)) i i (Z2f c)
  end.

Definition coverage_track (normFactor : float) (cov : list Z)
  : result (list Track) :=
  match cov with
  | [] => Fault                                   (* cov[0] *)
  | c0 :: rest => Done (track_runs normFactor rest 1 0 0 (Z2f c0))
  end.

(** *** The reduction ("Reduce file size") *)

(** The merged score and the error of merging two neighbours. *)
Definition merge_cost (a b : Track) : float * float :=
  let w1 := u32 (end_ a - start a) in
  let w2 := u32 (end_ b - start b) in
  let nwavg :=
    ((Z2f w1 * score a + Z2f w2 * score b) / Z2f (u32 (w1 + w2)))%float in
  let nerr :=
    (Z2f w1 * ((score a - nwavg) * (score a - nwavg)))%float in
  let nerr :=
    (nerr + Z2f w2 * ((score b - nwavg) * (score b - nwavg)))%float in
  (nwavg, nerr).

(** The errors of all neighbouring pairs, in list order. *)
Fixpoint pair_errs (tl : list Track) : list float :=
  match tl with
  | a :: (b :: _) as tl' => snd (merge_cost a b) :: pair_errs tl'
  | _ => []
  end.

(** [std::sort] on doubles, ascending. *)
Fixpoint insert_err (x : float) (l : list float) : list float :=
  match l with
  | [] => [x]
  | y :: l' => if (x <? y)%float then x :: l else y :: insert_err x l'
  end.

Definition sort_errs (l : list float) : list float :=
  foldr insert_err [] l.

(** The rank [bpidx] of the threshold among the sorted errors. *)
Definition break_index (resolution red : float) (size : Z) : option Z :=
  match double_to_u32 ((red - resolution) * Z2f size)%float with
  | None => None
  | Some bpidx => Some (if 0 <? bpidx then u32 (bpidx - 1) else bpidx)
  end.

(** [thres = errs[bpidx]]. *)
Definition threshold (resolution red : float) (tl : list Track)
  : result float :=
  let errs := sort_errs (pair_errs tl) in
  match break_index resolution red (Z.of_nat (length tl)) with
  | None => Fault
  | Some bpidx =>
      match vec_get errs bpidx with
      | None => Fault
      | Some thres => Done thres
      end
  end.

(** The merging walk: [idx] is the current segment, [rest] what follows
    it. A merge erases [idx] and gives its start and the merged score to
    its successor, which becomes the current segment. *)
Fixpoint merge_walk (thres : float) (idx : Track) (rest : list Track)
  : list Track :=
  match rest with
  | [] => [idx]
  | idxNext :: rest' =>
      let '(nwavg, nerr) := merge_cost idx idxNext in
      if (nerr <=? thres)%float
      then merge_walk thres
             {| start := start idx; end_ := end_ idxNext; score := nwavg |}
             rest'
      else idx :: merge_walk thres idxNext rest'
  end.

Definition merge_pass (thres : float) (tl : list Track) : list Track :=
  match tl with
  | [] => []
  | idx :: rest => merge_walk thres idx rest
  end.

(** One turn of the [while] loop: the new list and the new ratio. *)
Definition reduce_step (resolution : float) (origs : Z) (red : float)
    (tl : list Track) : result (list Track * float) :=
  bind (threshold resolution red tl) (fun thres =>
    let tl' := merge_pass thres tl in
    Done (tl', (Z2f (Z.of_nat (length tl')) / Z2f origs)%float)).

Definition reduce_guard (resolution red : float) (tl : list Track) : bool :=
  (1 <? Z.of_nat (length tl)) && (resolution <? red)%float.

Fixpoint reduce_loop (fuel : nat) (resolution : float) (origs : Z)
    (red : float) (tl : list Track) : result (list Track) :=
  if reduce_guard resolution red tl then
    match fuel with
    | O => Timeout
    | S fuel' =>
        bind (reduce_step resolution origs red tl) (fun '(tl', red') =>
          reduce_loop fuel' resolution origs red' tl')
    end
  else Done tl.

Definition resolution_enabled (resolution : float) : bool :=
  (0 <? resolution)%float && (resolution <? 1)%float.

Definition reduce (fuel : nat) (resolution : float) (tl : list Track)
  : result (list Track) :=
  if resolution_enabled resolution
  then reduce_loop fuel resolution (u32 (Z.of_nat (length tl))) 1%float tl
  else Done tl.

(** The track of one coverage vector. *)
Definition compress (fuel : nat) (resolution normFactor : float)
    (cov : list Z) : result (list Track) :=
  bind (coverage_track normFactor cov) (reduce fuel resolution).

(** The segment list written back as a vector of scores: every base takes
    the score of the segment whose [start, end) holds it. *)
Definition score_at (tl : list Track) (i : Z) : option float :=
  score <$> find (fun t => (start t <=? i) && (i <? end_ t)) tl.

Definition expand (n : nat) (tl : list Track) : list (option float) :=
  (fun i => score_at tl (Z.of_nat i)) <$> seq 0 n.

End Compressor.

(** ** IntervalSummarizer and the artificial windows (count_dna.h) *)

Module Intervals.

Record ItvChr : Type := {
  start : Z;        (* int32_t *)
  end_ : Z;         (* int32_t end, exclusive *)
  id : string
}.

Record CountDNAConfig : Type := {
  window_size : Z;      (* uint32_t *)
  window_offset : Z;    (* uint32_t *)
  window_num : Z        (* uint32_t *)
}.

(** The [while (pos < target_len)] loop of [createIntervals]. *)
Fixpoint window_loop (fuel : nat) (chr : string)
    (target_len wSize wOffset pos : Z) : result (list ItvChr) :=
  if pos <? target_len then
    match fuel with
    | O => Timeout
    | S fuel' =>
        let window_len := u32 (pos + wSize) in
        let window_len :=
          if target_len <? window_len then target_len else window_len in
        let s := i32 pos in
        let e := i32 window_len in
        let itv := {| start := s; end_ := e;
                      id := chr +:+ ":" +:+ pretty s +:+ "-" +:+ pretty e |} in
        bind (window_loop fuel' chr target_len wSize wOffset
                (u32 (pos + wOffset)))
             (fun intvec => Done (itv :: intvec))
    end
  else Done [].

(** "Create artificial intervals": the branch taken without an interval
    file. The window size and offset come from the configuration, or from
    the number of windows when one is given. *)
Definition window_params (c : CountDNAConfig) (target_len : Z) : Z * Z :=
  if 0 <? window_num c
  then (u32 (target_len / window_num c + 1),
        u32 (target_len / window_num c + 1))
  else (window_size c, window_offset c).

Definition createIntervals (fuel : nat) (c : CountDNAConfig) (chr : string)
    (target_len : Z) : result (list ItvChr) :=
  let '(wSize, wOffset) := window_params c target_len in
  window_loop fuel chr target_len wSize wOffset 0.

(** "Assign read counts": [covsum] over [k = start .. end - 1]. *)
Fixpoint covsum_loop (n : nat) (cov : list Z) (k covsum : Z) : result Z :=
  match n with
  | O => Done covsum
  | S n' =>
      match vec_get cov k with
      | None => Fault
      | Some c => covsum_loop n' cov (k + 1) (u64 (covsum + c))
      end
  end.

Definition interval_sum (cov : list Z) (itv : ItvChr) : result Z :=
  covsum_loop (Z.to_nat (end_ itv - start itv)) cov (start itv) 0.

(** The sums of all intervals, in the order given. *)
Fixpoint interval_sums (cov : list Z) (itvs : list ItvChr)
  : result (list Z) :=
  match itvs with
  | [] => Done []
  | itv :: itvs' =>
      bind (interval_sum cov itv) (fun s =>
        bind (interval_sums cov itvs') (fun ss => Done (s :: ss)))
  end.

End Intervals.

(** ** What the properties below are stated with *)

(** A [uint16_t] counter. *)
Definition is_uint16 (c : Z) : Prop := 0 <= c < 2 ^ 16.

Definition zsum (l : list Z) : Z := foldr Z.add 0 l.

(** [cov[s .. e - 1]]. *)
Definition slice (cov : list Z) (s e : Z) : list Z :=
  take (Z.to_nat (e - s)) (drop (Z.to_nat s) cov).

(** Intervals that follow one another from [s] to [n] without gap or
    overlap. *)
Fixpoint partitions (s : Z) (itvs : list Intervals.ItvChr) (n : Z) : Prop :=
  match itvs with
  | [] => s = n
  | itv :: itvs' =>
      Intervals.start itv = s /\ s <= Intervals.end_ itv
      /\ partitions (Intervals.end_ itv) itvs' n
  end.

(** A window of [wSize] bases, cut at the end of the chromosome. *)
Definition window_ok (target_len wSize : Z) (itv : Intervals.ItvChr) : Prop :=
  0 <= Intervals.start itv < Intervals.end_ itv
  /\ Intervals.end_ itv <= target_len
  /\ Intervals.end_ itv = Z.min (Intervals.start itv + wSize) target_len.

Fixpoint increasing_starts (itvs : list Intervals.ItvChr) : Prop :=
  match itvs with
  | a :: (b :: _) as itvs' =>
      Intervals.start a < Intervals.start b /\ increasing_starts itvs'
  | _ => True
  end.

(** A counter within [0, m], and one that has grown without passing [m]. *)
Definition within (m c : Z) : Prop := 0 <= c <= m.
Definition grown_within (m c c' : Z) : Prop := c <= c' <= m.

(** The coverage after a list of records that all count. *)
Fixpoint add_records (cov : list Z) (rs : list Bam.bam1_t) : result (list Z) :=
  match rs with
  | [] => Done cov
  | r :: rs' => bind (Coverage.add_record cov r) (fun cov' => add_records cov' rs')
  end.

(** *** Run-length encodings of a coverage vector *)

(** A run: start, end (exclusive) and the value of its bases. *)
Definition Run : Type := Z * Z * Z.

Definition to_track (normFactor : float) (r : Run) : Compressor.Track :=
  let '(s, e, v) := r in
  {| Compressor.start := s; Compressor.end_ := e;
     Compressor.score := (normFactor * Compressor.Z2f v)%float |}.

(** [runs] encodes [cov], whose first base is at [s]: the runs are not
    empty, follow one another, and each holds one value. *)
Fixpoint rle_of (s : Z) (cov : list Z) (runs : list Run) : Prop :=
  match runs with
  | [] => cov = []
  | (s', e, v) :: runs' =>
      s' = s /\ s < e
      /\ (Z.to_nat (e - s) <= length cov)%nat
      /\ take (Z.to_nat (e - s)) cov = replicate (Z.to_nat (e - s)) v
      /\ rle_of e (drop (Z.to_nat (e - s)) cov) runs'
  end.

(** No two neighbouring runs hold the same value. *)
Fixpoint maximal (runs : list Run) : Prop :=
  match runs with
  | (_, _, v) :: ((_, _, v') :: _) as runs' => v <> v' /\ maximal runs'
  | _ => True
  end.

Definition max_rle (cov : list Z) (runs : list Run) : Prop :=
  rle_of 0 cov runs /\ maximal runs.

(** *** Segment lists that cover a chromosome *)

Fixpoint ordered_by_start (tl : list Compressor.Track) : Prop :=
  match tl with
  | a :: (b :: _) as tl' =>
      Compressor.start a < Compressor.start b /\ ordered_by_start tl'
  | _ => True
  end.

Fixpoint contiguous (tl : list Compressor.Track) : Prop :=
  match tl with
  | a :: (b :: _) as tl' =>
      Compressor.end_ a = Compressor.start b /\ contiguous tl'
  | _ => True
  end.

Definition covers (n : Z) (tl : list Compressor.Track) : Prop :=
  ordered_by_start tl /\ contiguous tl
  /\ Compressor.start <$> head tl = Some 0
  /\ Compressor.end_ <$> last tl = Some n.

(** *** Streams of read pairs *)

(** [r1] lies where [r2] says its mate lies, and the other way round. *)
Definition mate_of (r1 r2 : Bam.bam1_t) : Prop :=
  Bam.qname r1 = Bam.qname r2
  /\ Bam.tid r1 = Bam.mtid r2 /\ Bam.pos r1 = Bam.mpos r2
  /\ Bam.mtid r1 = Bam.tid r2 /\ Bam.mpos r1 = Bam.pos r2.

(** A position-sorted stream of paired records: a query name is carried by
    at most two records, which are then mates of each other. *)
Record paired_stream (rs : list Bam.bam1_t) : Prop := {
  ps_sorted : forall (i j : nat) r r',
    (i < j)%nat -> rs !! i = Some r -> rs !! j = Some r' ->
    Bam.pos r <= Bam.pos r';
  ps_field : forall r, r ∈ rs -> 0 <= Bam.pos r /\ 0 <= Bam.qual r < 2 ^ 8;
  ps_mates : forall (i j : nat) r r',
    i <> j -> rs !! i = Some r -> rs !! j = Some r' ->
    Bam.qname r = Bam.qname r' -> mate_of r r';
  ps_two : forall (i j k : nat) r1 r2 r3,
    (i < j)%nat -> (j < k)%nat ->
    rs !! i = Some r1 -> rs !! j = Some r2 -> rs !! k = Some r3 ->
    ~ (Bam.qname r1 = Bam.qname r2 /\ Bam.qname r2 = Bam.qname r3)
}.

(** The hashes tell the records of the stream apart: equal name hashes
    mean equal names, and the key of a record is the mate key of another
    exactly when the two are mates. *)
Record collision_free `{Bam.PairHash} (rs : list Bam.bam1_t) : Prop := {
  cf_name : forall r r', r ∈ rs -> r' ∈ rs ->
    Bam.hash_string (Bam.qname r) = Bam.hash_string (Bam.qname r') ->
    Bam.qname r = Bam.qname r';
  cf_pair : forall r r', r ∈ rs -> r' ∈ rs ->
    Bam.hash_pair r = Bam.hash_pair r' -> Bam.qname r = Bam.qname r';
  cf_mate : forall r r', r ∈ rs -> r' ∈ rs ->
    Bam.hash_pair r = Bam.hash_pair_mate r' <-> mate_of r r'
}.

(** Modelled from the spec: a FragmentKey without collisions, the one for
    a record and the one for its mate built from the same fields in swapped
    order, and half of the aligned span of a record. It stands for the
    hashes of util.h where a stream is run. *)
Definition aligned_span (r : Bam.bam1_t) : Z :=
  zsum ((fun '(op, oplen) =>
           match op with
           | Bam.BAM_CMATCH | Bam.BAM_CEQUAL | Bam.BAM_CDIFF
           | Bam.BAM_CDEL | Bam.BAM_CREF_SKIP => oplen
           | _ => 0
           end) <$> Bam.cigar r).

Definition ideal_hash : Bam.PairHash :=
  {| Bam.hash_string := fun s => Z.pos (encode s);
     Bam.hash_pair := fun r =>
       Z.pos (encode (Bam.qname r, Bam.tid r, Bam.pos r, Bam.mtid r, Bam.mpos r));
     Bam.hash_pair_mate := fun r =>
       Z.pos (encode (Bam.qname r, Bam.mtid r, Bam.mpos r, Bam.tid r, Bam.pos r));
     Bam.halfAlignmentLength := fun r => u32 (aligned_span r / 2) |}.

(** A properly paired, mapped record of the forward or reverse strand. *)
Definition mate (name : string) (p mp q : Z) (c : list (Bam.cigar_op * Z))
  : Bam.bam1_t :=
  {| Bam.flag := 3; Bam.tid := 0; Bam.mtid := 0; Bam.pos := p; Bam.mpos := mp;
     Bam.qual := q; Bam.qname := name; Bam.cigar := c |}.

(** Two pairs on one chromosome, the mates of the second at one position. *)
Definition two_pairs : list Bam.bam1_t :=
  [ mate "a" 100 200 30 [(Bam.BAM_CMATCH, 50)];
    mate "b" 150 150 40 [(Bam.BAM_CMATCH, 50)];
    mate "b" 150 150 35 [(Bam.BAM_CMATCH, 50)];
    mate "a" 200 100 25 [(Bam.BAM_CMATCH, 50)] ].

(** What the resolver state holds after the first [k] records of [rs]. *)
Record inv `{Bam.PairHash} (minQual : Z) (rs : list Bam.bam1_t) (k : nat)
    (st : Resolver.state) : Prop := {
  inv_pos : 0 <= Resolver.lastAlignedPos st;
  inv_seen : forall (i : nat) r,
    (i < k)%nat -> rs !! i = Some r -> Resolver.passes minQual r = true ->
    Bam.pos r <= Resolver.lastAlignedPos st;
  inv_next : forall (j : nat) r,
    (k <= j)%nat -> rs !! j = Some r -> Resolver.lastAlignedPos st <= Bam.pos r;
  inv_reads : forall h, h ∈ Resolver.lastAlignedPosReads st ->
    exists (i : nat) r, (i < k)%nat /\ rs !! i = Some r
      /\ Resolver.passes minQual r = true
      /\ Bam.hash_string (Bam.qname r) = h;
  inv_stored : forall (i : nat) r,
    (i < k)%nat -> rs !! i = Some r -> Resolver.passes minQual r = true ->
    Bam.pos r <= Bam.mpos r -> Bam.pos r = Resolver.lastAlignedPos st ->
    Bam.hash_string (Bam.qname r) ∈ Resolver.lastAlignedPosReads st;
  inv_keys : forall hv q, Resolver.qualities st !! hv = Some q ->
    exists (i : nat) r, (i < k)%nat /\ rs !! i = Some r
      /\ Resolver.passes minQual r = true /\ Bam.hash_pair r = hv;
  inv_pending : forall (i : nat) r,
    (i < k)%nat -> rs !! i = Some r -> Resolver.passes minQual r = true ->
    Bam.pos r <= Bam.mpos r ->
    (forall (j : nat) r', (j < k)%nat -> j <> i -> rs !! j = Some r' ->
       Resolver.passes minQual r' = true -> Bam.qname r' <> Bam.qname r) ->
    Resolver.qualities st !! Bam.hash_pair r = Some (Bam.qual r)
}.

(** The value of the first run. *)
Definition head_value (runs : list Run) : option Z :=
  (fun r : Run => r.2) <$> head runs.

(** The segments follow one another from [s] to [n]; all but the last are
    known not to be empty. *)
Fixpoint seg_chain (s : Z) (tl : list Compressor.Track) (n : Z) : Prop :=
  match tl with
  | [] => False
  | [t] => Compressor.start t = s /\ Compressor.end_ t = n
  | t :: (_ :: _) as tl' =>
      Compressor.start t = s /\ Compressor.start t < Compressor.end_ t
      /\ seg_chain (Compressor.end_ t) tl' n
  end.

(** What is checked, by evaluation, of the [double] of a [uint16_t]: it
    converts back to the integer, it is not negative, and the unit
    normalisation factor leaves it as it is. *)
Definition depth_double_ok (c : Z) : bool :=
  match Compressor.double_to_u32 (Compressor.Z2f c) with
  | Some z => z =? c
  | None => false
  end
  && match Prim2SF (Compressor.Z2f c) with
     | S754_zero false => true
     | S754_finite false _ _ => true
     | _ => false
     end
  && PrimFloat.Leibniz.eqb (1 * Compressor.Z2f c)%float (Compressor.Z2f c).

(** [ok] on the [2^n] integers from [lo] on, by halving. *)
Fixpoint all_from (ok : Z -> bool) (n : nat) (lo : Z) : bool :=
  match n with
  | O => ok lo
  | S n' => all_from ok n' lo && all_from ok n' (lo + 2 ^ Z.of_nat n')
  end.

(** ** The records the code keeps, in the words of the spec *)

(** Modelled from the spec: a flag of the record is set. *)
Definition has_flag (r : Bam.bam1_t) (bit : Z) : bool :=
  negb (Z.land (Bam.flag r) bit =? 0).

(** Modelled from the spec: the filter, condition by condition. A record
    is dropped when it is secondary, QC-failed, duplicate, supplementary,
    unmapped, mate-unmapped, not flagged paired, mapped to a different
    reference than its mate, or below the minimum mapping quality. *)
Definition qualifies (minQual : Z) (r : Bam.bam1_t) : bool :=
  negb (has_flag r Bam.BAM_FSECONDARY)
  && negb (has_flag r Bam.BAM_FQCFAIL)
  && negb (has_flag r Bam.BAM_FDUP)
  && negb (has_flag r Bam.BAM_FSUPPLEMENTARY)
  && negb (has_flag r Bam.BAM_FUNMAP)
  && negb (has_flag r Bam.BAM_FMUNMAP)
  && has_flag r Bam.BAM_FPAIRED
  && (Bam.tid r =? Bam.mtid r)
  && (minQual <=? Bam.qual r).

(** The records of a stream that are kept, in stream order. *)
Definition qualifying (minQual : Z) (rs : list Bam.bam1_t)
  : list Bam.bam1_t :=
  filter (fun r => qualifies minQual r = true) rs.

(** A supplementary alignment of a paired read. *)
Definition supplementary (name : string) (p mp q : Z)
    (c : list (Bam.cigar_op * Z)) : Bam.bam1_t :=
  {| Bam.flag := 2051; Bam.tid := 0; Bam.mtid := 0; Bam.pos := p;
     Bam.mpos := mp; Bam.qual := q; Bam.qname := name; Bam.cigar := c |}.

(** The two pairs, with a supplementary line of the first read of "a" and
    a line of "b" below the quality of the examples among them. *)
Definition pairs_with_more : list Bam.bam1_t :=
  [ mate "a" 100 200 30 [(Bam.BAM_CMATCH, 50)];
    supplementary "a" 120 200 30 [(Bam.BAM_CMATCH, 20)];
    mate "b" 150 150 40 [(Bam.BAM_CMATCH, 50)];
    mate "b" 150 150 5 [(Bam.BAM_CMATCH, 50)];
    mate "b" 150 150 35 [(Bam.BAM_CMATCH, 50)];
    mate "a" 200 100 25 [(Bam.BAM_CMATCH, 50)] ].

(** * More of the code: the per-base count by record, the rows of
    count_dna.h, the interval file, the second pass and the track of a
    chromosome, and the exon junctions of count_junction.h *)
(** The bases one CIGAR operation counts (M, =, X). *)
Definition matched_len (o : Bam.cigar_op * Z) : Z :=
  match o.1 with
  | Bam.BAM_CMATCH | Bam.BAM_CEQUAL | Bam.BAM_CDIFF => o.2
  | _ => 0
  end.

(** The reference bases one CIGAR operation passes (M, =, X, D, N). *)
Definition ref_len (o : Bam.cigar_op * Z) : Z :=
  match o.1 with
  | Bam.BAM_CMATCH | Bam.BAM_CEQUAL | Bam.BAM_CDIFF
  | Bam.BAM_CDEL | Bam.BAM_CREF_SKIP => o.2
  | _ => 0
  end.

Definition matched_bases (ops : list (Bam.cigar_op * Z)) : Z :=
  zsum (matched_len <$> ops).

Definition ref_span (ops : list (Bam.cigar_op * Z)) : Z :=
  zsum (ref_len <$> ops).

(** Base [i] lies under a matched block of the CIGAR walked from [rp]. *)
Fixpoint matched_at (ops : list (Bam.cigar_op * Z)) (rp i : Z) : bool :=
  match ops with
  | [] => false
  | (op, oplen) :: ops' =>
      match op with
      | Bam.BAM_CMATCH | Bam.BAM_CEQUAL | Bam.BAM_CDIFF =>
          ((rp <=? i) && (i <? rp + oplen)) || matched_at ops' (rp + oplen) i
      | Bam.BAM_CDEL | Bam.BAM_CREF_SKIP => matched_at ops' (rp + oplen) i
      | _ => matched_at ops' rp i
      end
  end.

(** The counter of a base after a record: one more under a matched block,
    unless it stands at the bound. *)
Definition bump_base (ops : list (Bam.cigar_op * Z)) (rp : Z) (i : nat) (c : Z)
  : Z :=
  if matched_at ops rp (Z.of_nat i) && (c <? Coverage.maxCoverage)
  then c + 1 else c.

(** One turn of the inner loop. *)
Definition bump_at (rp : Z) (cov : list Z) (c : Z) : list Z :=
  if c <? Coverage.maxCoverage then <[ Z.to_nat rp := u16 (c + 1) ]> cov else cov.

(** CIGAR lengths as a BAM file holds them: 28 bits, never negative. *)
Definition oplens_ok (ops : list (Bam.cigar_op * Z)) : Prop :=
  Forall (fun o => 0 <= o.2) ops.


(** ** The mid-point count of count_dna.h, by fragment *)

Section MidPointSpec.
Context `{Bam.PairHash}.

(** [midPoint] of "Count mid point": a 32-bit signed sum. *)
Definition midPoint (r : Bam.bam1_t) : Z :=
  i32 (Bam.pos r + Bam.halfAlignmentLength r).

(** The mid-point count over the valid fragments of a stream alone. *)
Fixpoint count_fragments (target_len : Z) (cov : list Z)
    (frs : list Resolver.ValidFragment) : result (list Z) :=
  match frs with
  | [] => Done cov
  | f :: frs' =>
      bind (Coverage.count_midpoint target_len cov (Resolver.rec f))
           (fun cov' => count_fragments target_len cov' frs')
  end.

(** The fragments whose mid-point is base [i]. *)
Definition hits (i : Z) (frs : list Resolver.ValidFragment) : Z :=
  Z.of_nat (length (filter (fun f => midPoint (Resolver.rec f) = i) frs)).

End MidPointSpec.

(** ** The rows of count_dna.h for one chromosome *)

Section RowSpec.
Context `{Bam.PairHash}.

(** The fragments whose mid-point lies in [[s, e)]. *)
Definition hits_in (s e : Z) (frs : list Resolver.ValidFragment) : Z :=
  Z.of_nat
    (length (filter (fun f => s <= midPoint (Resolver.rec f) < e) frs)).

(** [str] ends in [suffix]: the size test and the [compare] of the
    last characters. *)
Definition ends_with (suffix str : string) : bool :=
  (String.length suffix <=? String.length str)%nat
  && String.eqb
       (String.substring (String.length str - String.length suffix)
          (String.length suffix) str)
       suffix.

(** "Check we have mapped reads on this chromosome": [nodata] starts
    true, and is cleared for a file whose name ends in "cram" and when the
    index counts a mapped read ([mapped] of [hts_idx_get_stat]). *)
Definition nodata (bamFile : string) (mapped : Z) : bool :=
  let nodata := true in
  let nodata := if ends_with "cram" bamFile then false else nodata in
  let nodata := if negb (mapped =? 0) then false else nodata in
  nodata.

(** One chromosome of [bam_dna_counter] without an interval file. The
    chromosome is passed over, and no row written, when it is not a valid
    one ([c.validChr]) or has no data. Otherwise: the mid-point pass on
    the zero vector, the artificial windows, and the sum of each window.
    The rows are given in the order of the windows; the [std::sort] by
    [SortIntervalStart] (util.h, not among the sources) that comes before
    the sums finds them in increasing order of start. *)
Definition window_rows (validChr : bool) (bamFile : string) (mapped : Z)
    (fuel : nat) (c : Intervals.CountDNAConfig)
    (chr : string) (target_len minQual : Z) (rs : list Bam.bam1_t)
  : result (list (Intervals.ItvChr * Z)) :=
  if negb validChr then Done []
  else if nodata bamFile mapped then Done []
  else
    bind (Coverage.count_reads minQual target_len Resolver.init
            (Coverage.empty_cov target_len) rs) (fun cov =>
    bind (Intervals.createIntervals fuel c chr target_len) (fun itv =>
    bind (Intervals.interval_sums cov itv) (fun sums =>
    Done (zip itv sums)))).

End RowSpec.

(** ** The interval file of count_dna.h *)

Module IntervalFile.
Import Intervals.

(** What [createIntervals] comes to on an interval file. *)
Inductive file_result : Type :=
| Intervals (intvec : list ItvChr)   (* [return true] *)
| ParseFailed                        (* [return false] *)
| BadCast                            (* [bad_lexical_cast] is thrown *)
| BadToken.                          (* the end of the tokens is read *)

Section WithCast.
(** [boost::lexical_cast<int32_t>] on a token, [None] when it throws. *)
Variable lexical_cast : string -> option Z.

(** The loop over the lines of the file, each line given as its tokens
    (the separators are blank, tab, comma and semicolon, and empty tokens
    are dropped). The intervals of a line are pushed in file order. *)
Fixpoint file_intervals (chr : string) (lines : list (list string))
  : file_result :=
  match lines with
  | [] => Intervals []
  | tokens :: lines' =>
      match tokens with
      | [] => file_intervals chr lines'
      | chrName :: tokens1 =>
          if negb (String.eqb chrName chr) then file_intervals chr lines'
          else
            match tokens1 with
            | [] => file_intervals chr lines'
            | t_start :: tokens2 =>
                match lexical_cast t_start with
                | None => BadCast
                | Some s =>
                    match tokens2 with
                    | [] => BadToken
                    | t_end :: tokens3 =>
                        match lexical_cast t_end with
                        | None => BadCast
                        | Some e =>
                            if i32 s <? 0 then ParseFailed
                            else if i32 e <? 0 then ParseFailed
                            else if i32 e <=? i32 s then ParseFailed
                            else
                              match tokens3 with
                              | [] => BadToken
                              | t_id :: _ =>
                                  match file_intervals chr lines' with
                                  | Intervals intvec =>
                                      Intervals
                                        ({| start := i32 s; end_ := i32 e;
                                            id := t_id |} :: intvec)
                                  | other => other
                                  end
                              end
                        end
                    end
                end
            end
      end
  end.

(** The lines that name the chromosome. *)
Definition names (chr : string) (tokens : list string) : bool :=
  match tokens with
  | [] => false
  | chrName :: _ => String.eqb chrName chr
  end.

End WithCast.

(** A reader of decimal numbers, for the examples. *)
Definition digit (a : Ascii.ascii) : option Z :=
  let n := Z.of_N (Ascii.N_of_ascii a) in
  if (48 <=? n) && (n <=? 57) then Some (n - 48) else None.

Fixpoint digits (s : string) (acc : Z) : option Z :=
  match s with
  | EmptyString => Some acc
  | String a s' =>
      match digit a with
      | None => None
      | Some d => digits s' (10 * acc + d)
      end
  end.

Definition decimal (s : string) : option Z :=
  match s with
  | EmptyString => None
  | String a s' =>
      if Z.of_N (Ascii.N_of_ascii a) =? 45     (* a minus sign *)
      then match s' with
           | EmptyString => None
           | _ => Z.opp <$> digits s' 0
           end
      else digits s 0
  end.

End IntervalFile.

(** ** The second pass of tracks.h, by record *)

Section SecondPassSpec.
Context `{Bam.PairHash}.

(** The key the second pass looks up: its read store stays empty, so a
    record at the position of its mate takes [hash_pair] as well. *)
Definition pair_key (r : Bam.bam1_t) : Z :=
  if Bam.pos r <=? Bam.mpos r then Bam.hash_pair r else Bam.hash_pair_mate r.

(** The records the second pass counts. *)
Definition counts (minQual : Z) (validPairs : gset Z) (r : Bam.bam1_t)
  : bool :=
  Resolver.passes minQual r && bool_decide (pair_key r ∈ validPairs).

End SecondPassSpec.

(** The records at [i] and [k] are the two mates of a pair that
    qualifies. *)
Definition valid_pair (minQual : Z) (rs : list Bam.bam1_t) (i k : nat)
    (r1 r : Bam.bam1_t) : Prop :=
  (i < k)%nat /\ rs !! i = Some r1 /\ rs !! k = Some r /\ mate_of r1 r
  /\ Resolver.passes minQual r1 = true /\ Resolver.passes minQual r = true
  /\ minQual <= Z.min (Bam.qual r1) (Bam.qual r).

Definition in_valid_pair (minQual : Z) (rs : list Bam.bam1_t) (k : nat)
  : Prop :=
  exists (i j : nat) r1 r2, valid_pair minQual rs i j r1 r2 /\ (k = i \/ k = j).

(** The record lies on a chromosome of [n] bases. *)
Definition record_inside (n : Z) (r : Bam.bam1_t) : Prop :=
  0 <= Bam.pos r /\ oplens_ok (Bam.cigar r)
  /\ Bam.pos r + ref_span (Bam.cigar r) <= n.

(** The records with a matched base at [i]. *)
Definition depth (i : Z) (rs : list Bam.bam1_t) : Z :=
  Z.of_nat
    (length (filter (fun r => matched_at (Bam.cigar r) (Bam.pos r) i = true)
               rs)).

(** ** Exon junctions: [countExonJct] and the count table (count_junction.h) *)

Module Junction.

(** [IntervalLabelId], the fields read here; all are [int32_t]. *)
Record IntervalLabelId : Type := {
  start : Z;
  end_ : Z;
  lid : Z;        (* the gene *)
  eid : Z         (* the exon *)
}.

(** util.h is not among the sources: the comparator that [std::sort] and
    [std::lower_bound] are given, and the search key that
    [IntervalLabelId(int32_t)] builds from a position. *)
Class IntervalOrder : Type := {
  SortIntervalStart : IntervalLabelId -> IntervalLabelId -> bool;
  search_key : Z -> IntervalLabelId
}.

(** [std::map<std::pair<int32_t, int32_t>, uint32_t>]. *)
Abbreviation TExonJctCount := (gmap (Z * Z) Z).

(** [++itEjct->second], or the insertion of a count of 1. *)
Definition bump (key : Z * Z) (ejct : TExonJctCount) : TExonJctCount :=
  match ejct !! key with
  | Some n => <[ key := u32 (n + 1) ]> ejct
  | None => <[ key := 1 ]> ejct
  end.

(** The longest exon of the chromosome. *)
Definition maxExonLength (gRegions : list IntervalLabelId) : Z :=
  foldl (fun m r =>
           if m <? i32 (end_ r - start r) then i32 (end_ r - start r) else m)
        0 gRegions.

(** "Flag junction positions": [featureBitMap[i] = 1], undefined outside
    the bit set. *)
Definition set_bit (bm : list bool) (i : Z) : result (list bool) :=
  match vec_get bm i with
  | None => Fault
  | Some _ => Done (<[ Z.to_nat i := true ]> bm)
  end.

Fixpoint flag_positions (gRegions : list IntervalLabelId) (bm : list bool)
  : result (list bool) :=
  match gRegions with
  | [] => Done bm
  | r :: gRegions' =>
      bind (set_bit bm (start r)) (fun bm =>
      bind (set_bit bm (end_ r)) (fun bm =>
      flag_positions gRegions' bm))
  end.

Definition featureBitMap (target_len : Z) (gRegions : list IntervalLabelId)
  : result (list bool) :=
  flag_positions gRegions (replicate (Z.to_nat target_len) false).

(** "Find junction partner": the loop over [vItNext], from the region
    after [vIt] to the end of the vector. *)
Fixpoint partner_loop (vIt : IntervalLabelId) (gpEnd : Z)
    (rest : list IntervalLabelId) (ejct : TExonJctCount) : TExonJctCount :=
  match rest with
  | [] => ejct
  | vItNext :: rest' =>
      if end_ vItNext <? gpEnd then partner_loop vIt gpEnd rest' ejct
      else if gpEnd <? start vItNext then ejct            (* break *)
      else if start vItNext =? gpEnd then
        if eid vIt <? eid vItNext
        then partner_loop vIt gpEnd rest'
               (bump (eid vIt, eid vItNext) ejct)
        else partner_loop vIt gpEnd rest' ejct
      else partner_loop vIt gpEnd rest' ejct
  end.

(** The loop over [vIt], from the lower bound on. *)
Fixpoint donor_loop (gpStart gpEnd : Z) (from : list IntervalLabelId)
    (ejct : TExonJctCount) : TExonJctCount :=
  match from with
  | [] => ejct
  | vIt :: rest =>
      if end_ vIt <? gpStart then donor_loop gpStart gpEnd rest ejct
      else if gpStart <? start vIt then ejct              (* break *)
      else if end_ vIt =? gpStart
      then donor_loop gpStart gpEnd rest (partner_loop vIt gpEnd rest ejct)
      else donor_loop gpStart gpEnd rest ejct
  end.

Section WithOrder.
Context `{IntervalOrder}.

(** [std::lower_bound] on a range that the comparator partitions (the
    vector has just been sorted with it): what is left of the vector from
    the first region that is not before the key. *)
Fixpoint lower_bound (key : IntervalLabelId)
    (gRegions : list IntervalLabelId) : list IntervalLabelId :=
  match gRegions with
  | [] => []
  | r :: gRegions' =>
      if SortIntervalStart r key then lower_bound key gRegions'
      else gRegions
  end.

(** One [BAM_CREF_SKIP] from [gpStart] to [gpEnd]. The second bit is read
    only when the first is set. *)
Definition skip_junctions (gRegions : list IntervalLabelId)
    (maxExonLength : Z) (bm : list bool) (gpStart gpEnd : Z)
    (ejct : TExonJctCount) : result TExonJctCount :=
  match vec_get bm gpStart with
  | None => Fault
  | Some false => Done ejct
  | Some true =>
      match vec_get bm gpEnd with
      | None => Fault
      | Some false => Done ejct
      | Some true =>
          let key := search_key (Z.max 0 (i32 (gpStart - maxExonLength))) in
          Done (donor_loop gpStart gpEnd (lower_bound key gRegions) ejct)
      end
  end.

(** "Parse CIGAR": [None] is [return 1] after "Unknown Cigar options". *)
Fixpoint junction_cigar (gRegions : list IntervalLabelId)
    (maxExonLength : Z) (bm : list bool) (ops : list (Bam.cigar_op * Z))
    (gp sp : Z) (ejct : TExonJctCount) : result (option TExonJctCount) :=
  match ops with
  | [] => Done (Some ejct)
  | (op, oplen) :: ops' =>
      match op with
      | Bam.BAM_CSOFT_CLIP | Bam.BAM_CINS =>
          junction_cigar gRegions maxExonLength bm ops' gp (i32 (sp + oplen))
            ejct
      | Bam.BAM_CDEL =>
          junction_cigar gRegions maxExonLength bm ops' (i32 (gp + oplen)) sp
            ejct
      | Bam.BAM_CREF_SKIP =>
          let gpStart := gp in
          let gp := i32 (gp + oplen) in
          let gpEnd := gp in
          bind (skip_junctions gRegions maxExonLength bm gpStart gpEnd ejct)
               (fun ejct =>
                  junction_cigar gRegions maxExonLength bm ops' gp sp ejct)
      | Bam.BAM_CHARD_CLIP =>
          junction_cigar gRegions maxExonLength bm ops' gp sp ejct
      | Bam.BAM_CMATCH =>
          junction_cigar gRegions maxExonLength bm ops' (i32 (gp + oplen))
            (i32 (sp + oplen)) ejct
      | _ => Done None
      end
  end.

(** The flag test of [countExonJct]. *)
Definition jct_filtered (r : Bam.bam1_t) : bool :=
  negb (Z.land (Bam.flag r)
          (Z.lor Bam.BAM_FQCFAIL (Z.lor Bam.BAM_FDUP Bam.BAM_FUNMAP)) =? 0).

(** "Count reads": the loop over the records of one chromosome. The read
    sequence that the source copies is not used. *)
Fixpoint count_records (minQual : Z) (gRegions : list IntervalLabelId)
    (maxExonLength : Z) (bm : list bool) (rs : list Bam.bam1_t)
    (ejct : TExonJctCount) : result (option TExonJctCount) :=
  match rs with
  | [] => Done (Some ejct)
  | r :: rs' =>
      if jct_filtered r
      then count_records minQual gRegions maxExonLength bm rs' ejct
      else if Bam.qual r <? minQual
      then count_records minQual gRegions maxExonLength bm rs' ejct
      else
        bind (junction_cigar gRegions maxExonLength bm (Bam.cigar r)
                (Bam.pos r) 0 ejct)
             (fun o =>
                match o with
                | None => Done None
                | Some ejct =>
                    count_records minQual gRegions maxExonLength bm rs' ejct
                end)
  end.

(** One chromosome of [countExonJct]; [gRegions] is the vector as
    [std::sort] has left it. *)
Definition countExonJct (minQual target_len : Z)
    (gRegions : list IntervalLabelId) (rs : list Bam.bam1_t)
    (ejct : TExonJctCount) : result (option TExonJctCount) :=
  match gRegions with
  | [] => Done (Some ejct)
  | _ =>
      bind (featureBitMap target_len gRegions) (fun bm =>
        count_records minQual gRegions (maxExonLength gRegions) bm rs ejct)
  end.

End WithOrder.

(** "Output intra-gene exon-exon junction support": a row for each two
    regions of one gene that leave a gap, with the count found under the
    two exon ids, the smaller first, or 0. *)
Definition jct_count (ejct : TExonJctCount) (key : Z * Z) : Z :=
  default 0 (ejct !! key).

Fixpoint report_partners (itR : IntervalLabelId)
    (rest : list IntervalLabelId) (ejct : TExonJctCount)
  : list (IntervalLabelId * IntervalLabelId * Z) :=
  match rest with
  | [] => []
  | itRNext :: rest' =>
      if (lid itR =? lid itRNext) && (end_ itR <? start itRNext) then
        let key := if eid itRNext <? eid itR
                   then (eid itRNext, eid itR) else (eid itR, eid itRNext) in
        (itR, itRNext, jct_count ejct key) :: report_partners itR rest' ejct
      else report_partners itR rest' ejct
  end.

Fixpoint report_rows (gRegions : list IntervalLabelId)
    (ejct : TExonJctCount)
  : list (IntervalLabelId * IntervalLabelId * Z) :=
  match gRegions with
  | [] => []
  | itR :: rest => report_partners itR rest ejct ++ report_rows rest ejct
  end.

(** *** What the search is checked against *)

(** The comparator orders by start, and a search key starts where it is
    asked to. *)
Record by_start `{IntervalOrder} : Prop := {
  cmp_start : forall a b, SortIntervalStart a b = (start a <? start b);
  key_start : forall s, start (search_key s) = s
}.

(** The order of the examples. *)
Definition start_order : IntervalOrder :=
  {| SortIntervalStart := fun a b => start a <? start b;
     search_key := fun s => {| start := s; end_ := s + 1; lid := -1;
                               eid := -1 |} |}.

Fixpoint sorted_by_start (gRegions : list IntervalLabelId) : Prop :=
  match gRegions with
  | [] => True
  | a :: rest =>
      Forall (fun b => start a <= start b) rest /\ sorted_by_start rest
  end.

(** Regions that lie on a chromosome of [n] bases, both ends flagged. *)
Definition region_ok (n : Z) (r : IntervalLabelId) : Prop :=
  0 <= start r <= end_ r /\ end_ r < n.

(** The positions of a region are both on a bit set of [n] bits. *)
Definition flagged_ok (n : Z) (r : IntervalLabelId) : Prop :=
  0 <= start r < n /\ 0 <= end_ r < n.

(** The pairs of a list, the first member before the second. *)
Fixpoint ordered_pairs {A} (l : list A) : list (A * A) :=
  match l with
  | [] => []
  | a :: rest => ((fun b => (a, b)) <$> rest) ++ ordered_pairs rest
  end.

(** The members of a list that pass a test. *)
Fixpoint countb {A} (p : A -> bool) (l : list A) : Z :=
  match l with
  | [] => 0
  | x :: l' => (if p x then 1 else 0) + countb p l'
  end.

(** The skip from [gpStart] to [gpEnd] joins [a] to [b] and counts under
    [key]. *)
Definition joins (gpStart gpEnd : Z) (key : Z * Z)
    (a b : IntervalLabelId) : bool :=
  (end_ a =? gpStart) && (start b =? gpEnd) && (eid a <? eid b)
  && bool_decide ((eid a, eid b) = key).

(** The pairs of regions, the first before the second in the vector, that
    a skip joins under [key]. *)
Definition count_pairs (gRegions : list IntervalLabelId)
    (gpStart gpEnd : Z) (key : Z * Z) : Z :=
  countb (fun p => joins gpStart gpEnd key p.1 p.2) (ordered_pairs gRegions).

(** The skips of a CIGAR walked from [gp], as [(gpStart, gpEnd)]. *)
Fixpoint skips (ops : list (Bam.cigar_op * Z)) (gp : Z) : list (Z * Z) :=
  match ops with
  | [] => []
  | (op, oplen) :: ops' =>
      match op with
      | Bam.BAM_CDEL | Bam.BAM_CMATCH => skips ops' (i32 (gp + oplen))
      | Bam.BAM_CREF_SKIP =>
          (gp, i32 (gp + oplen)) :: skips ops' (i32 (gp + oplen))
      | _ => skips ops' gp
      end
  end.

(** The operations [countExonJct] knows. *)
Definition known_op (op : Bam.cigar_op) : bool :=
  match op with
  | Bam.BAM_CSOFT_CLIP | Bam.BAM_CINS | Bam.BAM_CDEL | Bam.BAM_CREF_SKIP
  | Bam.BAM_CHARD_CLIP | Bam.BAM_CMATCH => true
  | _ => false
  end.

(** The records [countExonJct] reads. *)
Definition jct_passes (minQual : Z) (r : Bam.bam1_t) : bool :=
  negb (jct_filtered r) && negb (Bam.qual r <? minQual).

(** All skips of the records of a chromosome that are read, in order. *)
Definition all_skips (minQual : Z) (rs : list Bam.bam1_t) : list (Z * Z) :=
  concat ((fun r => skips (Bam.cigar r) (Bam.pos r))
            <$> filter (fun r => jct_passes minQual r = true) rs).

(** What these skips add under [key]. *)
Definition skip_total (gRegions : list IntervalLabelId) (key : Z * Z)
    (sk : list (Z * Z)) : Z :=
  zsum ((fun se => count_pairs gRegions se.1 se.2 key) <$> sk).

(** The skips lie on a chromosome of [n] bases. *)
Definition skips_inside (n : Z) (sk : list (Z * Z)) : Prop :=
  Forall (fun se => 0 <= se.1 < n /\ 0 <= se.2 < n) sk.

(** The skips from the end of [a] to the start of [b]. *)
Definition skips_between (a b : IntervalLabelId) (sk : list (Z * Z)) : Z :=
  countb (fun se => (se.1 =? end_ a) && (se.2 =? start b)) sk.

(** No count of the map is outside [uint32_t]. *)
Definition counts_ok (ejct : TExonJctCount) : Prop :=
  forall key n, ejct !! key = Some n -> 0 <= n < 2 ^ 32.

End Junction.

(** Three exons of one gene and a read that is spliced from the first to
    the second, for the examples. *)
Definition three_exons : list Junction.IntervalLabelId :=
  [ {| Junction.start := 10; Junction.end_ := 20; Junction.lid := 0;
       Junction.eid := 0 |};
    {| Junction.start := 30; Junction.end_ := 40; Junction.lid := 0;
       Junction.eid := 1 |};
    {| Junction.start := 50; Junction.end_ := 60; Junction.lid := 0;
       Junction.eid := 2 |} ].

Definition spliced_read : Bam.bam1_t :=
  {| Bam.flag := 0; Bam.tid := 0; Bam.mtid := 0; Bam.pos := 15; Bam.mpos := 0;
     Bam.qual := 60; Bam.qname := "s";
     Bam.cigar := [(Bam.BAM_CSOFT_CLIP, 2); (Bam.BAM_CMATCH, 5);
                   (Bam.BAM_CREF_SKIP, 10); (Bam.BAM_CMATCH, 5)] |}.

(** ** One chromosome of [create_tracks] (tracks.h) *)

Section TrackSpec.
Context `{Bam.PairHash}.

(** The lines written for one chromosome: none without a valid pair,
    otherwise the track of the coverage of the second pass. *)
Definition create_tracks_chr (fuel : nat) (resolution normFactor : float)
    (minQual target_len : Z) (rs : list Bam.bam1_t)
  : result (list Compressor.Track) :=
  let validPairs := Resolver.validPairs minQual rs in
  if bool_decide (validPairs = ∅) then Done []
  else
    bind (Coverage.coverage_pass minQual validPairs Resolver.init
            (Coverage.empty_cov target_len) rs)
         (Compressor.compress fuel resolution normFactor).

End TrackSpec.


(** * Properties *)

(** ** Machine integers and doubles *)

Section FloatFacts.
Import Compressor.

Lemma all_from_spec ok n : forall lo c,
  all_from ok n lo = true -> lo <= c < lo + 2 ^ Z.of_nat n -> ok c = true.
Proof.
  induction n as [|n IH]; intros lo c Hall Hc.
  - simpl in *. replace c with lo by lia. exact Hall.
  - simpl in Hall. apply andb_prop in Hall as [H1 H2].
    rewrite Nat2Z.inj_succ, Z.pow_succ_r in Hc by lia.
    destruct (Z.lt_ge_cases c (lo + 2 ^ Z.of_nat n)).
    + apply (IH lo); [assumption|lia].
    + apply (IH (lo + 2 ^ Z.of_nat n)); [assumption|lia].
Qed.

(** All 65536 depths pass the check. *)
Lemma depth_doubles_ok : all_from depth_double_ok 16 0 = true.
Proof. vm_compute. reflexivity. Qed.

Lemma depth_double c : 0 <= c < 2 ^ 16 -> depth_double_ok c = true.
Proof.
  intros Hc. apply (all_from_spec _ 16 0); [exact depth_doubles_ok|].
  simpl. lia.
Qed.

(** Among the floats that are zero or positive and finite, the equality
    test of IEEE 754 is equality. *)
Lemma SFeqb_nonneg_eq x y :
  match x with S754_zero false | S754_finite false _ _ => True | _ => False end ->
  match y with S754_zero false | S754_finite false _ _ => True | _ => False end ->
  SFeqb x y = true -> x = y.
Proof.
  unfold SFeqb, SFcompare.
  destruct x as [[]| | |[] m1 e1], y as [[]| | |[] m2 e2]; try tauto; try discriminate.
  intros _ _. destruct (Z.compare_spec e1 e2); try discriminate.
  subst. destruct (Pos.compare_cont Eq m1 m2) eqn:Hm; try discriminate.
  apply Pos.compare_eq in Hm. by subst.
Qed.

(** [cov[i] == wval] compares two depths. *)
Lemma Z2f_eqb a b : 0 <= a < 2 ^ 16 -> 0 <= b < 2 ^ 16 ->
  (Z2f a =? Z2f b)%float = (a =? b).
Proof.
  intros Ha Hb.
  pose proof (depth_double a Ha) as Da. pose proof (depth_double b Hb) as Db.
  unfold depth_double_ok in Da, Db.
  apply andb_prop in Da as [Da _]. apply andb_prop in Da as [Da1 Da2].
  apply andb_prop in Db as [Db _]. apply andb_prop in Db as [Db1 Db2].
  destruct (Z.eqb_spec a b) as [->|Hne].
  - rewrite FloatAxioms.eqb_spec. unfold SFeqb, SFcompare.
    destruct (Prim2SF (Z2f b)) as [[]| | |[] m e]; try discriminate; try reflexivity.
    rewrite Z.compare_refl. by rewrite Pos.compare_cont_refl.
  - destruct (Z2f a =? Z2f b)%float eqn:Heq; [|reflexivity]. exfalso.
    rewrite FloatAxioms.eqb_spec in Heq.
    apply SFeqb_nonneg_eq in Heq.
    + apply Prim2SF_inj in Heq. rewrite Heq in Da1.
      destruct (double_to_u32 (Z2f b)); [|discriminate]. lia.
    + destruct (Prim2SF (Z2f a)) as [[]| | |[] ? ?]; try discriminate; exact I.
    + destruct (Prim2SF (Z2f b)) as [[]| | |[] ? ?]; try discriminate; exact I.
Qed.

(** Without normalisation the score of a run is its depth. *)
Lemma unit_norm c : 0 <= c < 2 ^ 16 -> (1 * Z2f c)%float = Z2f c.
Proof.
  intros Hc. pose proof (depth_double c Hc) as D. unfold depth_double_ok in D.
  apply andb_prop in D as [_ D]. by apply FloatAxioms.Leibniz.eqb_spec.
Qed.
End FloatFacts.

Section FloatOrder.
Import Compressor.

Lemma SFcompare_antisym x y :
  SFcompare y x = CompOpp <$> SFcompare x y.
Proof.
  destruct x as [[]|[]| |[] m1 e1], y as [[]|[]| |[] m2 e2]; simpl; try reflexivity.
  all: rewrite (Z.compare_antisym e1 e2); destruct (e1 ?= e2); simpl; try reflexivity.
  all: change (PosDef.Pos.compare_cont Eq m2 m1)
         with (Pos.compare_cont (CompOpp Eq) m2 m1);
       rewrite <- (Pos.compare_cont_antisym m1 m2 Eq);
       destruct (Pos.compare_cont Eq m1 m2); reflexivity.
Qed.

(** [x <= y] excludes [y < x], NaN or not. *)
Lemma leb_not_ltb x y : (x <=? y)%float = true -> (y <? x)%float = false.
Proof.
  rewrite FloatAxioms.leb_spec, FloatAxioms.ltb_spec. unfold SFleb, SFltb.
  rewrite (SFcompare_antisym (Prim2SF x) (Prim2SF y)).
  destruct (SFcompare (Prim2SF x) (Prim2SF y)) as [[]|]; simpl; congruence.
Qed.

(** The guard of the reduction is off at or below 0 and at or above 1. *)
Lemma resolution_disabled resolution :
  (resolution <=? 0)%float = true \/ (1 <=? resolution)%float = true ->
  resolution_enabled resolution = false.
Proof.
  unfold resolution_enabled. intros [H|H]; apply leb_not_ltb in H; rewrite H.
  - reflexivity.
  - apply andb_false_r.
Qed.

(** [x <= x] fails for a NaN only. *)
Lemma leb_refl x : (x <=? x)%float = negb (PrimFloat.is_nan x).
Proof.
  rewrite FloatAxioms.leb_spec. unfold PrimFloat.is_nan.
  rewrite FloatAxioms.eqb_spec. unfold SFleb, SFeqb, SFcompare.
  destruct (Prim2SF x) as [[]|[]| |[] m e]; simpl; try reflexivity.
  all: rewrite Z.compare_refl, Pos.compare_cont_refl; reflexivity.
Qed.
End FloatOrder.


(** ** The run-length encoding *)

Section RunLength.
Import Compressor.
Variable normFactor : float.

Lemma u32_id z : 0 <= z < 2 ^ 32 -> u32 z = z.
Proof. intros Hz. unfold u32. rewrite Z.mod_small; lia. Qed.

(** The loop of the run-length encoding, entered at index [i] within a run
    of value [v] that began at [wb]: what it returns encodes the bases of
    that run followed by the rest of the vector. *)
Lemma track_runs_spec rest : forall i wb we v,
  0 <= wb <= we -> i = we + 1 ->
  i + Z.of_nat (length rest) < 2 ^ 32 ->
  Forall is_uint16 rest -> is_uint16 v ->
  exists runs,
    track_runs normFactor rest i wb we (Z2f v) = to_track normFactor <$> runs
    /\ rle_of wb (replicate (Z.to_nat (i - wb)) v ++ rest) runs
    /\ maximal runs
    /\ head_value runs = Some v.
Proof.
  induction rest as [|c rest IH]; intros i wb we v Hwb Hi Hlen Hrest Hv.
  - exists [(wb, we + 1, v)]. simpl in *. rewrite u32_id by lia.
    split; [reflexivity|]. subst i. rewrite app_nil_r, length_replicate.
    rewrite take_ge, drop_ge by (rewrite length_replicate; lia).
    repeat split; auto; lia.
  - apply Forall_cons in Hrest as [Hc Hrest]. simpl in Hlen.
    simpl. rewrite Z2f_eqb by assumption. rewrite !u32_id by lia.
    destruct (Z.eqb_spec c v) as [->|Hne].
    + destruct (IH (i + 1) wb (we + 1) v) as (runs & -> & Hrle & Hmax & Hhd);
        [lia|lia|lia|assumption|assumption|].
      exists runs. split; [reflexivity|]. split; [|by split].
      replace (Z.to_nat (i + 1 - wb)) with (S (Z.to_nat (i - wb))) in Hrle by lia.
      rewrite replicate_S_end, <- app_assoc in Hrle. exact Hrle.
    + destruct (IH (i + 1) i i c) as (runs & -> & Hrle & Hmax & Hhd);
        [lia|lia|lia|assumption|assumption|].
      exists ((wb, we + 1, v) :: runs). split; [reflexivity|].
      replace (Z.to_nat (i + 1 - i)) with 1%nat in Hrle by lia.
      subst i. split; [|split; [|reflexivity]].
      * simpl. rewrite length_app, length_replicate.
        rewrite take_app_length', drop_app_length' by (rewrite length_replicate; lia).
        repeat split; auto; lia.
      * destruct runs as [|[[s' e'] v'] runs]; [exact I|].
        simpl in Hhd. injection Hhd as ->. simpl. split; [congruence|assumption].
Qed.

Lemma coverage_track_spec cov :
  cov <> [] -> Forall is_uint16 cov -> Z.of_nat (length cov) < 2 ^ 32 ->
  exists runs,
    coverage_track normFactor cov = Done (to_track normFactor <$> runs)
    /\ max_rle cov runs.
Proof.
  intros Hne Hcov Hlen. destruct cov as [|c0 rest]; [congruence|].
  apply Forall_cons in Hcov as [Hc Hrest]. simpl in Hlen.
  destruct (track_runs_spec rest 1 0 0 c0) as (runs & Hrun & Hrle & Hmax & _);
    [lia|lia|lia|assumption|assumption|].
  exists runs. simpl. rewrite Hrun. split; [reflexivity|]. by split.
Qed.
End RunLength.

Section Uniqueness.

Lemma rle_first s cov e v runs :
  rle_of s cov ((s, e, v) :: runs) -> cov !! 0%nat = Some v.
Proof.
  simpl. intros (_ & Hlt & Hlen & Htake & _).
  assert (Hl : take (Z.to_nat (e - s)) cov !! 0%nat = Some v).
  { rewrite Htake. apply lookup_replicate_2. lia. }
  rewrite lookup_take_lt in Hl by lia. exact Hl.
Qed.

(** Of two maximal encodings of the same vector, the first run of the one
    cannot end before the first run of the other. *)
Lemma first_run_not_shorter s cov e1 v1 runs1 e2 v2 runs2 :
  rle_of s cov ((s, e1, v1) :: runs1) -> maximal ((s, e1, v1) :: runs1) ->
  rle_of s cov ((s, e2, v2) :: runs2) ->
  e2 <= e1.
Proof.
  intros H1 M1 H2. destruct (Z.le_gt_cases e2 e1) as [|Hlt]; [assumption|].
  exfalso.
  pose proof (rle_first _ _ _ _ _ H1) as Hv1.
  pose proof (rle_first _ _ _ _ _ H2) as Hv2.
  assert (v1 = v2) as <- by congruence.
  simpl in H1, H2.
  destruct H1 as (_ & Hlt1 & Hlen1 & Htake1 & Hrest1).
  destruct H2 as (_ & Hlt2 & Hlen2 & Htake2 & _).
  assert (Hn : cov !! Z.to_nat (e1 - s) = Some v1).
  { rewrite <- (lookup_take_lt cov (Z.to_nat (e2 - s))) by lia.
    rewrite Htake2. apply lookup_replicate_2. lia. }
  destruct runs1 as [|[[s' e'] v'] runs1].
  - simpl in Hrest1. apply (f_equal length) in Hrest1.
    rewrite length_drop in Hrest1. simpl in Hrest1. lia.
  - pose proof Hrest1 as Hsame. destruct Hsame as (-> & _).
    apply rle_first in Hrest1. rewrite lookup_drop, Nat.add_0_r in Hrest1.
    simpl in M1. destruct M1 as [Hne _]. congruence.
Qed.

Lemma max_rle_unique_from runs1 : forall runs2 s cov,
  rle_of s cov runs1 -> maximal runs1 ->
  rle_of s cov runs2 -> maximal runs2 ->
  runs1 = runs2.
Proof.
  induction runs1 as [|[[s1 e1] v1] runs1 IH]; intros runs2 s cov H1 M1 H2 M2.
  - simpl in H1. subst cov. destruct runs2 as [|[[s2 e2] v2] runs2]; [reflexivity|].
    simpl in H2. destruct H2 as (_ & ? & Hlen & _). simpl in Hlen. lia.
  - destruct runs2 as [|[[s2 e2] v2] runs2].
    { simpl in H2. subst cov. simpl in H1.
      destruct H1 as (_ & ? & Hlen & _). simpl in Hlen. lia. }
    assert (s1 = s) as -> by (simpl in H1; tauto).
    assert (s2 = s) as -> by (simpl in H2; tauto).
    pose proof (first_run_not_shorter _ _ _ _ _ _ _ _ H1 M1 H2) as Hle1.
    pose proof (first_run_not_shorter _ _ _ _ _ _ _ _ H2 M2 H1) as Hle2.
    assert (e1 = e2) as -> by lia.
    pose proof (rle_first _ _ _ _ _ H1) as Hv1.
    pose proof (rle_first _ _ _ _ _ H2) as Hv2.
    assert (v1 = v2) as -> by congruence.
    f_equal. simpl in H1, H2.
    destruct H1 as (_ & _ & _ & _ & Hrest1).
    destruct H2 as (_ & _ & _ & _ & Hrest2).
    eapply IH; eauto.
    + simpl in M1. destruct runs1 as [|[[? ?] ?] ?]; [exact I|tauto].
    + simpl in M2. destruct runs2 as [|[[? ?] ?] ?]; [exact I|tauto].
Qed.

Lemma max_rle_unique cov runs1 runs2 :
  max_rle cov runs1 -> max_rle cov runs2 -> runs1 = runs2.
Proof. intros [H1 M1] [H2 M2]. eapply max_rle_unique_from; eauto. Qed.
End Uniqueness.

Section Expansion.
Import Compressor.
Variable normFactor : float.

(** The score found at a base is the normalised depth of that base. *)
Lemma score_at_runs runs : forall s cov (i : nat) c,
  rle_of s cov runs -> cov !! i = Some c ->
  score_at (to_track normFactor <$> runs) (s + Z.of_nat i)
  = Some (normFactor * Z2f c)%float.
Proof.
  induction runs as [|[[s' e] v] runs IH]; intros s cov i c Hrle Hi.
  - simpl in Hrle. subst cov. discriminate.
  - simpl in Hrle. destruct Hrle as (-> & Hlt & Hlen & Htake & Hrest).
    unfold score_at. simpl.
    destruct (Z.leb_spec s (s + Z.of_nat i)) as [_|]; [|lia].
    destruct (Z.ltb_spec (s + Z.of_nat i) e) as [Hin|Hout]; simpl.
    + assert (Hv : take (Z.to_nat (e - s)) cov !! i = Some v).
      { rewrite Htake. apply lookup_replicate_2. lia. }
      rewrite lookup_take_lt in Hv by lia. congruence.
    + replace (s + Z.of_nat i) with (e + Z.of_nat (i - Z.to_nat (e - s))) by lia.
      apply (IH e (drop (Z.to_nat (e - s)) cov)); [assumption|].
      rewrite lookup_drop. rewrite <- Hi. f_equal. lia.
Qed.

Lemma expand_runs cov runs :
  rle_of 0 cov runs ->
  expand (length cov) (to_track normFactor <$> runs)
  = (fun c => Some (normFactor * Z2f c)%float) <$> cov.
Proof.
  intros Hrle. apply list_eq. intros i. unfold expand.
  rewrite !list_lookup_fmap.
  destruct (cov !! i) as [c|] eqn:Hi; simpl.
  - rewrite lookup_seq_lt by (eapply lookup_lt_Some; eauto). simpl.
    f_equal. apply (score_at_runs runs 0 cov i c Hrle Hi).
  - rewrite lookup_seq_ge; [reflexivity|]. by apply lookup_ge_None.
Qed.
End Expansion.

Section Covering.
Import Compressor.

Lemma merge_walk_cons thres idx idxNext rest :
  merge_walk thres idx (idxNext :: rest)
  = if (snd (merge_cost idx idxNext) <=? thres)%float
    then merge_walk thres
           {| start := start idx; end_ := end_ idxNext;
              score := fst (merge_cost idx idxNext) |} rest
    else idx :: merge_walk thres idxNext rest.
Proof. reflexivity. Qed.

Lemma seg_chain_cons s t tl n :
  tl <> [] ->
  seg_chain s (t :: tl) n
  <-> start t = s /\ start t < end_ t /\ seg_chain (end_ t) tl n.
Proof. destruct tl; [congruence|reflexivity]. Qed.

Lemma seg_chain_head s tl n :
  seg_chain s tl n -> start <$> head tl = Some s.
Proof. destruct tl as [|t [|u tl]]; simpl; [tauto| |]; intros [-> _]; reflexivity. Qed.

Lemma seg_chain_covers_from s tl n :
  seg_chain s tl n <->
  ordered_by_start tl /\ contiguous tl
  /\ start <$> head tl = Some s /\ end_ <$> last tl = Some n.
Proof.
  revert s. induction tl as [|t tl IH]; intros s.
  - simpl. split; [tauto|]. intros (_ & _ & ? & _). discriminate.
  - destruct tl as [|u tl].
    + simpl. split.
      * intros [-> ->]. auto.
      * intros (_ & _ & Hs & He). split; congruence.
    + rewrite seg_chain_cons by discriminate. rewrite IH.
      change (last (t :: u :: tl)) with (last (u :: tl)).
      simpl. split.
      * intros (-> & Hlt & Ho & Hc & Hh & Hl).
        injection Hh as Hh. repeat split; auto; lia.
      * intros ((Hlt & Ho) & (Heq & Hc) & Hh & Hl).
        injection Hh as Hh. repeat split; auto; try lia. by rewrite Heq.
Qed.

Lemma seg_chain_covers tl n : seg_chain 0 tl n <-> covers n tl.
Proof. apply seg_chain_covers_from. Qed.

Lemma runs_chain (normFactor : float) runs : forall s cov,
  runs <> [] -> rle_of s cov runs ->
  seg_chain s (to_track normFactor <$> runs) (s + Z.of_nat (length cov)).
Proof.
  induction runs as [|[[s' e] v] runs IH]; intros s cov Hne Hrle; [congruence|].
  simpl in Hrle. destruct Hrle as (-> & Hlt & Hlen & Htake & Hrest).
  destruct runs as [|r runs].
  - simpl in *. apply (f_equal length) in Hrest.
    rewrite length_drop in Hrest. simpl in Hrest. split; [reflexivity|lia].
  - change (to_track normFactor <$> (s, e, v) :: r :: runs)
      with (to_track normFactor (s, e, v) :: (to_track normFactor <$> r :: runs)).
    rewrite seg_chain_cons by discriminate. simpl.
    split; [reflexivity|]. split; [assumption|].
    replace (s + Z.of_nat (length cov))
      with (e + Z.of_nat (length (drop (Z.to_nat (e - s)) cov)))
      by (rewrite length_drop; lia).
    apply IH; [discriminate|assumption].
Qed.

(** A merge joins two neighbours into one segment over both: the chain
    stays a chain. *)
Lemma merge_walk_chain thres rest : forall idx s n,
  seg_chain s (idx :: rest) n -> seg_chain s (merge_walk thres idx rest) n.
Proof.
  induction rest as [|nxt rest IH]; intros idx s n Hch; [exact Hch|].
  rewrite seg_chain_cons in Hch by discriminate.
  destruct Hch as (Hs & Hlt & Hrest).
  rewrite merge_walk_cons.
  destruct (snd (merge_cost idx nxt) <=? thres)%float.
  - apply IH. destruct rest as [|u rest].
    + simpl in *. tauto.
    + rewrite seg_chain_cons in Hrest by discriminate.
      rewrite seg_chain_cons by discriminate. simpl. intuition lia.
  - apply IH in Hrest. rewrite seg_chain_cons.
    + auto.
    + intros Heq. rewrite Heq in Hrest. exact Hrest.
Qed.

Lemma merge_pass_covers thres tl n :
  covers n tl -> covers n (merge_pass thres tl).
Proof.
  rewrite <- !seg_chain_covers. destruct tl as [|idx rest]; [tauto|].
  apply merge_walk_chain.
Qed.

Lemma reduce_loop_covers n resolution origs fuel : forall red tl tl',
  covers n tl -> reduce_loop fuel resolution origs red tl = Done tl' ->
  covers n tl'.
Proof.
  induction fuel as [|fuel IH]; intros red tl tl' Hc Hrun; simpl in Hrun.
  - destruct (reduce_guard resolution red tl); [discriminate|congruence].
  - destruct (reduce_guard resolution red tl); [|congruence].
    unfold reduce_step in Hrun.
    destruct (threshold resolution red tl) as [thres| |]; simpl in Hrun;
      try discriminate.
    eapply IH; [|exact Hrun]. by apply merge_pass_covers.
Qed.

Lemma reduce_covers n resolution fuel tl tl' :
  covers n tl -> reduce fuel resolution tl = Done tl' -> covers n tl'.
Proof.
  unfold reduce. intros Hc. destruct (resolution_enabled resolution).
  - by apply reduce_loop_covers.
  - congruence.
Qed.
End Covering.


(** ** The reduction loop *)

Section Reduction.
Import Compressor.

Lemma merge_walk_length thres rest : forall idx,
  (length (merge_walk thres idx rest) <= S (length rest))%nat.
Proof.
  induction rest as [|nxt rest IH]; intros idx; [simpl; lia|].
  rewrite merge_walk_cons. destruct (_ <=? thres)%float.
  - specialize (IH {| start := start idx; end_ := end_ nxt;
                      score := fst (merge_cost idx nxt) |}). cbn [length]. lia.
  - specialize (IH nxt). cbn [length]. lia.
Qed.

(** A pass never adds a segment. *)
Lemma merge_pass_length thres tl :
  (length (merge_pass thres tl) <= length tl)%nat.
Proof. destruct tl as [|idx rest]; [simpl; lia|]. apply merge_walk_length. Qed.

Lemma merge_walk_shrinks thres rest : forall idx,
  existsb (fun e => (e <=? thres)%float) (pair_errs (idx :: rest)) = true ->
  (length (merge_walk thres idx rest) < S (length rest))%nat.
Proof.
  induction rest as [|nxt rest IH]; intros idx Hex; [discriminate|].
  rewrite merge_walk_cons.
  change (pair_errs (idx :: nxt :: rest))
    with (snd (merge_cost idx nxt) :: pair_errs (nxt :: rest)) in Hex.
  cbn [existsb] in Hex. destruct (snd (merge_cost idx nxt) <=? thres)%float.
  - pose proof (merge_walk_length thres rest
                  {| start := start idx; end_ := end_ nxt;
                     score := fst (merge_cost idx nxt) |}). cbn [length]. lia.
  - cbn [orb] in Hex. specialize (IH nxt Hex). cbn [length]. lia.
Qed.

(** A pass removes a segment as soon as one neighbouring pair is within
    the threshold. *)
Lemma merge_pass_shrinks thres tl :
  existsb (fun e => (e <=? thres)%float) (pair_errs tl) = true ->
  (length (merge_pass thres tl) < length tl)%nat.
Proof. destruct tl as [|idx rest]; [discriminate|]. apply merge_walk_shrinks. Qed.

Lemma elem_of_insert_err x y l : x ∈ insert_err y l <-> x = y \/ x ∈ l.
Proof.
  induction l as [|z l IH]; simpl.
  - rewrite list_elem_of_singleton, elem_of_nil. tauto.
  - destruct (y <? z)%float.
    + rewrite elem_of_cons. reflexivity.
    + rewrite !elem_of_cons, IH. tauto.
Qed.

Lemma elem_of_sort_errs x l : x ∈ sort_errs l <-> x ∈ l.
Proof.
  induction l as [|y l IH]; simpl; [reflexivity|].
  rewrite elem_of_insert_err, elem_of_cons, IH. reflexivity.
Qed.

(** A threshold that is found is one of the errors. *)
Lemma threshold_is_an_error resolution red tl thres :
  threshold resolution red tl = Done thres -> thres ∈ pair_errs tl.
Proof.
  unfold threshold. destruct (break_index _ _ _) as [bpidx|]; [|discriminate].
  unfold vec_get. destruct (bpidx <? 0); [discriminate|].
  destruct (sort_errs (pair_errs tl) !! Z.to_nat bpidx) as [e|] eqn:He;
    [|discriminate].
  intros [= <-]. apply elem_of_sort_errs. eapply list_elem_of_lookup_2; eauto.
Qed.

(** One turn of the loop that finds its threshold among the errors, none
    of them a NaN, leaves strictly fewer segments. *)
Lemma reduce_step_shrinks resolution origs red tl tl' red' :
  Forall (fun e => PrimFloat.is_nan e = false) (pair_errs tl) ->
  reduce_step resolution origs red tl = Done (tl', red') ->
  (length tl' < length tl)%nat.
Proof.
  intros Hnan. unfold reduce_step.
  destruct (threshold resolution red tl) as [thres| |] eqn:Hth; simpl;
    try discriminate.
  intros [= <- _]. apply merge_pass_shrinks.
  apply threshold_is_an_error in Hth.
  apply existsb_exists. exists thres. split.
  - by apply list_elem_of_In.
  - rewrite leb_refl. eapply Forall_forall in Hnan; [|exact Hth].
    by rewrite Hnan.
Qed.

Lemma reduce_step_never_grows resolution origs red tl tl' red' :
  reduce_step resolution origs red tl = Done (tl', red') ->
  (length tl' <= length tl)%nat.
Proof.
  unfold reduce_step.
  destruct (threshold resolution red tl) as [thres| |]; simpl; try discriminate.
  intros [= <- _]. apply merge_pass_length.
Qed.

Lemma reduce_loop_never_grows resolution origs fuel : forall red tl tl',
  reduce_loop fuel resolution origs red tl = Done tl' ->
  (length tl' <= length tl)%nat.
Proof.
  induction fuel as [|fuel IH]; intros red tl tl' Hrun; simpl in Hrun.
  - destruct (reduce_guard resolution red tl); [discriminate|].
    injection Hrun as <-. lia.
  - destruct (reduce_guard resolution red tl); [|injection Hrun as <-; lia].
    destruct (reduce_step resolution origs red tl) as [[tl1 red1]| |] eqn:Hst;
      simpl in Hrun; try discriminate.
    apply reduce_step_never_grows in Hst. apply IH in Hrun. lia.
Qed.
End Reduction.


(** ** Interval sums *)

Section IntervalFacts.
Import Intervals.

Lemma zsum_app l1 l2 : zsum (l1 ++ l2) = zsum l1 + zsum l2.
Proof. induction l1 as [|x l1 IH]; simpl; [reflexivity | rewrite IH; lia]. Qed.

Lemma zsum_bounds l :
  Forall is_uint16 l -> 0 <= zsum l <= 65535 * Z.of_nat (length l).
Proof.
  induction 1 as [|x l Hx _ IH]; simpl; [lia|].
  unfold is_uint16 in Hx. lia.
Qed.

Lemma vec_get_nat {A} (v : list A) (k : nat) : vec_get v (Z.of_nat k) = v !! k.
Proof.
  unfold vec_get. destruct (Z.ltb_spec (Z.of_nat k) 0); [lia|].
  by rewrite Nat2Z.id.
Qed.

(** The summing loop over [n] bases from [k] on, within the vector: the
    64-bit sum does not wrap. *)
Lemma covsum_loop_spec n : forall (cov : list Z) (k : nat) (acc : Z),
  Forall is_uint16 cov ->
  (k + n <= length cov)%nat ->
  0 <= acc ->
  acc + 65535 * Z.of_nat n < 2 ^ 64 ->
  covsum_loop n cov (Z.of_nat k) acc
  = Done (acc + zsum (take n (drop k cov))).
Proof.
  induction n as [|n IH]; intros cov k acc Hcov Hlen Hacc Hbound; simpl.
  - f_equal. lia.
  - rewrite vec_get_nat.
    destruct (cov !! k) as [c|] eqn:Hk.
    2:{ apply lookup_ge_None in Hk. lia. }
    assert (Hc : is_uint16 c).
    { eapply Forall_forall in Hcov; [exact Hcov|]. eapply list_elem_of_lookup_2; eauto. }
    unfold is_uint16 in Hc.
    rewrite (drop_S _ _ _ Hk). simpl.
    replace (Z.of_nat k + 1) with (Z.of_nat (S k)) by lia.
    unfold u64. rewrite Z.mod_small by lia.
    rewrite IH; [f_equal; lia | assumption | lia | lia | lia].
Qed.
End IntervalFacts.

Section IntervalSums.
Import Intervals.

Lemma interval_sum_spec cov itv :
  Forall is_uint16 cov -> Z.of_nat (length cov) < 2 ^ 31 ->
  0 <= start itv -> end_ itv <= Z.of_nat (length cov) ->
  interval_sum cov itv = Done (zsum (slice cov (start itv) (end_ itv))).
Proof.
  intros Hcov Hlen Hs He. unfold interval_sum, slice.
  destruct (Z.le_gt_cases (end_ itv) (start itv)) as [Hes|Hes].
  { replace (Z.to_nat (end_ itv - start itv)) with 0%nat by lia.
    reflexivity. }
  rewrite <- (Z2Nat.id (start itv)) at 2 by lia.
  rewrite covsum_loop_spec; [by rewrite Z.add_0_l | assumption | lia | lia | lia].
Qed.

Lemma partitions_le s itvs n : partitions s itvs n -> s <= n.
Proof.
  revert s. induction itvs as [|itv itvs IH]; simpl; intros s.
  - lia.
  - intros (_ & Hle & Hrest). apply IH in Hrest. lia.
Qed.

Lemma interval_sums_partition cov : Forall is_uint16 cov ->
  Z.of_nat (length cov) < 2 ^ 31 ->
  forall itvs s, 0 <= s -> partitions s itvs (Z.of_nat (length cov)) ->
  exists ss, interval_sums cov itvs = Done ss
             /\ zsum ss = zsum (drop (Z.to_nat s) cov).
Proof.
  intros Hcov Hlen. induction itvs as [|itv itvs IH]; simpl; intros s Hs.
  - intros ->. exists []. split; [reflexivity|].
    rewrite Nat2Z.id, drop_all. reflexivity.
  - intros (Hst & Hle & Hrest).
    pose proof (partitions_le _ _ _ Hrest) as Hen.
    rewrite interval_sum_spec by (assumption || lia). simpl.
    destruct (IH (end_ itv) ltac:(lia) Hrest) as (ss & -> & Hss). simpl.
    eexists. split; [reflexivity|]. simpl. rewrite Hss, Hst. unfold slice.
    rewrite <- (take_drop (Z.to_nat (end_ itv - s)) (drop (Z.to_nat s) cov)) at 2.
    rewrite zsum_app, drop_drop. do 3 f_equal. lia.
Qed.
End IntervalSums.


(** ** Artificial windows *)

Section Windows.
Import Intervals.
Variables (chr : string) (target_len wSize wOffset : Z).
Hypothesis Hlen : 0 < target_len < 2 ^ 31.
Hypothesis Hsize : 0 < wSize <= 2 ^ 31.
Hypothesis Hoff : 0 < wOffset <= 2 ^ 31.

Lemma i32_small z : 0 <= z < 2 ^ 31 -> i32 z = z.
Proof. intros Hz. unfold i32. rewrite Z.mod_small; lia. Qed.

Lemma u32_small z : 0 <= z < 2 ^ 32 -> u32 z = z.
Proof. intros Hz. unfold u32. rewrite Z.mod_small; lia. Qed.

(** The window loop entered at [pos], with fuel for the bases left. *)
Lemma window_loop_spec (fuel : nat) : forall pos,
  0 <= pos -> target_len - pos <= Z.of_nat fuel ->
  exists l, window_loop fuel chr target_len wSize wOffset pos = Done l
    /\ Forall (window_ok target_len wSize) l
    /\ match l with
       | [] => target_len <= pos
       | itv :: _ => start itv = pos /\ pos < target_len
       end
    /\ increasing_starts l
    /\ (wOffset = wSize -> pos <= target_len -> partitions pos l target_len).
Proof.
  induction fuel as [|fuel IH]; intros pos Hpos Hfuel.
  - simpl. destruct (Z.ltb_spec pos target_len); [lia|].
    exists []. simpl. repeat split; auto; lia.
  - simpl. destruct (Z.ltb_spec pos target_len) as [Hlt|Hge].
    2:{ exists []. simpl. repeat split; auto; lia. }
    destruct (IH (u32 (pos + wOffset))) as (l & -> & Hok & Hhd & Hinc & Hpart).
    { rewrite u32_small; lia. }
    { rewrite u32_small; lia. }
    rewrite u32_small in Hhd, Hpart by lia.
    rewrite (u32_small (pos + wSize)) by lia.
    simpl. eexists. split; [reflexivity|].
    set (wl := if target_len <? pos + wSize then target_len else pos + wSize).
    assert (Hwl : wl = Z.min (pos + wSize) target_len).
    { unfold wl. destruct (Z.ltb_spec target_len (pos + wSize)); lia. }
    rewrite i32_small by lia. rewrite i32_small by lia.
    split; [|split; [|split]].
    + constructor; [|assumption]. unfold window_ok; simpl. lia.
    + simpl. lia.
    + simpl. destruct l as [|b l]; [exact I|]. split; [|assumption].
      simpl. lia.
    + intros Heq Hle. simpl. split; [reflexivity|]. split; [lia|].
      destruct (Z.le_gt_cases target_len (pos + wSize)) as [Hc|Hc].
      * destruct l as [|b l]; [simpl; lia|]. lia.
      * replace wl with (pos + wOffset) by lia. apply Hpart; [assumption|lia].
Qed.
End Windows.

Section WindowLimits.
Import Intervals.

(** With an offset of 0 the window loop does not advance: no fuel is
    enough. *)
Lemma zero_offset_never_stops (fuel : nat) chr target_len wSize pos :
  0 <= pos < 2 ^ 32 -> pos < target_len ->
  window_loop fuel chr target_len wSize 0 pos = Timeout.
Proof.
  intros Hpos Hlt. induction fuel as [|fuel IH]; simpl;
    destruct (Z.ltb_spec pos target_len); try lia; [reflexivity|].
  rewrite Z.add_0_r, (u32_small pos) by lia. by rewrite IH.
Qed.

(** A window size near [2^32] wraps [pos + wSize]: the window that starts
    at 1 ends at 0. *)
Lemma window_end_wraps :
  createIntervals 4
    {| window_size := 2 ^ 32 - 1; window_offset := 1; window_num := 0 |}
    "chr1" 2
  = Done [ {| start := 0; end_ := 2; id := "chr1:0-2" |};
           {| start := 1; end_ := 0; id := "chr1:1-0" |} ].
Proof. vm_compute. reflexivity. Qed.
End WindowLimits.


(** ** Coverage counters *)

Section CoverageFacts.
Import Bam Coverage.

Lemma grown_refl m cov : Forall (within m) cov -> Forall2 (grown_within m) cov cov.
Proof.
  induction 1 as [|c cov Hc _ IH]; constructor; [|assumption].
  unfold within, grown_within in *. lia.
Qed.

Lemma grown_trans m cov1 cov2 cov3 :
  Forall2 (grown_within m) cov1 cov2 -> Forall2 (grown_within m) cov2 cov3 ->
  Forall2 (grown_within m) cov1 cov3.
Proof.
  intros H12. revert cov3.
  induction H12 as [|a b l1 l2 Hab _ IH]; intros cov3 H23; inversion H23; subst.
  - constructor.
  - constructor; [|by apply IH]. unfold grown_within in *. lia.
Qed.

Lemma grown_within_bound m cov cov' :
  Forall (within m) cov -> Forall2 (grown_within m) cov cov' ->
  Forall (within m) cov'.
Proof.
  intros Hc H2. revert Hc.
  induction H2 as [|a b l1 l2 Hab _ IH]; intros Hc; inversion Hc; subst;
    constructor; [|by apply IH].
  unfold within, grown_within in *. lia.
Qed.

(** One guarded increment: the counter at [i] goes up by one when it is
    below [bound], and is left alone otherwise. *)
Lemma guarded_increment m bound cov i c :
  bound <= m -> m < 2 ^ 16 ->
  Forall (within m) cov -> cov !! i = Some c ->
  Forall2 (grown_within m) cov
    (if c <? bound then <[ i := u16 (c + 1) ]> cov else cov).
Proof.
  intros Hb Hm Hcov Hi.
  assert (Hc : within m c).
  { eapply Forall_forall in Hcov; [exact Hcov|].
    eapply list_elem_of_lookup_2; eauto. }
  destruct (Z.ltb_spec c bound) as [Hlt|Hge]; [|by apply grown_refl].
  rewrite <- (list_insert_id cov i c Hi) at 1.
  apply Forall2_insert; [by apply grown_refl|].
  unfold within, grown_within, u16 in *. rewrite Z.mod_small; lia.
Qed.

Lemma count_bases_grows k : forall cov rp cov' rp',
  Forall (within maxCoverage) cov ->
  count_bases k cov rp = Done (cov', rp') ->
  Forall2 (grown_within maxCoverage) cov cov'.
Proof.
  induction k as [|k IH]; simpl; intros cov rp cov' rp' Hcov Hrun.
  - injection Hrun as <- <-. by apply grown_refl.
  - unfold vec_get in Hrun. destruct (rp <? 0); [discriminate|].
    destruct (cov !! Z.to_nat rp) as [c|] eqn:Hc; [|discriminate].
    pose proof (guarded_increment maxCoverage maxCoverage cov _ c
                  ltac:(lia) ltac:(unfold maxCoverage; lia) Hcov Hc) as Hstep.
    eapply grown_trans; [exact Hstep|].
    eapply IH; [|exact Hrun]. by eapply grown_within_bound.
Qed.

Lemma parse_cigar_grows ops : forall cov rp cov',
  Forall (within maxCoverage) cov ->
  parse_cigar ops cov rp = Done cov' ->
  Forall2 (grown_within maxCoverage) cov cov'.
Proof.
  induction ops as [|[op oplen] ops IH]; simpl; intros cov rp cov' Hcov Hrun.
  - injection Hrun as <-. by apply grown_refl.
  - destruct op; try (by eapply IH; eauto);
      (destruct (count_bases (Z.to_nat oplen) cov rp) as [[cov1 rp1]| |] eqn:Hb;
       simpl in Hrun; try discriminate;
       pose proof (count_bases_grows _ _ _ _ _ Hcov Hb) as H1;
       eapply grown_trans; [exact H1|];
       eapply IH; [|exact Hrun]; by eapply grown_within_bound).
Qed.

Lemma add_record_grows cov r cov' :
  Forall (within maxCoverage) cov -> add_record cov r = Done cov' ->
  Forall2 (grown_within maxCoverage) cov cov'.
Proof. apply parse_cigar_grows. Qed.

Lemma count_midpoint_grows `{PairHash} target_len cov r cov' :
  Forall (within (maxCoverage - 1)) cov ->
  count_midpoint target_len cov r = Done cov' ->
  Forall2 (grown_within (maxCoverage - 1)) cov cov'.
Proof.
  unfold count_midpoint. intros Hcov Hrun.
  destruct (_ <? i32 target_len); [|injection Hrun as <-; by apply grown_refl].
  unfold vec_get in Hrun. destruct (_ <? 0); [discriminate|].
  destruct (cov !! _) as [c|] eqn:Hc; [|discriminate].
  pose proof (guarded_increment (maxCoverage - 1) (maxCoverage - 1) cov _ c
                ltac:(lia) ltac:(unfold maxCoverage; lia) Hcov Hc) as Hstep.
  destruct (c <? maxCoverage - 1); injection Hrun as <-; exact Hstep.
Qed.
(** The walk over a match of [k] bases from [rp] on stays clear of a fault
    exactly when the match ends within the vector. *)
Lemma count_bases_in_range k : forall cov rp,
  0 <= rp -> rp + Z.of_nat k <= Z.of_nat (length cov) ->
  Z.of_nat (length cov) < 2 ^ 32 ->
  exists cov', count_bases k cov rp = Done (cov', rp + Z.of_nat k)
               /\ length cov' = length cov.
Proof.
  induction k as [|k IH]; intros cov rp Hrp Hend Hlen; simpl.
  - exists cov. split; [do 2 f_equal; lia|reflexivity].
  - unfold vec_get. destruct (Z.ltb_spec rp 0); [lia|].
    destruct (lookup_lt_is_Some_2 cov (Z.to_nat rp) ltac:(lia)) as [c ->].
    rewrite (u32_small (rp + 1)) by lia.
    set (cov1 := if c <? maxCoverage then _ else cov).
    assert (Hl : length cov1 = length cov).
    { unfold cov1. destruct (c <? maxCoverage); [apply length_insert|reflexivity]. }
    destruct (IH cov1 (rp + 1)) as (cov' & -> & Hl'); [lia|lia|lia|].
    exists cov'. split; [do 2 f_equal; lia|congruence].
Qed.

Lemma count_bases_overrun k : forall cov rp,
  0 <= rp <= Z.of_nat (length cov) ->
  Z.of_nat (length cov) < rp + Z.of_nat k ->
  rp + Z.of_nat k < 2 ^ 32 ->
  count_bases k cov rp = Fault.
Proof.
  induction k as [|k IH]; intros cov rp Hrp Hend Hsmall; simpl; [lia|].
  unfold vec_get. destruct (Z.ltb_spec rp 0); [lia|].
  destruct (cov !! Z.to_nat rp) as [c|] eqn:Hc; [|reflexivity].
  apply lookup_lt_Some in Hc.
  rewrite (u32_small (rp + 1)) by lia.
  apply IH; destruct (c <? maxCoverage); rewrite ?length_insert; lia.
Qed.

Lemma coverage_pass_within `{PairHash} minQual vp st rs : forall cov cov',
  Forall (within maxCoverage) cov ->
  coverage_pass minQual vp st cov rs = Done cov' ->
  Forall (within maxCoverage) cov'.
Proof.
  revert st. induction rs as [|r rs IH]; intros st cov cov' Hcov Hrun;
    simpl in Hrun.
  - by injection Hrun as <-.
  - destruct (Resolver.flag_filtered r); [by eapply IH|].
    destruct (qual r <? minQual); [by eapply IH|].
    destruct (bool_decide _); [|by eapply IH].
    destruct (add_record cov r) as [cov1| |] eqn:Hadd; simpl in Hrun;
      try discriminate.
    eapply IH; [|exact Hrun].
    eapply grown_within_bound; [exact Hcov|]. by eapply add_record_grows.
Qed.

Lemma count_reads_within `{PairHash} minQual target_len rs :
  forall st cov cov',
  Forall (within (maxCoverage - 1)) cov ->
  count_reads minQual target_len st cov rs = Done cov' ->
  Forall (within (maxCoverage - 1)) cov'.
Proof.
  induction rs as [|r rs IH]; intros st cov cov' Hcov Hrun; simpl in Hrun.
  - by injection Hrun as <-.
  - destruct (Resolver.resolve minQual st r) as [st' [f|]]; [|by eapply IH].
    destruct (count_midpoint target_len cov (Resolver.rec f))
      as [cov1| |] eqn:Hmid; simpl in Hrun; try discriminate.
    eapply IH; [|exact Hrun].
    eapply grown_within_bound; [exact Hcov|]. by eapply count_midpoint_grows.
Qed.

(** The mid-point count tests the position before it touches the
    vector: it writes below [target_len], or not at all. *)
Lemma count_midpoint_in_range `{PairHash} target_len cov r :
  Z.of_nat (length cov) = target_len -> target_len < 2 ^ 31 ->
  0 <= i32 (pos r + halfAlignmentLength r) ->
  exists cov', count_midpoint target_len cov r = Done cov'
               /\ length cov' = length cov.
Proof.
  intros Hlen Hsmall Hmid. unfold count_midpoint.
  rewrite (i32_small target_len) by lia.
  destruct (Z.ltb_spec (i32 (pos r + halfAlignmentLength r)) target_len)
    as [Hlt|Hge]; [|by eexists].
  unfold vec_get. destruct (Z.ltb_spec (i32 (pos r + halfAlignmentLength r)) 0);
    [lia|].
  destruct (lookup_lt_is_Some_2 cov
              (Z.to_nat (i32 (pos r + halfAlignmentLength r))) ltac:(lia))
    as [c ->].
  destruct (c <? maxCoverage - 1); eexists; split; try reflexivity.
  apply length_insert.
Qed.
End CoverageFacts.


(** ** The pairing of mates *)

Section ResolverFacts.
Import Bam Resolver.
Context `{PairHash}.
Variable minQual : Z.

Lemma resolve_state_app st rs1 rs2 :
  resolve_state minQual st (rs1 ++ rs2)
  = resolve_state minQual (resolve_state minQual st rs1) rs2.
Proof. revert st. induction rs1 as [|r rs1 IH]; intros st; simpl; auto. Qed.

Lemma resolve_trace_lookup rs : forall st (k : nat) r,
  rs !! k = Some r ->
  resolve_trace minQual st rs !! k
  = Some (snd (resolve minQual (resolve_state minQual st (take k rs)) r)).
Proof.
  induction rs as [|r0 rs IH]; intros st k r Hk; [discriminate|].
  destruct k as [|k]; simpl in *.
  - by injection Hk as ->.
  - by apply IH.
Qed.

Lemma resolve_state_step st rs (k : nat) r :
  rs !! k = Some r ->
  resolve_state minQual st (take (S k) rs)
  = fst (resolve minQual (resolve_state minQual st (take k rs)) r).
Proof.
  intros Hk. rewrite (take_S_r _ _ _ Hk), resolve_state_app. reflexivity.
Qed.

(** The cases of one turn of the loop. *)
Lemma resolve_cases st r :
  (passes minQual r = false /\ resolve minQual st r = (st, None))
  \/ (passes minQual r = true /\ is_first (cleanup st r) r = true
      /\ resolve minQual st r
         = ({| lastAlignedPos := lastAlignedPos (cleanup st r);
               lastAlignedPosReads :=
                 {[ hash_string (qname r) ]}
                 ∪ lastAlignedPosReads (cleanup st r);
               qualities :=
                 <[ hash_pair r := qual r ]> (qualities (cleanup st r)) |},
            None))
  \/ (passes minQual r = true /\ is_first (cleanup st r) r = false
      /\ qualities st !! hash_pair_mate r = None
      /\ resolve minQual st r = (cleanup st r, None))
  \/ (exists q, passes minQual r = true /\ is_first (cleanup st r) r = false
      /\ qualities st !! hash_pair_mate r = Some q
      /\ resolve minQual st r
         = ({| lastAlignedPos := lastAlignedPos (cleanup st r);
               lastAlignedPosReads := lastAlignedPosReads (cleanup st r);
               qualities :=
                 <[ hash_pair_mate r := 0 ]> (qualities (cleanup st r)) |},
            if Z.min (u8 q) (u8 (qual r)) <? minQual then None
            else Some {| hv := hash_pair_mate r;
                         pairQuality := Z.min (u8 q) (u8 (qual r));
                         rec := r |})).
Proof.
  assert (Hq : qualities (cleanup st r) = qualities st).
  { unfold cleanup. by destruct (_ <? _). }
  unfold resolve, passes.
  destruct (flag_filtered r); [left; auto|].
  destruct (qual r <? minQual); [left; auto|]. simpl.
  destruct (is_first (cleanup st r) r); [right; left; auto|].
  rewrite Hq. destruct (qualities st !! hash_pair_mate r) as [q|] eqn:Hl.
  - right; right; right. exists q. repeat split; auto.
    by destruct (_ <? minQual).
  - right; right; left. auto.
Qed.
Lemma resolve_first st r :
  passes minQual r = true -> is_first (cleanup st r) r = true ->
  resolve minQual st r
  = ({| lastAlignedPos := lastAlignedPos (cleanup st r);
        lastAlignedPosReads :=
          {[ hash_string (qname r) ]} ∪ lastAlignedPosReads (cleanup st r);
        qualities := <[ hash_pair r := qual r ]> (qualities (cleanup st r)) |},
     None).
Proof.
  intros Hp Hf.
  destruct (resolve_cases st r)
    as [[Hpass Hres]|[(Hpass & Hfirst & Hres)|[(Hpass & Hsec & Hnone & Hres)
       |(q & Hpass & Hsec & Hsome & Hres)]]]; congruence.
Qed.

Lemma resolve_second st r q :
  passes minQual r = true -> is_first (cleanup st r) r = false ->
  qualities st !! hash_pair_mate r = Some q ->
  resolve minQual st r
  = ({| lastAlignedPos := lastAlignedPos (cleanup st r);
        lastAlignedPosReads := lastAlignedPosReads (cleanup st r);
        qualities := <[ hash_pair_mate r := 0 ]> (qualities (cleanup st r)) |},
     if Z.min (u8 q) (u8 (qual r)) <? minQual then None
     else Some {| hv := hash_pair_mate r;
                  pairQuality := Z.min (u8 q) (u8 (qual r)); rec := r |}).
Proof.
  intros Hp Hf Hq.
  destruct (resolve_cases st r)
    as [[Hpass Hres]|[(Hpass & Hfirst & Hres)|[(Hpass & Hsec & Hnone & Hres)
       |(q' & Hpass & Hsec & Hsome & Hres)]]]; try congruence.
  rewrite Hres. assert (q' = q) as -> by congruence. reflexivity.
Qed.

End ResolverFacts.

Section Pairing.
Import Bam Resolver.
Context `{PairHash}.
Variables (minQual : Z) (rs : list bam1_t).
Hypothesis Hps : paired_stream rs.
Hypothesis Hcf : collision_free rs.

Lemma inv_init : inv minQual rs 0 init.
Proof.
  split; simpl.
  - lia.
  - intros; lia.
  - intros j r _ Hj. apply (ps_field _ Hps).
    eapply list_elem_of_lookup_2; eauto.
  - intros h Hh. by apply not_elem_of_empty in Hh.
  - intros; lia.
  - intros hv q Hl. rewrite lookup_empty in Hl. discriminate.
  - intros; lia.
Qed.

Lemma cleanup_pos k st r :
  inv minQual rs k st -> rs !! k = Some r -> lastAlignedPos (cleanup st r) = pos r.
Proof.
  intros Hinv Hk. pose proof (inv_next _ _ _ _ Hinv k r ltac:(lia) Hk).
  unfold cleanup. destruct (Z.ltb_spec (lastAlignedPos st) (pos r)); simpl; lia.
Qed.

Lemma cleanup_reads st r h :
  h ∈ lastAlignedPosReads (cleanup st r) ->
  h ∈ lastAlignedPosReads st /\ cleanup st r = st.
Proof.
  unfold cleanup. destruct (_ <? _); simpl; [set_solver|auto].
Qed.

Lemma cleanup_same k st r :
  inv minQual rs k st -> rs !! k = Some r -> lastAlignedPos st = pos r ->
  cleanup st r = st.
Proof.
  intros _ _ Heq. unfold cleanup.
  destruct (Z.ltb_spec (lastAlignedPos st) (pos r)); [lia|reflexivity].
Qed.

Lemma cleanup_qualities st r : qualities (cleanup st r) = qualities st.
Proof. unfold cleanup. by destruct (_ <? _). Qed.

(** The part of the invariant that only depends on the read store and on
    the last position, after the clean-up and a possible insertion. *)
Lemma inv_store_step k st r (reads' : gset Z) :
  inv minQual rs k st -> rs !! k = Some r -> passes minQual r = true ->
  (forall h, h ∈ reads' ->
     h = hash_string (qname r) \/ h ∈ lastAlignedPosReads (cleanup st r)) ->
  (forall h, h ∈ lastAlignedPosReads (cleanup st r) -> h ∈ reads') ->
  (pos r <= mpos r -> hash_string (qname r) ∈ reads') ->
  (forall (i : nat) r0, (i < S k)%nat -> rs !! i = Some r0 ->
     passes minQual r0 = true -> pos r0 <= pos r)
  /\ (forall (j : nat) r0, (S k <= j)%nat -> rs !! j = Some r0 ->
        pos r <= pos r0)
  /\ (forall h, h ∈ reads' ->
        exists (i : nat) r0, (i < S k)%nat /\ rs !! i = Some r0
          /\ passes minQual r0 = true /\ hash_string (qname r0) = h)
  /\ (forall (i : nat) r0, (i < S k)%nat -> rs !! i = Some r0 ->
        passes minQual r0 = true -> pos r0 <= mpos r0 -> pos r0 = pos r ->
        hash_string (qname r0) ∈ reads').
Proof.
  intros Hinv Hk Hpass Hsub Hsup Hown.
  pose proof (inv_next _ _ _ _ Hinv k r ltac:(lia) Hk) as Hlast.
  split; [|split; [|split]].
  - intros i r0 Hi Hr0 Hp0. destruct (decide (i = k)) as [->|Hne].
    + assert (r0 = r) as -> by congruence. lia.
    + pose proof (inv_seen _ _ _ _ Hinv i r0 ltac:(lia) Hr0 Hp0). lia.
  - intros j r0 Hj Hr0. eapply (ps_sorted _ Hps k j); eauto; lia.
  - intros h Hh. destruct (Hsub h Hh) as [->|Hin].
    + exists k, r. auto.
    + apply cleanup_reads in Hin as [Hin _].
      destruct (inv_reads _ _ _ _ Hinv h Hin) as (i & r0 & Hi & Hr0 & Hp0 & Hh0).
      exists i, r0. split; [lia|auto].
  - intros i r0 Hi Hr0 Hp0 Hle Heq. destruct (decide (i = k)) as [->|Hne].
    + assert (r0 = r) as -> by congruence. auto.
    + pose proof (inv_seen _ _ _ _ Hinv i r0 ltac:(lia) Hr0 Hp0) as Hseen.
      assert (Hsame : lastAlignedPos st = pos r) by lia.
      apply Hsup. rewrite (cleanup_same k) by assumption.
      apply (inv_stored _ _ _ _ Hinv i r0); auto; lia.
Qed.

(** A second read whose name is in the read store has an earlier record
    of its name. *)
Lemma second_has_earlier k st r :
  inv minQual rs k st -> rs !! k = Some r -> is_first (cleanup st r) r = false ->
  pos r <= mpos r ->
  exists (i : nat) r0, (i < k)%nat /\ rs !! i = Some r0
    /\ passes minQual r0 = true /\ qname r0 = qname r.
Proof.
  intros Hinv Hk Hsec Hle. unfold is_first in Hsec.
  apply orb_false_elim in Hsec as [Hlt Hsec].
  apply Z.ltb_ge in Hlt.
  apply andb_false_elim in Hsec as [Hne|Hin].
  { apply Z.eqb_neq in Hne. lia. }
  apply bool_decide_eq_false in Hin. apply dec_stable in Hin.
  apply cleanup_reads in Hin as [Hin _].
  destruct (inv_reads _ _ _ _ Hinv _ Hin) as (i & r0 & Hi & Hr0 & Hp0 & Hh0).
  exists i, r0. repeat split; auto.
  apply (cf_name _ Hcf); auto; eapply list_elem_of_lookup_2; eauto.
Qed.

Lemma second_stored st r :
  is_first (cleanup st r) r = false -> pos r <= mpos r ->
  hash_string (qname r) ∈ lastAlignedPosReads (cleanup st r).
Proof.
  intros Hsec Hle. unfold is_first in Hsec.
  apply orb_false_elim in Hsec as [Hlt Hsec].
  apply Z.ltb_ge in Hlt.
  apply andb_false_elim in Hsec as [Hne|Hin].
  { apply Z.eqb_neq in Hne. lia. }
  apply bool_decide_eq_false in Hin. by apply dec_stable in Hin.
Qed.

(** One record keeps the invariant. *)
Lemma inv_step k st r :
  inv minQual rs k st -> rs !! k = Some r -> inv minQual rs (S k) (fst (resolve minQual st r)).
Proof.
  intros Hinv Hk.
  assert (Hrin : r ∈ rs) by (eapply list_elem_of_lookup_2; eauto).
  destruct (resolve_cases minQual st r)
    as [[Hpass ->]|[(Hpass & Hfirst & ->)|[(Hpass & Hsec & Hnone & ->)
       |(q & Hpass & Hsec & Hsome & ->)]]]; simpl.
  - (* the record is filtered out *)
    split.
    + apply (inv_pos _ _ _ _ Hinv).
    + intros i r0 Hi Hr0 Hp0. destruct (decide (i = k)) as [->|Hne].
      * assert (r0 = r) as -> by congruence. congruence.
      * apply (inv_seen _ _ _ _ Hinv i); auto; lia.
    + intros j r0 Hj. apply (inv_next _ _ _ _ Hinv j). lia.
    + intros h Hh. destruct (inv_reads _ _ _ _ Hinv h Hh) as (i & r0 & ? & ?).
      exists i, r0. split; [lia|tauto].
    + intros i r0 Hi Hr0 Hp0. destruct (decide (i = k)) as [->|Hne].
      * assert (r0 = r) as -> by congruence. congruence.
      * apply (inv_stored _ _ _ _ Hinv i); auto; lia.
    + intros hv q Hl. destruct (inv_keys _ _ _ _ Hinv hv q Hl) as (i & r0 & ? & ?).
      exists i, r0. split; [lia|tauto].
    + intros i r0 Hi Hr0 Hp0 Hle Hothers. destruct (decide (i = k)) as [->|Hne].
      * assert (r0 = r) as -> by congruence. congruence.
      * apply (inv_pending _ _ _ _ Hinv i); auto; [lia|].
        intros j r' Hj. apply Hothers. lia.
  - (* first read *)
    destruct (inv_store_step k st r
                ({[ hash_string (qname r) ]} ∪ lastAlignedPosReads (cleanup st r))
                Hinv Hk Hpass) as (Hseen & Hnext & Hreads & Hstored);
      [set_solver|set_solver|set_solver|].
    rewrite (cleanup_pos k) by assumption. rewrite cleanup_qualities.
    split; simpl; auto.
    + apply (ps_field _ Hps r Hrin).
    + intros hv q. rewrite lookup_insert. case_decide as Hhv.
      * intros _. exists k, r. auto.
      * intros Hl. destruct (inv_keys _ _ _ _ Hinv hv q Hl) as (i & r0 & ? & ?).
        exists i, r0. split; [lia|tauto].
    + intros i r0 Hi Hr0 Hp0 Hle Hothers. destruct (decide (i = k)) as [->|Hne].
      * assert (r0 = r) as -> by congruence. apply lookup_insert_eq.
      * rewrite lookup_insert_ne.
        -- apply (inv_pending _ _ _ _ Hinv i); auto; [lia|].
           intros j r' Hj. apply Hothers. lia.
        -- intros Heq. apply (Hothers k r); auto.
           apply (cf_pair _ Hcf); auto. eapply list_elem_of_lookup_2; eauto.
  - (* second read, mate discarded *)
    destruct (inv_store_step k st r (lastAlignedPosReads (cleanup st r))
                Hinv Hk Hpass) as (Hseen & Hnext & Hreads & Hstored);
      [auto|auto|by apply second_stored|].
    rewrite <- (cleanup_pos k st r) in Hseen, Hnext, Hstored by assumption.
    split; auto.
    + rewrite (cleanup_pos k) by assumption. apply (ps_field _ Hps r Hrin).
    + rewrite cleanup_qualities. intros hv q Hl.
      destruct (inv_keys _ _ _ _ Hinv hv q Hl) as (i & r0 & ? & ?).
      exists i, r0. split; [lia|tauto].
    + rewrite cleanup_qualities.
      intros i r0 Hi Hr0 Hp0 Hle Hothers. destruct (decide (i = k)) as [->|Hne].
      * assert (r0 = r) as -> by congruence.
        destruct (second_has_earlier k st r Hinv Hk Hsec Hle)
          as (i' & r1 & Hi1 & Hr1 & Hp1 & Hname).
        exfalso. apply (Hothers i' r1); auto; lia.
      * apply (inv_pending _ _ _ _ Hinv i); auto; [lia|].
        intros j r' Hj. apply Hothers. lia.
  - (* second read, mate found *)
    destruct (inv_store_step k st r (lastAlignedPosReads (cleanup st r))
                Hinv Hk Hpass) as (Hseen & Hnext & Hreads & Hstored);
      [auto|auto|by apply second_stored|].
    rewrite <- (cleanup_pos k st r) in Hseen, Hnext, Hstored by assumption.
    split; simpl; auto.
    + rewrite (cleanup_pos k) by assumption. apply (ps_field _ Hps r Hrin).
    + rewrite cleanup_qualities. intros hv q'. rewrite lookup_insert.
      case_decide as Hhv.
      * intros _. subst hv.
        destruct (inv_keys _ _ _ _ Hinv _ q Hsome) as (i & r0 & ? & ?).
        exists i, r0. split; [lia|tauto].
      * intros Hl. destruct (inv_keys _ _ _ _ Hinv hv q' Hl) as (i & r0 & ? & ?).
        exists i, r0. split; [lia|tauto].
    + rewrite cleanup_qualities.
      intros i r0 Hi Hr0 Hp0 Hle Hothers. destruct (decide (i = k)) as [->|Hne].
      * assert (r0 = r) as -> by congruence.
        destruct (second_has_earlier k st r Hinv Hk Hsec Hle)
          as (i' & r1 & Hi1 & Hr1 & Hp1 & Hname).
        exfalso. apply (Hothers i' r1); auto; lia.
      * rewrite lookup_insert_ne.
        -- apply (inv_pending _ _ _ _ Hinv i); auto; [lia|].
           intros j r' Hj. apply Hothers. lia.
        -- intros Heq. apply (Hothers k r); auto. symmetry.
           assert (Hm : mate_of r0 r).
           { apply (cf_mate _ Hcf); auto. eapply list_elem_of_lookup_2; eauto. }
           apply Hm.
Qed.

Lemma inv_take k :
  (k <= length rs)%nat -> inv minQual rs k (resolve_state minQual init (take k rs)).
Proof.
  induction k as [|k IH]; intros Hk.
  - rewrite take_0. apply inv_init.
  - destruct (lookup_lt_is_Some_2 rs k ltac:(lia)) as [r Hr].
    rewrite (resolve_state_step minQual init rs k r Hr).
    apply inv_step; [apply IH; lia|assumption].
Qed.
End Pairing.

Section Emission.
Import Bam Resolver.
Context `{PairHash}.
Variables (minQual : Z) (rs : list bam1_t).
Hypothesis Hps : paired_stream rs.
Hypothesis Hcf : collision_free rs.

Lemma passes_qual r : passes minQual r = true -> minQual <= qual r.
Proof.
  unfold passes. intros Hp. apply andb_prop in Hp as [_ Hq].
  apply negb_true_iff, Z.ltb_ge in Hq. exact Hq.
Qed.

Lemma u8_qual r : r ∈ rs -> u8 (qual r) = qual r.
Proof.
  intros Hr. destruct (ps_field _ Hps r Hr) as [_ Hq].
  unfold u8. apply Z.mod_small. exact Hq.
Qed.

(** The first mate of a pair is alone of its name before the second. *)
Lemma mate_alone (i k : nat) r1 r :
  (i < k)%nat -> rs !! i = Some r1 -> rs !! k = Some r ->
  qname r1 = qname r ->
  forall (j : nat) r', (j < k)%nat -> j <> i -> rs !! j = Some r' ->
    passes minQual r' = true -> qname r' <> qname r1.
Proof.
  intros Hik Hi Hk Hname j r' Hjk Hji Hj _ Heq.
  destruct (Nat.lt_total j i) as [Hlt|[->|Hgt]]; [|congruence|].
  - apply (ps_two _ Hps j i k r' r1 r); auto.
  - apply (ps_two _ Hps i j k r1 r' r); auto. split; congruence.
Qed.

(** When the second mate comes, the quality of the first is still stored
    under the key the second looks up. *)
Lemma pending_mate k st (i : nat) r1 r :
  inv minQual rs k st ->
  (i < k)%nat -> rs !! i = Some r1 -> rs !! k = Some r ->
  passes minQual r1 = true -> mate_of r1 r ->
  qualities st !! hash_pair_mate r = Some (qual r1).
Proof.
  intros Hinv Hik Hi Hk Hp1 Hm.
  assert (Hr1 : r1 ∈ rs) by (eapply list_elem_of_lookup_2; eauto).
  assert (Hr : r ∈ rs) by (eapply list_elem_of_lookup_2; eauto).
  rewrite <- (proj2 (cf_mate _ Hcf r1 r Hr1 Hr) Hm).
  pose proof (ps_sorted _ Hps i k r1 r Hik Hi Hk) as Hsorted.
  destruct Hm as (Hname & _ & _ & _ & Hmpos).
  apply (inv_pending _ _ _ _ Hinv i); auto; [lia|].
  by apply (mate_alone i k r1 r).
Qed.

(** The record that comes after its mate is taken as the second read. *)
Lemma second_after_mate k st (i : nat) r1 r :
  inv minQual rs k st ->
  (i < k)%nat -> rs !! i = Some r1 -> rs !! k = Some r ->
  passes minQual r1 = true -> mate_of r1 r ->
  is_first (cleanup st r) r = false.
Proof.
  intros Hinv Hik Hi Hk Hp1 Hm.
  assert (Hr1 : r1 ∈ rs) by (eapply list_elem_of_lookup_2; eauto).
  pose proof (ps_sorted _ Hps i k r1 r Hik Hi Hk) as Hsorted.
  destruct Hm as (Hname & _ & Hpos & _ & Hmpos).
  unfold is_first. apply orb_false_intro; [apply Z.ltb_ge; lia|].
  destruct (Z.eqb_spec (pos r) (mpos r)) as [Heq|]; [|reflexivity].
  simpl. apply bool_decide_eq_false. intros Hnot. apply Hnot.
  pose proof (inv_seen _ _ _ _ Hinv i r1 Hik Hi Hp1) as Hseen.
  pose proof (inv_next _ _ _ _ Hinv k r ltac:(lia) Hk) as Hnext.
  rewrite (cleanup_same minQual rs k) by (assumption || lia).
  rewrite <- Hname. apply (inv_stored _ _ _ _ Hinv i); auto; lia.
Qed.

(** What the record at index [k] gives. *)
Lemma emits_iff k st r f :
  inv minQual rs k st -> rs !! k = Some r ->
  snd (resolve minQual st r) = Some f
  <-> exists (i : nat) r1,
        (i < k)%nat /\ rs !! i = Some r1 /\ mate_of r1 r
        /\ passes minQual r1 = true /\ passes minQual r = true
        /\ minQual <= Z.min (qual r1) (qual r)
        /\ f = {| hv := hash_pair_mate r;
                  pairQuality := Z.min (qual r1) (qual r); rec := r |}.
Proof.
  intros Hinv Hk.
  assert (Hr : r ∈ rs) by (eapply list_elem_of_lookup_2; eauto).
  split.
  - intros Hemit.
    destruct (resolve_cases minQual st r)
      as [[Hpass Hres]|[(Hpass & Hfirst & Hres)|[(Hpass & Hsec & Hnone & Hres)
         |(q & Hpass & Hsec & Hsome & Hres)]]];
      rewrite Hres in Hemit; simpl in Hemit; try discriminate.
    destruct (inv_keys _ _ _ _ Hinv _ q Hsome) as (i & r1 & Hik & Hi & Hp1 & Hkey).
    assert (Hr1 : r1 ∈ rs) by (eapply list_elem_of_lookup_2; eauto).
    assert (Hm : mate_of r1 r) by (by apply (cf_mate _ Hcf)).
    pose proof (pending_mate k st i r1 r Hinv Hik Hi Hk Hp1 Hm) as Hq.
    assert (q = qual r1) as -> by congruence.
    rewrite !u8_qual in Hemit by assumption.
    destruct (Z.ltb_spec (Z.min (qual r1) (qual r)) minQual) as [|Hge];
      [discriminate|].
    injection Hemit as <-. exists i, r1. repeat split; auto; apply Hm.
  - intros (i & r1 & Hik & Hi & Hm & Hp1 & Hp & Hge & ->).
    assert (Hr1 : r1 ∈ rs) by (eapply list_elem_of_lookup_2; eauto).
    pose proof (pending_mate k st i r1 r Hinv Hik Hi Hk Hp1 Hm) as Hq.
    pose proof (second_after_mate k st i r1 r Hinv Hik Hi Hk Hp1 Hm) as Hsec'.
    destruct (resolve_cases minQual st r)
      as [[Hpass Hres]|[(Hpass & Hfirst & Hres)|[(Hpass & Hsec & Hnone & Hres)
         |(q & Hpass & Hsec & Hsome & Hres)]]]; try congruence.
    rewrite Hres. simpl. assert (q = qual r1) as -> by congruence.
    rewrite !u8_qual by assumption.
    destruct (Z.ltb_spec (Z.min (qual r1) (qual r)) minQual); [lia|reflexivity].
Qed.

Lemma trace_emits_iff (k : nat) r f :
  rs !! k = Some r ->
  resolve_trace minQual init rs !! k = Some (Some f)
  <-> exists (i : nat) r1,
        (i < k)%nat /\ rs !! i = Some r1 /\ mate_of r1 r
        /\ passes minQual r1 = true /\ passes minQual r = true
        /\ minQual <= Z.min (qual r1) (qual r)
        /\ f = {| hv := hash_pair_mate r;
                  pairQuality := Z.min (qual r1) (qual r); rec := r |}.
Proof.
  intros Hk. rewrite (resolve_trace_lookup minQual rs init k r Hk).
  rewrite <- (emits_iff k (resolve_state minQual init (take k rs)) r f);
    [|apply inv_take; auto|assumption].
  - split; congruence.
  - apply lookup_lt_Some in Hk. lia.
Qed.
End Emission.

Section Scenario.
Import Bam Resolver.
Context `{PairHash}.

(** Two mates of one name at one position, qualities 30 and 25. *)
Lemma scenario_pair name c1 c2 :
  let m1 := mate name 100 100 30 c1 in
  let m2 := mate name 100 100 25 c2 in
  hash_pair m1 = hash_pair_mate m2 ->
  fragments 20 [m1; m2]
  = [ {| hv := hash_pair_mate m2; pairQuality := 25; rec := m2 |} ]
  /\ fragments 26 [m1; m2] = [].
Proof.
  intros m1 m2 Hkey. unfold fragments. cbn [resolve_trace].
  assert (H1 : forall q, q <= 30 -> resolve q init m1
             = ({| lastAlignedPos := 100;
                   lastAlignedPosReads := {[ hash_string name ]} ∪ ∅;
                   qualities := <[ hash_pair m1 := 30 ]> ∅ |}, None)).
  { intros q Hq. unfold resolve. cbn.
    destruct (Z.ltb_spec 30 q); [lia|]. reflexivity. }
  rewrite !H1 by lia. cbn [fst snd]. split.
  - unfold resolve. cbn.
    rewrite bool_decide_eq_false_2 by set_solver.
    rewrite <- Hkey, lookup_insert_eq. reflexivity.
  - unfold resolve. cbn. reflexivity.
Qed.
End Scenario.

Section Ideal.
Import Bam Resolver.

(** The collision-free keys tell any records apart. *)
Lemma ideal_hash_collision_free rs : @collision_free ideal_hash rs.
Proof.
  split; simpl.
  - intros r r' _ _ Heq. injection Heq as Heq. by apply (inj encode) in Heq.
  - intros r r' _ _ Heq. injection Heq as Heq. apply (inj encode) in Heq.
    congruence.
  - intros r r' _ _. unfold mate_of. split.
    + intros Heq. injection Heq as Heq. apply (inj encode) in Heq.
      injection Heq as -> -> -> -> ->. auto.
    + intros (-> & -> & -> & -> & ->). reflexivity.
Qed.

Ltac by_index i :=
  destruct i as [|[|[|[|i]]]]; simpl in *; try discriminate; try lia.

Lemma two_pairs_paired : paired_stream two_pairs.
Proof.
  split.
  - intros i j r r' Hij Hi Hj. by_index i; by_index j;
      simplify_eq; simpl; lia.
  - intros r Hr. unfold two_pairs in Hr.
    repeat (apply elem_of_cons in Hr as [->|Hr]); simpl; try lia.
    by apply elem_of_nil in Hr.
  - intros i j r r' Hij Hi Hj Hname. unfold mate_of.
    by_index i; by_index j; simplify_eq; simpl in *; try discriminate; auto.
  - intros i j k r1 r2 r3 Hij Hjk Hi Hj Hk [H12 H23].
    by_index i; by_index j; by_index k; simplify_eq; simpl in *; discriminate.
Qed.
End Ideal.

Section Sentinel.
Import Bam Resolver.
Context `{PairHash}.

(** A resolved pair leaves its entry at zero. *)
Lemma resolved_is_marked minQual st r f :
  snd (resolve minQual st r) = Some f ->
  hv f = hash_pair_mate r
  /\ qualities (fst (resolve minQual st r)) !! hash_pair_mate r = Some 0.
Proof.
  destruct (resolve_cases minQual st r)
    as [[Hpass ->]|[(Hpass & Hfirst & ->)|[(Hpass & Hsec & Hnone & ->)
       |(q & Hpass & Hsec & Hsome & ->)]]]; simpl; try discriminate.
  destruct (_ <? minQual); [discriminate|]. intros [= <-]. simpl.
  split; [reflexivity|]. apply lookup_insert_eq.
Qed.

(** With a positive threshold a record that finds the zero mark gives
    nothing. *)
Lemma marked_is_ignored minQual st r :
  0 < minQual ->
  qualities st !! hash_pair_mate r = Some 0 ->
  snd (resolve minQual st r) = None.
Proof.
  intros Hpos Hzero.
  destruct (resolve_cases minQual st r)
    as [[Hpass ->]|[(Hpass & Hfirst & ->)|[(Hpass & Hsec & Hnone & ->)
       |(q & Hpass & Hsec & Hsome & ->)]]]; simpl; try reflexivity.
  assert (q = 0) as -> by congruence.
  assert (Hu : 0 <= u8 (qual r)) by (unfold u8; apply Z.mod_pos_bound; lia).
  change (u8 0) with 0. destruct (Z.ltb_spec (Z.min 0 (u8 (qual r))) minQual);
    [reflexivity|lia].
Qed.
End Sentinel.

(** ** The filter of the code and the filter of the spec *)

Section Filter.
Import Bam Resolver.

Lemma lor_eqb_0 a b : (Z.lor a b =? 0) = (a =? 0) && (b =? 0).
Proof.
  destruct (Z.eqb_spec (Z.lor a b) 0) as [Hz|Hnz].
  - apply Z.lor_eq_0_iff in Hz as [-> ->]. reflexivity.
  - destruct (Z.eqb_spec a 0) as [->|]; [|reflexivity].
    destruct (Z.eqb_spec b 0) as [->|]; [|reflexivity].
    by destruct Hnz.
Qed.

(** The two tests of the loops keep exactly the records the spec
    keeps. *)
Lemma passes_qualifies minQual r : passes minQual r = qualifies minQual r.
Proof.
  unfold passes, flag_filtered, qualifies, has_flag.
  rewrite !Z.land_lor_distr_r, !lor_eqb_0.
  assert (Hq : negb (qual r <? minQual) = (minQual <=? qual r)).
  { destruct (Z.ltb_spec (qual r) minQual), (Z.leb_spec minQual (qual r));
      simpl; try reflexivity; lia. }
  rewrite Hq.
  destruct (Z.land (flag r) BAM_FSECONDARY =? 0),
    (Z.land (flag r) BAM_FQCFAIL =? 0), (Z.land (flag r) BAM_FDUP =? 0),
    (Z.land (flag r) BAM_FSUPPLEMENTARY =? 0),
    (Z.land (flag r) BAM_FUNMAP =? 0), (Z.land (flag r) BAM_FMUNMAP =? 0),
    (Z.land (flag r) BAM_FPAIRED =? 0), (tid r =? mtid r),
    (minQual <=? qual r); reflexivity.
Qed.

Section WithHash.
Context `{PairHash}.
Variable minQual : Z.

(** A record that is dropped leaves no trace: the state is kept and
    nothing is emitted. *)
Lemma resolve_dropped st r :
  qualifies minQual r = false -> resolve minQual st r = (st, None).
Proof.
  rewrite <- passes_qualifies. unfold passes, resolve.
  destruct (flag_filtered r); [reflexivity|].
  destruct (qual r <? minQual); [reflexivity|discriminate].
Qed.

Lemma resolve_state_qualifying rs : forall st,
  resolve_state minQual st rs
  = resolve_state minQual st (qualifying minQual rs).
Proof.
  unfold qualifying. induction rs as [|r rs IH]; intros st; [reflexivity|].
  rewrite filter_cons. cbn [resolve_state].
  destruct (decide (qualifies minQual r = true)) as [Hq|Hq].
  - cbn [resolve_state]. apply IH.
  - apply not_true_is_false in Hq. rewrite (resolve_dropped st r Hq).
    apply IH.
Qed.
End WithHash.

(** The records kept among the first [k] are the first records kept. *)
Lemma qualifying_take minQual rs (k : nat) :
  qualifying minQual (take k rs)
  = take (length (qualifying minQual (take k rs))) (qualifying minQual rs).
Proof.
  unfold qualifying.
  set (P := fun r : bam1_t => qualifies minQual r = true).
  assert (Hsplit : filter P rs = filter P (take k rs) ++ filter P (drop k rs)).
  { by rewrite <- filter_app, take_drop. }
  rewrite Hsplit. by rewrite take_app_length.
Qed.

Lemma qualifying_lookup minQual rs (k : nat) r :
  rs !! k = Some r -> qualifies minQual r = true ->
  qualifying minQual rs !! length (qualifying minQual (take k rs)) = Some r.
Proof.
  intros Hk Hq. unfold qualifying.
  set (P := fun r : bam1_t => qualifies minQual r = true).
  assert (Hsplit : filter P rs
                   = filter P (take k rs) ++ r :: filter P (drop (S k) rs)).
  { rewrite <- (take_drop_middle rs k r Hk) at 1.
    rewrite filter_app, filter_cons. by rewrite decide_True. }
  rewrite Hsplit. apply list_lookup_middle. reflexivity.
Qed.

(** A record kept before index [k] of the stream is a record before the
    matching index of the kept records, and the other way round. *)
Lemma qualifying_earlier minQual rs (k : nat) r1 :
  (exists i : nat, (i < k)%nat /\ rs !! i = Some r1
                   /\ qualifies minQual r1 = true)
  <-> exists i' : nat,
        (i' < length (qualifying minQual (take k rs)))%nat
        /\ qualifying minQual rs !! i' = Some r1.
Proof.
  split.
  - intros (i & Hi & Hr1 & Hq).
    assert (Hin : r1 ∈ qualifying minQual (take k rs)).
    { unfold qualifying. apply list_elem_of_filter. split; [exact Hq|].
      apply list_elem_of_lookup. exists i. by rewrite lookup_take_lt. }
    apply list_elem_of_lookup in Hin as [i' Hi'].
    exists i'. split; [eapply lookup_lt_Some; eauto|].
    rewrite qualifying_take in Hi'.
    apply lookup_take_Some in Hi'. apply Hi'.
  - intros (i' & Hi' & Hr1).
    assert (Hin : r1 ∈ qualifying minQual (take k rs)).
    { rewrite qualifying_take. apply list_elem_of_lookup. exists i'.
      by rewrite lookup_take_lt. }
    unfold qualifying in Hin. apply list_elem_of_filter in Hin as [Hq Hin].
    apply list_elem_of_lookup in Hin as [i Hi].
    apply lookup_take_Some in Hi as [Hi Hik].
    exists i. auto.
Qed.
End Filter.

(** * Properties of the further code *)
Section PerBaseFacts.
Import Bam Coverage.

Lemma zsum_insert (cov : list Z) (i : nat) c x :
  cov !! i = Some c -> zsum (<[ i := x ]> cov) = zsum cov + (x - c).
Proof.
  revert i. induction cov as [|y cov IH]; intros i Hi; [discriminate|].
  destruct i as [|i]; simpl in *.
  - injection Hi as ->. lia.
  - rewrite (IH i Hi). lia.
Qed.

Lemma bump_at_lookup rp cov c (i : nat) x :
  0 <= rp -> cov !! Z.to_nat rp = Some c -> within maxCoverage c ->
  cov !! i = Some x ->
  bump_at rp cov c !! i
  = Some (if (Z.of_nat i =? rp) && (x <? maxCoverage) then x + 1 else x).
Proof.
  intros Hrp Hc Hw Hi. unfold bump_at, within, maxCoverage in *.
  destruct (Z.eqb_spec (Z.of_nat i) rp) as [Heq|Hne]; simpl.
  - assert (i = Z.to_nat rp) as -> by lia.
    assert (x = c) as -> by congruence.
    destruct (Z.ltb_spec c 65535); [|assumption].
    rewrite list_lookup_insert_eq by (eapply lookup_lt_Some; eauto).
    unfold u16. rewrite Z.mod_small by lia. reflexivity.
  - destruct (c <? 65535); [|assumption].
    rewrite list_lookup_insert_ne by lia. assumption.
Qed.

Lemma bump_at_within rp cov c :
  0 <= rp -> cov !! Z.to_nat rp = Some c ->
  Forall (within maxCoverage) cov -> Forall (within maxCoverage) (bump_at rp cov c).
Proof.
  intros Hrp Hc Hcov.
  eapply grown_within_bound; [exact Hcov|].
  apply (guarded_increment maxCoverage maxCoverage); auto;
    unfold maxCoverage; lia.
Qed.

Lemma bump_at_sum rp cov c :
  0 <= rp -> cov !! Z.to_nat rp = Some c -> within maxCoverage c ->
  zsum (bump_at rp cov c) = zsum cov + (if c <? maxCoverage then 1 else 0).
Proof.
  intros Hrp Hc Hw. unfold bump_at, within, maxCoverage in *.
  destruct (Z.ltb_spec c 65535); [|lia].
  rewrite (zsum_insert cov _ c) by assumption.
  unfold u16. rewrite Z.mod_small by lia. lia.
Qed.

(** The inner loop, base by base: the counters of the block go up by one
    below the bound, the others stay. *)
Lemma count_bases_pointwise k : forall cov rp cov' rp',
  0 <= rp -> Forall (within maxCoverage) cov ->
  Z.of_nat (length cov) < 2 ^ 32 ->
  count_bases k cov rp = Done (cov', rp') ->
  rp' = rp + Z.of_nat k
  /\ length cov' = length cov
  /\ Forall (within maxCoverage) cov'
  /\ zsum cov <= zsum cov' <= zsum cov + Z.of_nat k
  /\ forall (i : nat) c, cov !! i = Some c ->
       cov' !! i
       = Some (if (rp <=? Z.of_nat i) && (Z.of_nat i <? rp + Z.of_nat k)
                  && (c <? maxCoverage)
               then c + 1 else c).
Proof.
  induction k as [|k IH]; intros cov rp cov' rp' Hrp Hcov Hlen Hrun;
    simpl in Hrun.
  - injection Hrun as <- <-. split; [lia|]. split; [reflexivity|].
    split; [assumption|]. split; [lia|]. intros i c Hi. rewrite Hi. f_equal.
    destruct (Z.leb_spec rp (Z.of_nat i)), (Z.ltb_spec (Z.of_nat i) (rp + Z.of_nat 0));
      simpl; try reflexivity; lia.
  - unfold vec_get in Hrun. destruct (Z.ltb_spec rp 0); [lia|].
    destruct (cov !! Z.to_nat rp) as [c0|] eqn:Hc0; [|discriminate].
    fold (bump_at rp cov c0) in Hrun.
    assert (Hw0 : within maxCoverage c0).
    { eapply Forall_forall in Hcov; [exact Hcov|].
      eapply list_elem_of_lookup_2; eauto. }
    pose proof (lookup_lt_Some _ _ _ Hc0) as Hlt.
    assert (Hl1 : length (bump_at rp cov c0) = length cov).
    { unfold bump_at. destruct (_ <? _); [apply length_insert|reflexivity]. }
    rewrite (u32_small (rp + 1)) in Hrun by lia.
    destruct (IH (bump_at rp cov c0) (rp + 1) cov' rp' ltac:(lia)
                (bump_at_within rp cov c0 Hrp Hc0 Hcov) ltac:(lia) Hrun)
      as (Hrp' & Hlen' & Hw' & Hsum & Hpt).
    pose proof (bump_at_sum rp cov c0 Hrp Hc0 Hw0) as Hs1.
    split; [lia|]. split; [congruence|]. split; [assumption|]. split.
    { destruct (c0 <? maxCoverage); lia. }
    intros i c Hi.
    rewrite (Hpt i _ (bump_at_lookup rp cov c0 i c Hrp Hc0 Hw0 Hi)).
    f_equal. unfold within, maxCoverage in *.
    assert (Hc : within 65535 c).
    { eapply Forall_forall in Hcov; [exact Hcov|].
      eapply list_elem_of_lookup_2; eauto. }
    unfold within in Hc.
    destruct (Z.eqb_spec (Z.of_nat i) rp), (Z.ltb_spec c 65535);
      cbn [andb];
      destruct (Z.leb_spec rp (Z.of_nat i)),
        (Z.leb_spec (rp + 1) (Z.of_nat i)),
        (Z.ltb_spec (Z.of_nat i) (rp + 1 + Z.of_nat k)),
        (Z.ltb_spec (Z.of_nat i) (rp + Z.of_nat (S k)));
      cbn [andb]; try lia; try reflexivity;
      repeat match goal with
      | |- context [?a <? 65535] => destruct (Z.ltb_spec a 65535)
      end; try reflexivity; lia.
Qed.

(** Inside the vector the inner loop never faults. *)
Lemma count_bases_done k : forall cov rp,
  0 <= rp -> rp + Z.of_nat k <= Z.of_nat (length cov) ->
  Z.of_nat (length cov) < 2 ^ 32 ->
  exists cov' rp', count_bases k cov rp = Done (cov', rp').
Proof.
  induction k as [|k IH]; intros cov rp Hrp Hin Hlen; simpl; [eauto|].
  unfold vec_get. destruct (Z.ltb_spec rp 0); [lia|].
  destruct (lookup_lt_is_Some_2 cov (Z.to_nat rp) ltac:(lia)) as [c Hc].
  rewrite Hc. fold (bump_at rp cov c).
  assert (Hl1 : length (bump_at rp cov c) = length cov).
  { unfold bump_at. destruct (_ <? _); [apply length_insert|reflexivity]. }
  rewrite (u32_small (rp + 1)) by lia. apply IH; rewrite ?Hl1; lia.
Qed.

(** Below the bound every base of the block adds one to the total. *)
Lemma count_bases_sum k : forall cov rp cov' rp',
  0 <= rp -> Forall (within maxCoverage) cov ->
  Z.of_nat (length cov) < 2 ^ 32 ->
  (forall (i : nat) c, rp <= Z.of_nat i -> cov !! i = Some c ->
     c < maxCoverage) ->
  count_bases k cov rp = Done (cov', rp') ->
  zsum cov' = zsum cov + Z.of_nat k.
Proof.
  induction k as [|k IH]; intros cov rp cov' rp' Hrp Hcov Hlen Hlow Hrun;
    simpl in Hrun.
  - injection Hrun as <- <-. lia.
  - unfold vec_get in Hrun. destruct (Z.ltb_spec rp 0); [lia|].
    destruct (cov !! Z.to_nat rp) as [c0|] eqn:Hc0; [|discriminate].
    fold (bump_at rp cov c0) in Hrun.
    assert (Hw0 : within maxCoverage c0).
    { eapply Forall_forall in Hcov; [exact Hcov|].
      eapply list_elem_of_lookup_2; eauto. }
    pose proof (lookup_lt_Some _ _ _ Hc0) as Hlt.
    pose proof (Hlow (Z.to_nat rp) c0 ltac:(lia) Hc0) as Hlow0.
    assert (Hl1 : length (bump_at rp cov c0) = length cov).
    { unfold bump_at. destruct (_ <? _); [apply length_insert|reflexivity]. }
    rewrite (u32_small (rp + 1)) in Hrun by lia.
    assert (Hlow1 : forall (i : nat) c, rp + 1 <= Z.of_nat i ->
              bump_at rp cov c0 !! i = Some c -> c < maxCoverage).
    { intros i c Hi Hic. unfold bump_at in Hic.
      destruct (c0 <? maxCoverage).
      - rewrite list_lookup_insert_ne in Hic by lia.
        apply (Hlow i c); [lia|assumption].
      - apply (Hlow i c); [lia|assumption]. }
    rewrite (IH (bump_at rp cov c0) (rp + 1) cov' rp' ltac:(lia)
               (bump_at_within rp cov c0 Hrp Hc0 Hcov) ltac:(lia) Hlow1 Hrun).
    rewrite (bump_at_sum rp cov c0 Hrp Hc0 Hw0).
    destruct (Z.ltb_spec c0 maxCoverage); lia.
Qed.



Lemma ref_span_cons o ops : ref_span (o :: ops) = ref_len o + ref_span ops.
Proof. reflexivity. Qed.

Lemma matched_bases_cons o ops :
  matched_bases (o :: ops) = matched_len o + matched_bases ops.
Proof. reflexivity. Qed.

Lemma ref_span_nonneg ops : oplens_ok ops -> 0 <= ref_span ops.
Proof.
  induction 1 as [|[op l] ops Hl _ IH]; [reflexivity|].
  rewrite ref_span_cons. unfold ref_len. simpl in *. destruct op; lia.
Qed.

Lemma matched_at_ge ops : forall rp i,
  oplens_ok ops -> matched_at ops rp i = true -> rp <= i.
Proof.
  induction ops as [|[op l] ops IH]; intros rp i Hok Hm; [discriminate|].
  inversion Hok as [|? ? Hl Hok']; subst. simpl in Hl, Hm.
  destruct op;
    try (apply IH in Hm; [lia|assumption]).
  all: apply orb_true_iff in Hm as [Hm|Hm];
    [apply andb_true_iff in Hm as [Hm _]; lia
    |apply IH in Hm; [lia|assumption]].
Qed.

Ltac cigar_cons Hok Hl Hok' :=
  inversion Hok as [|? ? Hl Hok']; subst; simpl in Hl.

Ltac cigar_lens :=
  rewrite ?ref_span_cons, ?matched_bases_cons in *;
  unfold ref_len, matched_len in *; cbn [fst snd] in *.

(** The walk over a CIGAR, base by base. *)
Lemma parse_cigar_pointwise ops : forall cov rp cov',
  0 <= rp -> oplens_ok ops -> rp + ref_span ops < 2 ^ 32 ->
  Forall (within maxCoverage) cov -> Z.of_nat (length cov) < 2 ^ 32 ->
  parse_cigar ops cov rp = Done cov' ->
  length cov' = length cov
  /\ Forall (within maxCoverage) cov'
  /\ zsum cov <= zsum cov' <= zsum cov + matched_bases ops
  /\ forall (i : nat) c, cov !! i = Some c ->
       cov' !! i = Some (bump_base ops rp i c).
Proof.
  induction ops as [|[op l] ops IH];
    intros cov rp cov' Hrp Hok Hspan Hcov Hlen Hrun.
  - injection Hrun as <-. unfold matched_bases, bump_base. simpl.
    repeat split; auto; lia.
  - cigar_cons Hok Hl Hok'.
    pose proof (ref_span_nonneg ops Hok') as Hnn.
    assert (Hskip : forall cov',
      parse_cigar ops cov rp = Done cov' ->
      rp + ref_span ops < 2 ^ 32 ->
      length cov' = length cov /\ Forall (within maxCoverage) cov'
      /\ zsum cov <= zsum cov' <= zsum cov + (0 + matched_bases ops)
      /\ forall (i : nat) c, cov !! i = Some c ->
           cov' !! i = Some (bump_base ops rp i c)).
    { intros c' Hr Hs. rewrite Z.add_0_l. apply IH; auto. }
    assert (Hjump : forall cov',
      parse_cigar ops cov (u32 (rp + l)) = Done cov' ->
      rp + l + ref_span ops < 2 ^ 32 ->
      length cov' = length cov /\ Forall (within maxCoverage) cov'
      /\ zsum cov <= zsum cov' <= zsum cov + (0 + matched_bases ops)
      /\ forall (i : nat) c, cov !! i = Some c ->
           cov' !! i = Some (bump_base ops (rp + l) i c)).
    { intros c' Hr Hs. rewrite u32_small in Hr by lia. rewrite Z.add_0_l.
      apply IH; auto; lia. }
    assert (Hblock : forall cov',
      bind (count_bases (Z.to_nat l) cov rp)
           (fun '(c1, rp1) => parse_cigar ops c1 rp1) = Done cov' ->
      rp + l + ref_span ops < 2 ^ 32 ->
      length cov' = length cov /\ Forall (within maxCoverage) cov'
      /\ zsum cov <= zsum cov' <= zsum cov + (l + matched_bases ops)
      /\ forall (i : nat) c, cov !! i = Some c ->
           cov' !! i
           = Some (if ((rp <=? Z.of_nat i) && (Z.of_nat i <? rp + l)
                       || matched_at ops (rp + l) (Z.of_nat i))
                      && (c <? maxCoverage)
                   then c + 1 else c)).
    { intros c' Hr Hs.
      destruct (count_bases (Z.to_nat l) cov rp) as [[c1 rp1]| |] eqn:Hcb;
        try discriminate. simpl in Hr.
      destruct (count_bases_pointwise _ _ _ _ _ Hrp Hcov Hlen Hcb)
        as (-> & Hl1 & Hw1 & Hs1 & Hp1).
      rewrite Z2Nat.id in * by lia.
      destruct (IH c1 (rp + l) c' ltac:(lia) Hok' Hs Hw1 ltac:(lia) Hr)
        as (Hl2 & Hw2 & Hs2 & Hp2).
      split; [congruence|]. split; [assumption|]. split; [lia|].
      intros i c Hi. rewrite (Hp2 i _ (Hp1 i c Hi)). f_equal.
      unfold bump_base.
      destruct ((rp <=? Z.of_nat i) && (Z.of_nat i <? rp + l)) eqn:Hin;
        cbn [orb andb].
      - destruct (matched_at ops (rp + l) (Z.of_nat i)) eqn:Hm.
        + apply matched_at_ge in Hm; [|assumption].
          apply andb_true_iff in Hin as [_ Hin]. lia.
        + destruct (c <? maxCoverage); reflexivity.
      - reflexivity. }
    cigar_lens. unfold bump_base. cbn [parse_cigar matched_at] in *.
    destruct op; cbv iota in *;
      first [ exact (Hskip _ Hrun ltac:(lia))
            | exact (Hjump _ Hrun ltac:(lia))
            | exact (Hblock _ Hrun ltac:(lia)) ].
Qed.

(** Below the bound the total grows by the matched bases of the CIGAR. *)
Lemma parse_cigar_sum ops : forall cov rp cov',
  0 <= rp -> oplens_ok ops -> rp + ref_span ops < 2 ^ 32 ->
  Forall (within maxCoverage) cov -> Z.of_nat (length cov) < 2 ^ 32 ->
  (forall (i : nat) c, rp <= Z.of_nat i -> cov !! i = Some c ->
     c < maxCoverage) ->
  parse_cigar ops cov rp = Done cov' ->
  zsum cov' = zsum cov + matched_bases ops.
Proof.
  induction ops as [|[op l] ops IH];
    intros cov rp cov' Hrp Hok Hspan Hcov Hlen Hlow Hrun.
  - injection Hrun as <-. unfold matched_bases. simpl. lia.
  - cigar_cons Hok Hl Hok'.
    pose proof (ref_span_nonneg ops Hok') as Hnn.
    assert (Hskip : parse_cigar ops cov rp = Done cov' ->
      rp + ref_span ops < 2 ^ 32 ->
      zsum cov' = zsum cov + (0 + matched_bases ops)).
    { intros Hr Hs. rewrite Z.add_0_l.
      exact (IH cov rp cov' Hrp Hok' Hs Hcov Hlen Hlow Hr). }
    assert (Hjump : parse_cigar ops cov (u32 (rp + l)) = Done cov' ->
      rp + l + ref_span ops < 2 ^ 32 ->
      zsum cov' = zsum cov + (0 + matched_bases ops)).
    { intros Hr Hs. rewrite u32_small in Hr by lia. rewrite Z.add_0_l.
      apply (IH cov (rp + l)); auto; try lia.
      intros i c Hi. apply Hlow. lia. }
    assert (Hblock :
      bind (count_bases (Z.to_nat l) cov rp)
           (fun '(c1, rp1) => parse_cigar ops c1 rp1) = Done cov' ->
      rp + l + ref_span ops < 2 ^ 32 ->
      zsum cov' = zsum cov + (l + matched_bases ops)).
    { intros Hr Hs.
      destruct (count_bases (Z.to_nat l) cov rp) as [[c1 rp1]| |] eqn:Hcb;
        try discriminate. simpl in Hr.
      pose proof (count_bases_sum _ _ _ _ _ Hrp Hcov Hlen Hlow Hcb) as Hsum.
      destruct (count_bases_pointwise _ _ _ _ _ Hrp Hcov Hlen Hcb)
        as (-> & Hl1 & Hw1 & _ & Hp1).
      rewrite Z2Nat.id in * by lia.
      assert (Hlow1 : forall (i : nat) c, rp + l <= Z.of_nat i ->
                c1 !! i = Some c -> c < maxCoverage).
      { intros i c Hi Hic.
        destruct (lookup_lt_is_Some_2 cov i) as [c0 Hc0].
        { rewrite <- Hl1. eapply lookup_lt_Some; eauto. }
        rewrite (Hp1 i c0 Hc0) in Hic. injection Hic as <-.
        destruct (Z.ltb_spec (Z.of_nat i) (rp + l)); [lia|].
        rewrite andb_false_r. cbn [andb]. apply (Hlow i c0); [lia|assumption]. }
      rewrite (IH c1 (rp + l) cov' ltac:(lia) Hok' Hs Hw1 ltac:(lia) Hlow1 Hr).
      lia. }
    cigar_lens. cbn [parse_cigar] in *.
    destruct op; cbv iota in *;
      first [ exact (Hskip Hrun ltac:(lia))
            | exact (Hjump Hrun ltac:(lia))
            | exact (Hblock Hrun ltac:(lia)) ].
Qed.

(** A CIGAR that stays inside the vector is walked to the end. *)
Lemma parse_cigar_done ops : forall cov rp,
  0 <= rp -> oplens_ok ops -> rp + ref_span ops <= Z.of_nat (length cov) ->
  Forall (within maxCoverage) cov -> Z.of_nat (length cov) < 2 ^ 32 ->
  exists cov', parse_cigar ops cov rp = Done cov'.
Proof.
  induction ops as [|[op l] ops IH]; intros cov rp Hrp Hok Hspan Hcov Hlen;
    [simpl; eauto|].
  cigar_cons Hok Hl Hok'.
  pose proof (ref_span_nonneg ops Hok') as Hnn.
  assert (Hskip : rp + ref_span ops <= Z.of_nat (length cov) ->
    exists cov', parse_cigar ops cov rp = Done cov') by (intros; eauto).
  assert (Hjump : rp + l + ref_span ops <= Z.of_nat (length cov) ->
    exists cov', parse_cigar ops cov (u32 (rp + l)) = Done cov').
  { intros Hs. rewrite u32_small by lia. apply IH; auto; lia. }
  assert (Hblock : rp + l + ref_span ops <= Z.of_nat (length cov) ->
    exists cov', bind (count_bases (Z.to_nat l) cov rp)
           (fun '(c1, rp1) => parse_cigar ops c1 rp1) = Done cov').
  { intros Hs.
    destruct (count_bases_done (Z.to_nat l) cov rp Hrp ltac:(lia) Hlen)
      as (c1 & rp1 & Hcb).
    rewrite Hcb. simpl.
    destruct (count_bases_pointwise _ _ _ _ _ Hrp Hcov Hlen Hcb)
      as (-> & Hl1 & Hw1 & _ & _).
    rewrite Z2Nat.id by lia. apply IH; auto; lia. }
  cigar_lens. cbn [parse_cigar].
  destruct op; cbv iota in *;
    first [ exact (Hskip ltac:(lia)) | exact (Hjump ltac:(lia))
          | exact (Hblock ltac:(lia)) ].
Qed.
End PerBaseFacts.

(** ** The mid-point count, by fragment *)

Section MidPointFacts.
Import Bam Resolver Coverage.
Context `{PairHash}.

(** The loop over the records is the loop over the fragments it finds. *)
Lemma count_reads_by_fragment minQual target_len rs : forall st cov,
  count_reads minQual target_len st cov rs
  = count_fragments target_len cov (omap id (resolve_trace minQual st rs)).
Proof.
  induction rs as [|r rs IH]; intros st cov; [reflexivity|].
  cbn [count_reads resolve_trace omap list_omap].
  destruct (resolve minQual st r) as [st' [f|]]; cbn [fst snd id].
  - cbn [count_fragments].
    destruct (count_midpoint target_len cov (rec f)); simpl; auto.
  - apply IH.
Qed.

Lemma hits_cons i f frs :
  hits i (f :: frs)
  = (if bool_decide (midPoint (rec f) = i) then 1 else 0) + hits i frs.
Proof.
  unfold hits. rewrite filter_cons.
  destruct (decide (midPoint (rec f) = i)) as [Heq|Hne].
  - rewrite bool_decide_eq_true_2 by assumption. cbn [length]. lia.
  - rewrite bool_decide_eq_false_2 by assumption. lia.
Qed.

Lemma hits_nonneg i frs : 0 <= hits i frs.
Proof. unfold hits. lia. Qed.

(** One fragment: the counter of its mid-point goes up by one below
    65534, when the mid-point lies on the chromosome. *)
Lemma count_midpoint_pointwise target_len cov r :
  Z.of_nat (length cov) = target_len -> target_len < 2 ^ 31 ->
  0 <= midPoint r -> Forall (within (maxCoverage - 1)) cov ->
  exists cov', count_midpoint target_len cov r = Done cov'
    /\ length cov' = length cov
    /\ Forall (within (maxCoverage - 1)) cov'
    /\ forall (i : nat) c, cov !! i = Some c ->
         cov' !! i
         = Some (Z.min (c + if bool_decide (midPoint r = Z.of_nat i)
                            then 1 else 0) (maxCoverage - 1)).
Proof.
  intros Hlen Hsmall Hmid Hcov. unfold count_midpoint.
  fold (midPoint r). rewrite (i32_small target_len) by lia.
  assert (Hsame : forall (i : nat) c, cov !! i = Some c ->
            midPoint r <> Z.of_nat i \/ ~ c < maxCoverage - 1 ->
            cov !! i
            = Some (Z.min (c + if bool_decide (midPoint r = Z.of_nat i)
                               then 1 else 0) (maxCoverage - 1))).
  { intros i c Hi Hcase. rewrite Hi. f_equal.
    assert (Hc : within (maxCoverage - 1) c).
    { eapply Forall_forall in Hcov; [exact Hcov|].
      eapply list_elem_of_lookup_2; eauto. }
    unfold within in Hc. destruct (bool_decide_reflect (midPoint r = Z.of_nat i));
      lia. }
  destruct (Z.ltb_spec (midPoint r) target_len) as [Hlt|Hge].
  2:{ exists cov. repeat split; auto. intros i c Hi. apply Hsame; auto.
      left. apply lookup_lt_Some in Hi. lia. }
  unfold vec_get. destruct (Z.ltb_spec (midPoint r) 0); [lia|].
  destruct (lookup_lt_is_Some_2 cov (Z.to_nat (midPoint r)) ltac:(lia))
    as [c0 Hc0].
  rewrite Hc0.
  assert (Hw0 : within (maxCoverage - 1) c0).
  { eapply Forall_forall in Hcov; [exact Hcov|].
    eapply list_elem_of_lookup_2; eauto. }
  destruct (Z.ltb_spec c0 (maxCoverage - 1)) as [Hlow|Hsat].
  2:{ exists cov. repeat split; auto. intros i c Hi. apply Hsame; auto.
      destruct (decide (midPoint r = Z.of_nat i)) as [Heq|Hne]; [|by left].
      right. rewrite Heq, Nat2Z.id in Hc0.
      assert (c = c0) as -> by congruence. lia. }
  eexists. split; [reflexivity|]. split; [apply length_insert|]. split.
  { eapply grown_within_bound; [exact Hcov|].
    pose proof (guarded_increment (maxCoverage - 1) (maxCoverage - 1) cov
                  (Z.to_nat (midPoint r)) c0 ltac:(lia)
                  ltac:(unfold maxCoverage; lia) Hcov Hc0) as Hg.
    destruct (Z.ltb_spec c0 (maxCoverage - 1)); [exact Hg|lia]. }
  intros i c Hi.
  destruct (decide (midPoint r = Z.of_nat i)) as [Heq|Hne].
  - rewrite Heq, Nat2Z.id in *. assert (c = c0) as -> by congruence.
    rewrite list_lookup_insert_eq by (eapply lookup_lt_Some; eauto).
    rewrite bool_decide_eq_true_2 by reflexivity.
    unfold within, maxCoverage, u16 in *. rewrite Z.mod_small by lia.
    f_equal. lia.
  - rewrite list_lookup_insert_ne by lia. apply Hsame; auto.
Qed.

(** All fragments: each counter is the number of mid-points on its base,
    capped at 65534. *)
Lemma count_fragments_pointwise target_len frs : forall cov,
  Z.of_nat (length cov) = target_len -> target_len < 2 ^ 31 ->
  Forall (fun f => 0 <= midPoint (rec f)) frs ->
  Forall (within (maxCoverage - 1)) cov ->
  exists cov', count_fragments target_len cov frs = Done cov'
    /\ length cov' = length cov
    /\ forall (i : nat) c, cov !! i = Some c ->
         cov' !! i
         = Some (Z.min (c + hits (Z.of_nat i) frs) (maxCoverage - 1)).
Proof.
  induction frs as [|f frs IH]; intros cov Hlen Hsmall Hmid Hcov.
  - exists cov. repeat split; auto. intros i c Hi. rewrite Hi. f_equal.
    assert (Hc : within (maxCoverage - 1) c).
    { eapply Forall_forall in Hcov; [exact Hcov|].
      eapply list_elem_of_lookup_2; eauto. }
    unfold within, hits in *. simpl. lia.
  - apply Forall_cons in Hmid as [Hf Hrest].
    destruct (count_midpoint_pointwise target_len cov (rec f) Hlen Hsmall
                Hf Hcov) as (cov1 & Hrun1 & Hl1 & Hw1 & Hp1).
    destruct (IH cov1 ltac:(lia) Hsmall Hrest Hw1) as (cov' & Hrun & Hl & Hp).
    exists cov'. cbn [count_fragments]. rewrite Hrun1. simpl.
    split; [exact Hrun|]. split; [congruence|].
    intros i c Hi. rewrite (Hp i _ (Hp1 i c Hi)). f_equal.
    rewrite hits_cons. pose proof (hits_nonneg (Z.of_nat i) frs).
    destruct (bool_decide (midPoint (rec f) = Z.of_nat i)); lia.
Qed.

Lemma hits_le_length i frs : hits i frs <= Z.of_nat (length frs).
Proof. unfold hits. apply inj_le, length_filter. Qed.

(** The whole pass, started on the zero vector. *)
Lemma count_reads_zero_vector minQual target_len rs :
  0 <= target_len < 2 ^ 31 ->
  Forall (fun f => 0 <= midPoint (rec f)) (fragments minQual rs) ->
  exists cov',
    count_reads minQual target_len init (empty_cov target_len) rs = Done cov'
    /\ Z.of_nat (length cov') = target_len
    /\ Forall (within (maxCoverage - 1)) cov'
    /\ forall i : nat, Z.of_nat i < target_len ->
         cov' !! i
         = Some (Z.min (hits (Z.of_nat i) (fragments minQual rs))
                       (maxCoverage - 1)).
Proof.
  intros Hlen Hmid.
  assert (Hl0 : Z.of_nat (length (empty_cov target_len)) = target_len).
  { unfold empty_cov. rewrite length_replicate. lia. }
  assert (Hw0 : Forall (within (maxCoverage - 1)) (empty_cov target_len)).
  { apply Forall_replicate. unfold within, maxCoverage. lia. }
  destruct (count_fragments_pointwise target_len (fragments minQual rs)
              (empty_cov target_len) Hl0 ltac:(lia) Hmid Hw0)
    as (cov' & Hrun & Hl & Hp).
  exists cov'. rewrite count_reads_by_fragment. split; [exact Hrun|].
  split; [lia|]. split.
  { eapply count_reads_within; [exact Hw0|].
    rewrite count_reads_by_fragment. exact Hrun. }
  intros i Hi. rewrite (Hp i 0).
  - by rewrite Z.add_0_l.
  - unfold empty_cov. apply lookup_replicate_2. lia.
Qed.
End MidPointFacts.

(** ** Windows and their sums *)

Section SumFaults.
Import Intervals.

(** The summing loop faults exactly when it has a base to read outside
    the vector. *)
Lemma covsum_loop_fault n : forall cov k acc,
  covsum_loop n cov k acc = Fault
  <-> (0 < n)%nat /\ (k < 0 \/ Z.of_nat (length cov) < k + Z.of_nat n).
Proof.
  induction n as [|n IH]; intros cov k acc; simpl.
  - split; [discriminate|]. intros [Hn _]. lia.
  - unfold vec_get. destruct (Z.ltb_spec k 0) as [Hneg|Hpos].
    { split; [intros _; split; lia|reflexivity]. }
    destruct (cov !! Z.to_nat k) as [c|] eqn:Hk.
    + apply lookup_lt_Some in Hk. rewrite IH. lia.
    + apply lookup_ge_None in Hk. split; [intros _; lia|reflexivity].
Qed.

Lemma covsum_loop_ends n : forall cov k acc,
  covsum_loop n cov k acc <> Timeout.
Proof.
  induction n as [|n IH]; intros cov k acc; simpl; [discriminate|].
  destruct (vec_get cov k); [apply IH|discriminate].
Qed.

Lemma slice_pointwise (cov : list Z) (g : Z -> Z) (s e : Z) :
  (forall i, 0 <= i < Z.of_nat (length cov) -> vec_get cov i = Some (g i)) ->
  0 <= s -> s <= e -> e <= Z.of_nat (length cov) ->
  slice cov s e = g <$> seqZ s (e - s).
Proof.
  intros Hg Hs Hse He. unfold slice. apply list_eq. intros j.
  rewrite list_lookup_fmap.
  destruct (decide (Z.of_nat j < e - s)) as [Hj|Hj].
  - rewrite lookup_take_lt by lia. rewrite lookup_drop.
    rewrite lookup_seqZ_lt by lia. simpl.
    rewrite <- vec_get_nat. rewrite <- Hg by lia. f_equal. lia.
  - rewrite lookup_take_ge by lia. rewrite lookup_seqZ_ge by lia.
    reflexivity.
Qed.

(** The sums of intervals that all lie within the vector. *)
Lemma interval_sums_rows cov : Forall is_uint16 cov ->
  Z.of_nat (length cov) < 2 ^ 31 ->
  forall itvs,
  Forall (fun itv => 0 <= start itv /\ end_ itv <= Z.of_nat (length cov))
    itvs ->
  interval_sums cov itvs
  = Done ((fun itv => zsum (slice cov (start itv) (end_ itv))) <$> itvs).
Proof.
  intros Hcov Hlen. induction 1 as [|itv itvs [Hs He] _ IH]; [reflexivity|].
  cbn [interval_sums]. rewrite interval_sum_spec by assumption.
  rewrite IH. reflexivity.
Qed.

Lemma zip_fmap_diag {A B} (g : A -> B) (l : list A) :
  zip l (g <$> l) = (fun x => (x, g x)) <$> l.
Proof.
  induction l as [|x l IH]; [reflexivity|].
  rewrite !fmap_cons. cbn [zip zip_with]. f_equal. exact IH.
Qed.
End SumFaults.

Lemma zsum_cons x l : zsum (x :: l) = x + zsum l.
Proof. reflexivity. Qed.

Section RowFacts.
Import Bam Resolver Coverage Intervals.
Context `{PairHash}.

Lemma hits_in_cons s e f frs :
  hits_in s e (f :: frs)
  = (if bool_decide (s <= midPoint (rec f) < e) then 1 else 0)
    + hits_in s e frs.
Proof.
  unfold hits_in. rewrite filter_cons.
  destruct (decide (s <= midPoint (rec f) < e)) as [Heq|Hne].
  - rewrite bool_decide_eq_true_2 by assumption. cbn [length]. lia.
  - rewrite bool_decide_eq_false_2 by assumption. lia.
Qed.

(** One mid-point falls on one base of a range, or on none. *)
Lemma zsum_indicator (m s : Z) (n : nat) :
  zsum ((fun i => if bool_decide (m = i) then 1 else 0)
          <$> seqZ s (Z.of_nat n))
  = if bool_decide (s <= m < s + Z.of_nat n) then 1 else 0.
Proof.
  revert s. induction n as [|n IH]; intros s.
  - simpl. rewrite bool_decide_eq_false_2 by lia. reflexivity.
  - rewrite Nat2Z.inj_succ, seqZ_cons by lia. rewrite fmap_cons.
    rewrite zsum_cons, Z.pred_succ, IH.
    destruct (bool_decide_reflect (m = s)),
      (bool_decide_reflect (Z.succ s <= m < Z.succ s + Z.of_nat n)),
      (bool_decide_reflect (s <= m < s + Z.succ (Z.of_nat n))); lia.
Qed.

Lemma zsum_add (f g : Z -> Z) (l : list Z) :
  zsum ((fun i => f i + g i) <$> l) = zsum (f <$> l) + zsum (g <$> l).
Proof.
  induction l as [|x l IH]; [reflexivity|].
  rewrite !fmap_cons, !zsum_cons, IH. lia.
Qed.

(** Summing the hits of the bases of a range counts the fragments of the
    range. *)
Lemma zsum_hits (s : Z) (n : nat) frs :
  zsum ((fun i => hits i frs) <$> seqZ s (Z.of_nat n))
  = hits_in s (s + Z.of_nat n) frs.
Proof.
  induction frs as [|f frs IH].
  - unfold hits, hits_in. cbn [filter list_filter length Z.of_nat].
    induction (seqZ s (Z.of_nat n)) as [|x l IHl]; [reflexivity|].
    rewrite fmap_cons, zsum_cons, IHl. reflexivity.
  - rewrite hits_in_cons, <- IH, <- zsum_indicator, <- zsum_add.
    f_equal. apply list_fmap_ext. intros _ i _. apply hits_cons.
Qed.
End RowFacts.

Section WindowCount.
Import Intervals.
Variables (chr : string) (target_len wSize wOffset : Z).
Hypothesis Hlen : 0 < target_len < 2 ^ 31.
Hypothesis Hsize : 0 < wSize <= 2 ^ 31.
Hypothesis Hoff : 0 < wOffset <= 2 ^ 31.

(** The windows from [pos] on: one per offset that starts below the end
    of the chromosome. *)
Lemma window_loop_length (fuel : nat) : forall pos l,
  0 <= pos -> window_loop fuel chr target_len wSize wOffset pos = Done l ->
  Z.of_nat (length l)
  = Z.max 0 ((target_len - pos + wOffset - 1) / wOffset).
Proof.
  induction fuel as [|fuel IH]; intros pos l Hpos Hrun; simpl in Hrun;
    destruct (Z.ltb_spec pos target_len) as [Hlt|Hge]; try discriminate.
  1,3: injection Hrun as <-; simpl;
    assert ((target_len - pos + wOffset - 1) / wOffset <= 0)
      by (apply Z.lt_succ_r, Z.div_lt_upper_bound; lia); lia.
  destruct (window_loop fuel chr target_len wSize wOffset (u32 (pos + wOffset)))
    as [l'| |] eqn:Hrest; try discriminate.
  simpl in Hrun. injection Hrun as <-.
  rewrite u32_small in Hrest by lia. apply IH in Hrest; [|lia].
  cbn [length]. rewrite Nat2Z.inj_succ, Hrest.
  replace (target_len - pos + wOffset - 1)
    with ((target_len - pos - 1) + 1 * wOffset) by lia.
  rewrite Z.div_add by lia.
  replace (target_len - (pos + wOffset) + wOffset - 1)
    with (target_len - pos - 1) by lia.
  assert (0 <= (target_len - pos - 1) / wOffset) by (apply Z.div_pos; lia).
  lia.
Qed.
End WindowCount.

Section WindowParams.
Import Intervals.

(** The window size and offset the loop is run with. *)
Lemma window_params_spec (c : CountDNAConfig) (target_len : Z) :
  0 < target_len < 2 ^ 31 ->
  0 <= window_num c < 2 ^ 32 ->
  (window_num c = 0 ->
     0 < window_size c <= 2 ^ 31 /\ 0 < window_offset c <= 2 ^ 31) ->
  exists wSize wOffset,
    window_params c target_len = (wSize, wOffset)
    /\ 0 < wSize <= 2 ^ 31 /\ 0 < wOffset <= 2 ^ 31
    /\ (0 < window_num c ->
          wSize = target_len / window_num c + 1 /\ wOffset = wSize)
    /\ (window_num c = 0 ->
          wSize = window_size c /\ wOffset = window_offset c).
Proof.
  intros Hlen Hnum Hcfg. unfold window_params.
  destruct (Z.ltb_spec 0 (window_num c)) as [Hpos|Hzero].
  - assert (0 <= target_len / window_num c <= target_len).
    { split; [apply Z.div_pos; lia|].
      apply Z.div_le_upper_bound; [lia|]. nia. }
    rewrite u32_small by lia. eexists _, _.
    split; [reflexivity|]. repeat split; lia.
  - eexists _, _. split; [reflexivity|].
    destruct (Hcfg ltac:(lia)) as [Hs Ho]. repeat split; lia.
Qed.
End WindowParams.

(** ** The interval file *)

Section IntervalFileFacts.
Import Intervals IntervalFile.
Variable lexical_cast : string -> option Z.

(** What one line of the chromosome does to the list. *)
Lemma file_intervals_line chr tokens lines l :
  file_intervals lexical_cast chr (tokens :: lines) = Intervals l ->
  file_intervals lexical_cast chr lines = Intervals l
  \/ exists itv l',
       l = itv :: l'
       /\ file_intervals lexical_cast chr lines = Intervals l'
       /\ names chr tokens = true
       /\ 0 <= start itv < end_ itv
       /\ tokens !! 3%nat = Some (id itv).
Proof.
  intros Hrun. destruct tokens as [|chrName tokens1]; [by left|].
  cbn [file_intervals] in Hrun.
  destruct (String.eqb chrName chr) eqn:Hchr; cbn [negb] in Hrun; [|by left].
  destruct tokens1 as [|t_start tokens2]; [by left|].
  destruct (lexical_cast t_start) as [s|]; [|discriminate].
  destruct tokens2 as [|t_end tokens3]; [discriminate|].
  destruct (lexical_cast t_end) as [e|]; [|discriminate].
  destruct (Z.ltb_spec (i32 s) 0); [discriminate|].
  destruct (Z.ltb_spec (i32 e) 0); [discriminate|].
  destruct (Z.leb_spec (i32 e) (i32 s)); [discriminate|].
  destruct tokens3 as [|t_id tokens4]; [discriminate|].
  destruct (file_intervals lexical_cast chr lines) as [l'| | |];
    try discriminate.
  injection Hrun as <-. right. eexists _, l'.
  split; [reflexivity|]. split; [reflexivity|]. simpl.
  split; [assumption|]. split; [lia|reflexivity].
Qed.
End IntervalFileFacts.

(** ** What the reduction returns *)

Section ReductionFacts.
Import Compressor.

(** The loop leaves through its guard: either at once, or with the
    ratio of the list it returns. *)
Lemma reduce_loop_post resolution origs fuel : forall red tl tl',
  reduce_loop fuel resolution origs red tl = Done tl' ->
  (tl' = tl /\ reduce_guard resolution red tl = false)
  \/ reduce_guard resolution
       (Z2f (Z.of_nat (length tl')) / Z2f origs)%float tl' = false.
Proof.
  induction fuel as [|fuel IH]; intros red tl tl' Hrun; simpl in Hrun.
  - destruct (reduce_guard resolution red tl) eqn:Hg; [discriminate|].
    injection Hrun as <-. by left.
  - destruct (reduce_guard resolution red tl) eqn:Hg.
    2:{ injection Hrun as <-. by left. }
    unfold reduce_step in Hrun.
    destruct (threshold resolution red tl) as [thres| |]; simpl in Hrun;
      try discriminate.
    destruct (IH _ _ _ Hrun) as [[-> Hg']|Hg']; right; exact Hg'.
Qed.

(** A merging walk keeps ends of the segments it is given, in order. *)
Lemma merge_walk_ends thres rest : forall idx,
  sublist (end_ <$> merge_walk thres idx rest) (end_ <$> idx :: rest).
Proof.
  induction rest as [|idxNext rest IH]; intros idx; [reflexivity|].
  rewrite merge_walk_cons.
  destruct (merge_cost idx idxNext) as [nwavg nerr]. cbn [fst snd].
  destruct (nerr <=? thres)%float.
  - rewrite (fmap_cons end_ idx). apply sublist_cons.
    exact (IH {| start := start idx; end_ := end_ idxNext; score := nwavg |}).
  - rewrite !(fmap_cons end_ idx). apply sublist_skip. apply IH.
Qed.

Lemma merge_pass_ends thres tl :
  sublist (end_ <$> merge_pass thres tl) (end_ <$> tl).
Proof. destruct tl as [|idx rest]; [reflexivity|apply merge_walk_ends]. Qed.

Lemma reduce_loop_ends resolution origs fuel : forall red tl tl',
  reduce_loop fuel resolution origs red tl = Done tl' ->
  sublist (end_ <$> tl') (end_ <$> tl).
Proof.
  induction fuel as [|fuel IH]; intros red tl tl' Hrun; simpl in Hrun.
  - destruct (reduce_guard resolution red tl); [discriminate|].
    by injection Hrun as <-.
  - destruct (reduce_guard resolution red tl); [|by injection Hrun as <-].
    unfold reduce_step in Hrun.
    destruct (threshold resolution red tl) as [thres| |]; simpl in Hrun;
      try discriminate.
    etransitivity; [exact (IH _ _ _ Hrun)|apply merge_pass_ends].
Qed.
End ReductionFacts.

(** ** The second pass, by record *)

Section SecondPassFacts.
Import Bam Resolver Coverage.
Context `{PairHash}.

Lemma is_first_empty_store st r :
  lastAlignedPosReads st = ∅ ->
  is_first (cleanup st r) r = (pos r <=? mpos r).
Proof.
  intros Hst. unfold is_first.
  assert (Hc : lastAlignedPosReads (cleanup st r) = ∅).
  { unfold cleanup. destruct (_ <? _); [reflexivity|assumption]. }
  rewrite Hc. rewrite bool_decide_eq_true_2 by set_solver.
  rewrite andb_true_r.
  destruct (Z.ltb_spec (pos r) (mpos r)), (Z.eqb_spec (pos r) (mpos r)),
    (Z.leb_spec (pos r) (mpos r)); simpl; try reflexivity; lia.
Qed.

(** The second pass is the per-base count of the records it selects. *)
Lemma coverage_pass_filter minQual vp rs : forall st cov,
  lastAlignedPosReads st = ∅ ->
  coverage_pass minQual vp st cov rs
  = add_records cov (filter (fun r => counts minQual vp r = true) rs).
Proof.
  induction rs as [|r rs IH]; intros st cov Hst; [reflexivity|].
  cbn [coverage_pass]. rewrite filter_cons.
  rewrite is_first_empty_store by assumption. fold (pair_key r).
  assert (Hc : lastAlignedPosReads (cleanup st r) = ∅).
  { unfold cleanup. destruct (_ <? _); [reflexivity|assumption]. }
  destruct (decide (counts minQual vp r = true)) as [Hyes|Hno].
  - unfold counts, passes in Hyes.
    apply andb_true_iff in Hyes as [Hp Hkey].
    apply andb_true_iff in Hp as [Hf Hq].
    apply negb_true_iff in Hf, Hq. rewrite Hf, Hq, Hkey.
    cbn [add_records]. destruct (add_record cov r); simpl; auto.
  - apply not_true_is_false in Hno. unfold counts, passes in Hno.
    destruct (flag_filtered r); [by apply IH|].
    destruct (qual r <? minQual); [by apply IH|].
    cbn [negb andb] in Hno. rewrite Hno. by apply IH.
Qed.

(** Without a valid pair no record is counted. *)
Lemma filter_counts_empty minQual (l : list bam1_t) :
  filter (fun r => counts minQual ∅ r = true) l = [].
Proof.
  induction l as [|r l IHl]; [reflexivity|].
  rewrite filter_cons, decide_False; [exact IHl|].
  unfold counts. rewrite bool_decide_eq_false_2 by set_solver.
  rewrite andb_false_r. discriminate.
Qed.

Lemma passes_same_tid minQual r : passes minQual r = true -> tid r = mtid r.
Proof.
  unfold passes, flag_filtered. intros Hp.
  apply andb_true_iff in Hp as [Hp _]. apply negb_true_iff in Hp.
  apply orb_false_iff in Hp as [Hp _]. apply orb_false_iff in Hp as [_ Hp].
  apply negb_false_iff in Hp. by apply Z.eqb_eq.
Qed.

Lemma resolve_trace_length minQual rs : forall st,
  length (resolve_trace minQual st rs) = length rs.
Proof. induction rs as [|r rs IH]; intros st; simpl; [|rewrite IH]; auto. Qed.
End SecondPassFacts.

Section ValidPairs.
Import Bam Resolver Coverage.
Context `{PairHash}.
Variables (minQual : Z) (rs : list bam1_t).
Hypothesis Hps : paired_stream rs.
Hypothesis Hcf : collision_free rs.

(** The fragments of the stream are its valid pairs. *)
Lemma fragment_iff f :
  f ∈ fragments minQual rs
  <-> exists (i k : nat) r1 r,
        valid_pair minQual rs i k r1 r
        /\ f = {| hv := hash_pair_mate r;
                  pairQuality := Z.min (qual r1) (qual r); rec := r |}.
Proof.
  unfold fragments. rewrite list_elem_of_omap. split.
  - intros (o & Ho & Hid). simpl in Hid. subst o.
    apply list_elem_of_lookup in Ho as [k Hk].
    destruct (lookup_lt_is_Some_2 rs k) as [r Hr].
    { rewrite <- (resolve_trace_length minQual rs init).
      eapply lookup_lt_Some; eauto. }
    destruct (proj1 (trace_emits_iff minQual rs Hps Hcf k r f Hr) Hk)
      as (i & r1 & Hi & Hr1 & Hm & Hp1 & Hp & Hq & Hf).
    exists i, k, r1, r. unfold valid_pair. auto 10.
  - intros (i & k & r1 & r & (Hi & Hr1 & Hr & Hm & Hp1 & Hp & Hq) & ->).
    eexists. split; [|reflexivity].
    apply list_elem_of_lookup. exists k.
    apply (trace_emits_iff minQual rs Hps Hcf k r _ Hr).
    exists i, r1. auto 10.
Qed.

Lemma valid_key_iff hv0 :
  hv0 ∈ validPairs minQual rs
  <-> exists (i k : nat) r1 r,
        valid_pair minQual rs i k r1 r /\ hv0 = hash_pair_mate r.
Proof.
  unfold validPairs. rewrite elem_of_list_to_set, list_elem_of_fmap. split.
  - intros (f & -> & Hf). apply fragment_iff in Hf
      as (i & k & r1 & r & Hv & ->). by exists i, k, r1, r.
  - intros (i & k & r1 & r & Hv & ->). eexists. split; [|apply fragment_iff].
    2:{ exists i, k, r1, r. split; [exact Hv|reflexivity]. }
    reflexivity.
Qed.

(** Three records do not share a name. *)
Lemma name_of_pair (i k j : nat) r1 r r' :
  (i < k)%nat -> rs !! i = Some r1 -> rs !! k = Some r -> rs !! j = Some r' ->
  qname r1 = qname r -> qname r' = qname r -> j = i \/ j = k.
Proof.
  intros Hik Hi Hk Hj Hn1 Hn.
  destruct (decide (j = i)) as [|Hji]; [by left|].
  destruct (decide (j = k)) as [|Hjk]; [by right|]. exfalso.
  destruct (Nat.lt_total j i) as [Hlt|[Heq|Hgt]]; [|lia|].
  - apply (ps_two rs Hps j i k r' r1 r Hlt Hik Hj Hi Hk). split; congruence.
  - destruct (Nat.lt_total j k) as [Hlt|[Heq|Hgt']]; [|lia|].
    + apply (ps_two rs Hps i j k r1 r' r Hgt Hlt Hi Hj Hk). split; congruence.
    + apply (ps_two rs Hps i k j r1 r r' Hik Hgt' Hi Hk Hj). split; congruence.
Qed.

(** The records the second pass counts are the mates of the valid
    pairs. *)
Lemma counts_iff (k : nat) r :
  rs !! k = Some r ->
  counts minQual (validPairs minQual rs) r = true
  <-> in_valid_pair minQual rs k.
Proof.
  intros Hk. unfold counts. rewrite andb_true_iff, bool_decide_eq_true.
  rewrite valid_key_iff. split.
  - intros (Hp & i & k2 & r1 & r2 & Hv & Hkey).
    exists i, k2, r1, r2. split; [exact Hv|].
    destruct Hv as (Hi & Hr1 & Hr2 & Hm & Hp1 & Hp2 & Hq).
    assert (Hin : r ∈ rs) by (eapply list_elem_of_lookup_2; eauto).
    assert (Hin1 : r1 ∈ rs) by (eapply list_elem_of_lookup_2; eauto).
    assert (Hin2 : r2 ∈ rs) by (eapply list_elem_of_lookup_2; eauto).
    assert (Hn12 : qname r1 = qname r2) by apply Hm.
    apply (name_of_pair i k2 k r1 r2 r Hi Hr1 Hr2 Hk Hn12).
    unfold pair_key in Hkey. destruct (pos r <=? mpos r).
    + apply (cf_mate rs Hcf r r2 Hin Hin2) in Hkey. apply Hkey.
    + assert (Hk1 : hash_pair r1 = hash_pair_mate r).
      { rewrite Hkey. by apply (cf_mate rs Hcf r1 r2 Hin1 Hin2). }
      apply (cf_mate rs Hcf r1 r Hin1 Hin) in Hk1.
      rewrite <- Hn12. symmetry. apply Hk1.
  - intros (i & k2 & r1 & r2 & Hv & Hcase).
    pose proof Hv as (Hi & Hr1 & Hr2 & Hm & Hp1 & Hp2 & Hq).
    assert (Hin1 : r1 ∈ rs) by (eapply list_elem_of_lookup_2; eauto).
    assert (Hin2 : r2 ∈ rs) by (eapply list_elem_of_lookup_2; eauto).
    pose proof (ps_sorted rs Hps i k2 r1 r2 Hi Hr1 Hr2) as Hsorted.
    destruct Hm as (Hn & Ht & Hpm & Hmt & Hmp).
    destruct Hcase as [-> | ->].
    + assert (r = r1) as -> by congruence. split; [exact Hp1|].
      exists i, k2, r1, r2. split; [exact Hv|].
      unfold pair_key. destruct (Z.leb_spec (pos r1) (mpos r1)); [|lia].
      apply (cf_mate rs Hcf r1 r2 Hin1 Hin2). by repeat split.
    + assert (r = r2) as -> by congruence. split; [exact Hp2|].
      exists i, k2, r1, r2. split; [exact Hv|].
      unfold pair_key. destruct (Z.leb_spec (pos r2) (mpos r2)); [|reflexivity].
      apply (cf_mate rs Hcf r2 r2 Hin2 Hin2).
      pose proof (passes_same_tid minQual r2 Hp2).
      repeat split; auto; lia.
Qed.
End ValidPairs.

Section DepthFacts.
Import Bam Coverage.

Lemma depth_cons i r rs :
  depth i (r :: rs)
  = (if matched_at (cigar r) (pos r) i then 1 else 0) + depth i rs.
Proof.
  unfold depth. rewrite filter_cons.
  destruct (matched_at (cigar r) (pos r) i).
  - rewrite decide_True by reflexivity. cbn [length]. lia.
  - rewrite decide_False by discriminate. lia.
Qed.

Lemma depth_nonneg i rs : 0 <= depth i rs.
Proof. unfold depth. lia. Qed.

Lemma depth_le_length i rs : depth i rs <= Z.of_nat (length rs).
Proof. unfold depth. apply inj_le, length_filter. Qed.

(** The per-base count of a list of records that lie on the chromosome:
    each counter is the old one plus the records matched there, capped at
    65535. *)
Lemma add_records_pointwise rs : forall cov,
  Forall (record_inside (Z.of_nat (length cov))) rs ->
  Forall (within maxCoverage) cov -> Z.of_nat (length cov) < 2 ^ 32 ->
  exists cov', add_records cov rs = Done cov'
    /\ length cov' = length cov
    /\ forall (i : nat) c, cov !! i = Some c ->
         cov' !! i = Some (Z.min (c + depth (Z.of_nat i) rs) maxCoverage).
Proof.
  induction rs as [|r rs IH]; intros cov Hin Hcov Hlen.
  - exists cov. repeat split; auto. intros i c Hi. rewrite Hi. f_equal.
    assert (Hc : within maxCoverage c).
    { eapply Forall_forall in Hcov; [exact Hcov|].
      eapply list_elem_of_lookup_2; eauto. }
    unfold within, depth in *. simpl. lia.
  - apply Forall_cons in Hin as [(Hpos & Hok & Hspan) Hrest].
    pose proof (ref_span_nonneg (cigar r) Hok) as Hnn.
    destruct (parse_cigar_done (cigar r) cov (pos r) Hpos Hok Hspan Hcov Hlen)
      as [cov1 Hrun1].
    destruct (parse_cigar_pointwise (cigar r) cov (pos r) cov1 Hpos Hok
                ltac:(lia) Hcov Hlen Hrun1) as (Hl1 & Hw1 & _ & Hp1).
    rewrite <- Hl1 in Hrest, Hlen.
    destruct (IH cov1 Hrest Hw1 Hlen) as (cov' & Hrun & Hl & Hp).
    exists cov'. cbn [add_records]. unfold add_record.
    rewrite u32_small by lia. rewrite Hrun1. cbn [bind].
    split; [exact Hrun|]. split; [congruence|].
    intros i c Hi. rewrite (Hp i _ (Hp1 i c Hi)). f_equal.
    rewrite depth_cons. pose proof (depth_nonneg (Z.of_nat i) rs).
    assert (Hc : within maxCoverage c).
    { eapply Forall_forall in Hcov; [exact Hcov|].
      eapply list_elem_of_lookup_2; eauto. }
    unfold bump_base, within in *.
    destruct (matched_at (cigar r) (pos r) (Z.of_nat i)),
      (Z.ltb_spec c maxCoverage); cbn [andb]; lia.
Qed.
End DepthFacts.

(** ** Exon junctions *)

Section Counting.
Import Junction.

Lemma countb_app {A} (p : A -> bool) l1 l2 :
  countb p (l1 ++ l2) = countb p l1 + countb p l2.
Proof. induction l1 as [|x l1 IH]; simpl; [reflexivity|]. lia. Qed.

Lemma countb_fmap {A B} (f : A -> B) (p : B -> bool) l :
  countb p (f <$> l) = countb (fun x => p (f x)) l.
Proof.
  induction l as [|x l IH]; [reflexivity|].
  rewrite fmap_cons. cbn [countb]. by rewrite IH.
Qed.

Lemma countb_ext {A} (p q : A -> bool) l :
  Forall (fun x => p x = q x) l -> countb p l = countb q l.
Proof. induction 1 as [|x l Hx _ IH]; simpl; [reflexivity|]. by rewrite Hx, IH. Qed.

Lemma countb_none {A} (p : A -> bool) l :
  Forall (fun x => p x = false) l -> countb p l = 0.
Proof. induction 1 as [|x l Hx _ IH]; simpl; [reflexivity|]. by rewrite Hx, IH. Qed.

Lemma count_pairs_cons a rest gpStart gpEnd key :
  count_pairs (a :: rest) gpStart gpEnd key
  = countb (joins gpStart gpEnd key a) rest
    + count_pairs rest gpStart gpEnd key.
Proof.
  unfold count_pairs.
  change (ordered_pairs (a :: rest))
    with (((fun b => (a, b)) <$> rest) ++ ordered_pairs rest).
  rewrite countb_app, countb_fmap. reflexivity.
Qed.

(** No region ends at [gpStart]: no pair is joined. *)
Lemma count_pairs_no_donor l gpStart gpEnd key :
  Forall (fun a => end_ a <> gpStart) l ->
  count_pairs l gpStart gpEnd key = 0.
Proof.
  induction 1 as [|a l Ha _ IH]; [reflexivity|].
  rewrite count_pairs_cons, IH, countb_none; [reflexivity|].
  apply Forall_forall. intros b _. unfold joins.
  destruct (Z.eqb_spec (end_ a) gpStart); [contradiction|reflexivity].
Qed.

(** No region starts at [gpEnd]: no pair is joined. *)
Lemma count_pairs_no_acceptor l gpStart gpEnd key :
  Forall (fun b => start b <> gpEnd) l ->
  count_pairs l gpStart gpEnd key = 0.
Proof.
  induction 1 as [|a l Ha Hl IH]; [reflexivity|].
  rewrite count_pairs_cons, IH, countb_none; [reflexivity|].
  eapply Forall_impl; [exact Hl|]. intros b Hb. unfold joins.
  destruct (Z.eqb_spec (start b) gpEnd); [contradiction|].
  by rewrite andb_false_r.
Qed.

(** One more under a key, in [uint32_t]. *)
Lemma bump_count key key' ejct :
  counts_ok ejct ->
  counts_ok (bump key ejct)
  /\ jct_count (bump key ejct) key'
     = u32 (jct_count ejct key' + if bool_decide (key = key') then 1 else 0).
Proof.
  intros Hok. unfold bump, jct_count.
  assert (Hrange : forall k, 0 <= default 0 (ejct !! k) < 2 ^ 32).
  { intros k. destruct (ejct !! k) as [n|] eqn:Hk; simpl; [eauto|lia]. }
  assert (Hu : forall z, 0 <= u32 z < 2 ^ 32).
  { intros z. unfold u32. apply Z.mod_pos_bound. lia. }
  split.
  - intros k n. destruct (ejct !! key) as [m|] eqn:Hm;
      (destruct (decide (key = k)) as [->|Hne];
       [rewrite lookup_insert_eq|rewrite lookup_insert_ne by assumption]);
      intros Hn; try (injection Hn as <-); eauto; lia.
  - destruct (bool_decide_reflect (key = key')) as [->|Hne].
    + destruct (ejct !! key') as [m|] eqn:Hm; rewrite lookup_insert_eq;
        simpl; [reflexivity|]. unfold u32. by rewrite Z.mod_small by lia.
    + specialize (Hrange key').
      destruct (ejct !! key) as [m|]; rewrite lookup_insert_ne by assumption;
        rewrite Z.add_0_r; unfold u32; by rewrite Z.mod_small by lia.
Qed.

Lemma skip_total_nil key sk : skip_total [] key sk = 0.
Proof.
  unfold skip_total. induction sk as [|se sk IH]; [reflexivity|].
  rewrite fmap_cons, zsum_cons, IH. reflexivity.
Qed.

Lemma u32_add_l a b : u32 (u32 a + b) = u32 (a + b).
Proof. unfold u32. by rewrite Zplus_mod_idemp_l. Qed.

Lemma jct_count_range ejct key :
  counts_ok ejct -> u32 (jct_count ejct key + 0) = jct_count ejct key.
Proof.
  intros Hok. unfold jct_count. rewrite Z.add_0_r.
  destruct (ejct !! key) as [n|] eqn:Hk; simpl.
  - unfold u32. rewrite Z.mod_small; [reflexivity|eauto].
  - reflexivity.
Qed.

(** The partner loop adds one for every region after [vIt] that starts
    at [gpEnd] and has the larger exon id: the steps it skips and the
    regions after its break hold none. *)
Lemma partner_loop_count vIt gpStart gpEnd rest : forall ejct,
  end_ vIt = gpStart ->
  counts_ok ejct -> sorted_by_start rest ->
  Forall (fun b => start b <= end_ b) rest ->
  counts_ok (partner_loop vIt gpEnd rest ejct)
  /\ forall key,
       jct_count (partner_loop vIt gpEnd rest ejct) key
       = u32 (jct_count ejct key + countb (joins gpStart gpEnd key vIt) rest).
Proof.
  intros ejct Hend. revert ejct.
  induction rest as [|b rest IH]; intros ejct Hok Hsorted Hwf.
  - split; [assumption|]. intros key. simpl. by rewrite jct_count_range.
  - destruct Hsorted as [Hb Hsorted]. apply Forall_cons in Hwf as [Hwb Hwf].
    cbn [partner_loop countb].
    assert (Hj : forall key, joins gpStart gpEnd key vIt b
              = (start b =? gpEnd) && (eid vIt <? eid b)
                && bool_decide ((eid vIt, eid b) = key)).
    { intros key. unfold joins. by rewrite (proj2 (Z.eqb_eq _ _) Hend). }
    destruct (Z.ltb_spec (end_ b) gpEnd) as [Hlt|Hge].
    { destruct (IH ejct Hok Hsorted Hwf) as [Hok' Hc]. split; [exact Hok'|].
      intros key. rewrite Hc, Hj.
      destruct (Z.eqb_spec (start b) gpEnd); [lia|]. reflexivity. }
    destruct (Z.ltb_spec gpEnd (start b)) as [Hbreak|Hle].
    { split; [assumption|]. intros key. rewrite Hj.
      destruct (Z.eqb_spec (start b) gpEnd); [lia|]. cbn [andb].
      rewrite countb_none; [by rewrite jct_count_range|].
      eapply Forall_impl; [exact Hb|]. intros x Hx. simpl in Hx. unfold joins.
      destruct (Z.eqb_spec (start x) gpEnd); [lia|]. by rewrite andb_false_r. }
    destruct (Z.eqb_spec (start b) gpEnd) as [Heq|Hne].
    2:{ destruct (IH ejct Hok Hsorted Hwf) as [Hok' Hc]. split; [exact Hok'|].
        intros key. rewrite Hc, Hj.
        destruct (Z.eqb_spec (start b) gpEnd); [lia|]. reflexivity. }
    destruct (Z.ltb_spec (eid vIt) (eid b)) as [Hid|Hid].
    2:{ destruct (IH ejct Hok Hsorted Hwf) as [Hok' Hc]. split; [exact Hok'|].
        intros key. rewrite Hc, Hj.
        destruct (Z.ltb_spec (eid vIt) (eid b)); [lia|].
        by rewrite andb_false_r. }
    destruct (IH (bump (eid vIt, eid b) ejct)
                (proj1 (bump_count _ (eid vIt, eid b) ejct Hok)) Hsorted Hwf)
      as [Hok' Hc].
    split; [exact Hok'|]. intros key. rewrite Hc, Hj.
    rewrite (proj2 (bump_count (eid vIt, eid b) key ejct Hok)).
    rewrite u32_add_l. apply (f_equal u32). cbn [andb]. lia.
Qed.

(** The donor loop adds what the pairs of its range add. *)
Lemma donor_loop_count gpStart gpEnd from : forall ejct,
  counts_ok ejct -> sorted_by_start from ->
  Forall (fun b => start b <= end_ b) from ->
  counts_ok (donor_loop gpStart gpEnd from ejct)
  /\ forall key,
       jct_count (donor_loop gpStart gpEnd from ejct) key
       = u32 (jct_count ejct key + count_pairs from gpStart gpEnd key).
Proof.
  induction from as [|a rest IH]; intros ejct Hok Hsorted Hwf.
  - split; [assumption|]. intros key. symmetry. by apply jct_count_range.
  - destruct Hsorted as [Ha Hsorted]. apply Forall_cons in Hwf as [Hwa Hwf].
    cbn [donor_loop].
    assert (Hskip : end_ a <> gpStart ->
      counts_ok (donor_loop gpStart gpEnd rest ejct)
      /\ forall key,
           jct_count (donor_loop gpStart gpEnd rest ejct) key
           = u32 (jct_count ejct key
                  + count_pairs (a :: rest) gpStart gpEnd key)).
    { intros Hne. destruct (IH ejct Hok Hsorted Hwf) as [Hok' Hc].
      split; [exact Hok'|]. intros key. rewrite Hc, count_pairs_cons.
      rewrite countb_none; [reflexivity|].
      apply Forall_forall. intros b _. unfold joins.
      destruct (Z.eqb_spec (end_ a) gpStart); [contradiction|reflexivity]. }
    destruct (Z.ltb_spec (end_ a) gpStart) as [Hlt|Hge];
      [apply Hskip; lia|].
    destruct (Z.ltb_spec gpStart (start a)) as [Hbreak|Hle].
    { split; [assumption|]. intros key.
      rewrite count_pairs_no_donor; [by rewrite jct_count_range|].
      constructor; [lia|].
      apply Forall_forall. intros x Hx.
      eapply Forall_forall in Ha; [|exact Hx].
      eapply Forall_forall in Hwf; [|exact Hx]. simpl in Hwf. lia. }
    destruct (Z.eqb_spec (end_ a) gpStart) as [Heq|Hne]; [|by apply Hskip].
    destruct (partner_loop_count a gpStart gpEnd rest ejct Heq Hok Hsorted Hwf)
      as [Hok1 Hc1].
    destruct (IH _ Hok1 Hsorted Hwf) as [Hok' Hc].
    split; [exact Hok'|]. intros key.
    rewrite Hc, Hc1, u32_add_l, count_pairs_cons. apply (f_equal u32). lia.
Qed.
End Counting.

Section Search.
Import Junction.
Context `{IntervalOrder}.
Hypothesis Horder : by_start.

Lemma i32_range z : - 2 ^ 31 <= z < 2 ^ 31 -> i32 z = z.
Proof. intros Hz. unfold i32. rewrite Z.mod_small; lia. Qed.

(** The binary search leaves a sorted tail of the vector, and drops only
    regions that start before the key. *)
Lemma lower_bound_spec s gRegions :
  exists before, gRegions = before ++ lower_bound (search_key s) gRegions
    /\ Forall (fun r => start r < s) before.
Proof.
  induction gRegions as [|r rest IH].
  - exists []. by split.
  - cbn [lower_bound]. rewrite (cmp_start Horder), (key_start Horder).
    destruct (Z.ltb_spec (start r) s) as [Hlt|Hge].
    + destruct IH as (before & Heq & Hb). exists (r :: before).
      split; [simpl; by rewrite <- Heq|by constructor].
    + exists []. by split.
Qed.

Lemma sorted_suffix before l :
  sorted_by_start (before ++ l) -> sorted_by_start l.
Proof.
  induction before as [|a before IH]; [done|].
  intros [_ Hs]. by apply IH.
Qed.

(** The pairs the dropped regions give are pairs of no donor. *)
Lemma count_pairs_drop before l gpStart gpEnd key :
  Forall (fun a => end_ a <> gpStart) before ->
  count_pairs (before ++ l) gpStart gpEnd key = count_pairs l gpStart gpEnd key.
Proof.
  induction 1 as [|a before Ha _ IH]; [reflexivity|].
  cbn [app]. rewrite count_pairs_cons, IH, countb_none; [reflexivity|].
  apply Forall_forall. intros b _. unfold joins.
  destruct (Z.eqb_spec (end_ a) gpStart); [contradiction|reflexivity].
Qed.

(** No exon is longer than the longest. *)
Lemma max_fold gRegions : forall m,
  Forall (fun r => 0 <= start r <= end_ r /\ end_ r < 2 ^ 31) gRegions ->
  let f := fun m r => if m <? i32 (end_ r - start r)
                      then i32 (end_ r - start r) else m in
  m <= foldl f m gRegions
  /\ (m < 2 ^ 31 -> foldl f m gRegions < 2 ^ 31)
  /\ Forall (fun r => end_ r - start r <= foldl f m gRegions) gRegions.
Proof.
  induction gRegions as [|r rest IH]; intros m Hwf f; cbn [foldl].
  - split; [lia|]. split; [auto|constructor].
  - apply Forall_cons in Hwf as [Hr Hwf]. unfold f at 2 4 6.
    rewrite (i32_small (end_ r - start r)) by lia.
    destruct (Z.ltb_spec m (end_ r - start r)) as [Hlt|Hge].
    + destruct (IH (end_ r - start r) Hwf) as (Hm & Hup & Hall).
      fold f in Hm, Hup, Hall.
      split; [lia|]. split; [intros _; apply Hup; lia|].
      constructor; [lia|exact Hall].
    + destruct (IH m Hwf) as (Hm & Hup & Hall). fold f in Hm, Hup, Hall.
      split; [lia|]. split; [exact Hup|]. constructor; [lia|exact Hall].
Qed.

Lemma maxExonLength_spec gRegions :
  Forall (fun r => 0 <= start r <= end_ r /\ end_ r < 2 ^ 31) gRegions ->
  0 <= maxExonLength gRegions < 2 ^ 31
  /\ Forall (fun r => end_ r - start r <= maxExonLength gRegions) gRegions.
Proof.
  intros Hwf. destruct (max_fold gRegions 0 Hwf) as (Hm & Hup & Hall).
  split; [|exact Hall]. split; [exact Hm|]. apply Hup. lia.
Qed.
End Search.

Section BitMap.
Import Junction.

Lemma set_bit_spec bm i :
  (0 <= i < Z.of_nat (length bm) ->
   set_bit bm i = Done (<[ Z.to_nat i := true ]> bm))
  /\ (~ 0 <= i < Z.of_nat (length bm) -> set_bit bm i = Fault).
Proof.
  unfold set_bit, vec_get. split; intros Hi.
  - destruct (Z.ltb_spec i 0); [lia|].
    destruct (lookup_lt_is_Some_2 bm (Z.to_nat i) ltac:(lia)) as [b ->].
    reflexivity.
  - destruct (Z.ltb_spec i 0); [reflexivity|].
    rewrite (proj2 (lookup_ge_None bm (Z.to_nat i))) by lia. reflexivity.
Qed.

(** Flagging ends well exactly when every start and end is on the bit
    set, and then sets these bits and no others. *)
Lemma flag_positions_spec gRegions : forall bm,
  (Forall (flagged_ok (Z.of_nat (length bm))) gRegions ->
   exists bm', flag_positions gRegions bm = Done bm'
     /\ length bm' = length bm
     /\ forall i : nat, bm' !! i = Some true
          <-> bm !! i = Some true
              \/ ((i < length bm)%nat
                  /\ exists r, r ∈ gRegions
                       /\ (start r = Z.of_nat i \/ end_ r = Z.of_nat i)))
  /\ (~ Forall (flagged_ok (Z.of_nat (length bm))) gRegions ->
      flag_positions gRegions bm = Fault).
Proof.
  induction gRegions as [|r rest IH]; intros bm.
  - split.
    + intros _. exists bm. split; [reflexivity|]. split; [reflexivity|].
      intros i. split; [by left|]. intros [Hi|(_ & r & Hr & _)]; [exact Hi|].
      by apply elem_of_nil in Hr.
    + intros Hno. exfalso. apply Hno. constructor.
  - cbn [flag_positions].
    destruct (decide (0 <= start r < Z.of_nat (length bm))) as [Hs|Hs].
    2:{ split.
        - intros Hall. apply Forall_cons in Hall as [[? ?] _]. lia.
        - intros _. by rewrite (proj2 (set_bit_spec bm (start r)) Hs). }
    rewrite (proj1 (set_bit_spec bm (start r)) Hs). cbn [bind].
    set (bm1 := <[ Z.to_nat (start r) := true ]> bm).
    assert (Hl1 : length bm1 = length bm) by apply length_insert.
    destruct (decide (0 <= end_ r < Z.of_nat (length bm))) as [He|He].
    2:{ split.
        - intros Hall. apply Forall_cons in Hall as [[? ?] _]. lia.
        - intros _. rewrite (proj2 (set_bit_spec bm1 (end_ r))); [done|].
          by rewrite Hl1. }
    rewrite (proj1 (set_bit_spec bm1 (end_ r))) by (by rewrite Hl1).
    cbn [bind].
    set (bm2 := <[ Z.to_nat (end_ r) := true ]> bm1).
    assert (Hl2 : length bm2 = length bm).
    { unfold bm2. by rewrite length_insert. }
    destruct (IH bm2) as [IHdone IHfault]. rewrite Hl2 in IHdone, IHfault.
    split.
    + intros Hall. apply Forall_cons in Hall as [_ Hall].
      destruct (IHdone Hall) as (bm' & Hrun & Hl & Hbits).
      exists bm'. split; [exact Hrun|]. split; [exact Hl|].
      intros i. rewrite Hbits. unfold bm2, bm1.
      split.
      * intros [Hi|(Hlt & x & Hx & Hpos)].
        -- destruct (decide (i = Z.to_nat (end_ r))) as [->|Hne1].
           { right. split; [lia|]. exists r. split; [left|right; lia]. }
           rewrite list_lookup_insert_ne in Hi by congruence.
           destruct (decide (i = Z.to_nat (start r))) as [->|Hne2].
           { right. split; [lia|]. exists r. split; [left|left; lia]. }
           rewrite list_lookup_insert_ne in Hi by congruence. by left.
        -- right. split; [exact Hlt|]. exists x. split; [by right|exact Hpos].
      * intros [Hi|(Hlt & x & Hx & Hpos)].
        -- left. destruct (decide (i = Z.to_nat (end_ r))) as [->|Hne1].
           { apply list_lookup_insert_eq. rewrite length_insert. lia. }
           rewrite list_lookup_insert_ne by congruence.
           destruct (decide (i = Z.to_nat (start r))) as [->|Hne2].
           { apply list_lookup_insert_eq. lia. }
           by rewrite list_lookup_insert_ne by congruence.
        -- apply elem_of_cons in Hx as [->|Hx].
           ++ left. destruct Hpos as [Hpos|Hpos].
              ** destruct (decide (i = Z.to_nat (end_ r))) as [->|Hne1].
                 { apply list_lookup_insert_eq. rewrite length_insert. lia. }
                 rewrite list_lookup_insert_ne by congruence.
                 replace i with (Z.to_nat (start r)) by lia.
                 apply list_lookup_insert_eq. lia.
              ** replace i with (Z.to_nat (end_ r)) by lia.
                 apply list_lookup_insert_eq. rewrite length_insert. lia.
           ++ right. split; [exact Hlt|]. by exists x.
    + intros Hno. apply IHfault. intros Hall. apply Hno.
      constructor; [by split|exact Hall].
Qed.

(** The bit set of a chromosome: a bit is set exactly where a region
    starts or ends. *)
Lemma featureBitMap_spec n gRegions :
  0 <= n -> Forall (flagged_ok n) gRegions ->
  exists bm, featureBitMap n gRegions = Done bm
    /\ Z.of_nat (length bm) = n
    /\ forall i, 0 <= i < n ->
         (vec_get bm i = Some true
          <-> exists r, r ∈ gRegions /\ (start r = i \/ end_ r = i))
         /\ is_Some (vec_get bm i).
Proof.
  intros Hn Hall. unfold featureBitMap.
  set (bm0 := replicate (Z.to_nat n) false).
  assert (Hl0 : Z.of_nat (length bm0) = n).
  { unfold bm0. rewrite length_replicate. lia. }
  destruct (proj1 (flag_positions_spec gRegions bm0)) as (bm & Hrun & Hl & Hb).
  { by rewrite Hl0. }
  exists bm. split; [exact Hrun|]. split; [lia|]. intros i Hi.
  rewrite <- (Z2Nat.id i) by lia. rewrite vec_get_nat. split.
  - rewrite Hb. split.
    + intros [H0|(_ & r & Hr & Hpos)]; [|by exists r].
      unfold bm0 in H0. apply lookup_replicate in H0 as [? _]. discriminate.
    + intros (r & Hr & Hpos). right. split; [lia|]. by exists r.
  - apply lookup_lt_is_Some. lia.
Qed.
End BitMap.

Section SkipCounts.
Import Bam Junction.
Context `{IntervalOrder}.
Variables (n : Z) (gRegions : list IntervalLabelId) (bm : list bool).
Hypothesis Horder : by_start.
Hypothesis Hn : 0 <= n <= 2 ^ 31.
Hypothesis Hsorted : sorted_by_start gRegions.
Hypothesis Hregions : Forall (region_ok n) gRegions.
Hypothesis Hbm : featureBitMap n gRegions = Done bm.

Lemma regions_flagged : Forall (flagged_ok n) gRegions.
Proof.
  eapply Forall_impl; [exact Hregions|].
  unfold region_ok, flagged_ok. intros r. lia.
Qed.

Lemma bit_spec i :
  0 <= i < n ->
  (vec_get bm i = Some true
   <-> exists r, r ∈ gRegions /\ (start r = i \/ end_ r = i))
  /\ is_Some (vec_get bm i).
Proof.
  intros Hi.
  destruct (featureBitMap_spec n gRegions ltac:(lia) regions_flagged)
    as (bm' & Hrun & _ & Hbits).
  rewrite Hbm in Hrun. injection Hrun as <-. by apply Hbits.
Qed.

(** One skip: the bit test and the binary search lose no pair. *)
Lemma skip_junctions_count gpStart gpEnd ejct :
  0 <= gpStart < n -> 0 <= gpEnd < n -> counts_ok ejct ->
  exists ejct',
    skip_junctions gRegions (maxExonLength gRegions) bm gpStart gpEnd ejct
    = Done ejct'
    /\ counts_ok ejct'
    /\ forall key,
         jct_count ejct' key
         = u32 (jct_count ejct key + count_pairs gRegions gpStart gpEnd key).
Proof.
  intros Hs He Hok. unfold skip_junctions.
  destruct (bit_spec gpStart Hs) as [Hbs [bs Hgs]].
  destruct (bit_spec gpEnd He) as [Hbe [be Hge]].
  rewrite Hgs. destruct bs.
  2:{ exists ejct. split; [reflexivity|]. split; [assumption|]. intros key.
      rewrite count_pairs_no_donor; [symmetry; by apply jct_count_range|].
      apply Forall_forall. intros a Ha Hend.
      assert (Hsome : vec_get bm gpStart = Some true).
      { apply Hbs. exists a. auto. }
      congruence. }
  rewrite Hge. destruct be.
  2:{ exists ejct. split; [reflexivity|]. split; [assumption|]. intros key.
      rewrite count_pairs_no_acceptor; [symmetry; by apply jct_count_range|].
      apply Forall_forall. intros b Hb Hstart.
      assert (Hsome : vec_get bm gpEnd = Some true).
      { apply Hbe. exists b. auto. }
      congruence. }
  assert (Hwf31 : Forall (fun r => 0 <= start r <= end_ r /\ end_ r < 2 ^ 31)
                    gRegions).
  { eapply Forall_impl; [exact Hregions|]. unfold region_ok. intros r. lia. }
  destruct (maxExonLength_spec gRegions Hwf31) as [Hm Hlen].
  set (s := Z.max 0 (i32 (gpStart - maxExonLength gRegions))).
  destruct (lower_bound_spec Horder s gRegions) as (before & Heq & Hbefore).
  assert (Hwf : Forall (fun b => start b <= end_ b) gRegions).
  { eapply Forall_impl; [exact Hregions|]. unfold region_ok. intros r. lia. }
  rewrite Heq in Hsorted, Hwf.
  apply sorted_suffix in Hsorted. apply Forall_app in Hwf as [_ Hwf].
  destruct (donor_loop_count gpStart gpEnd (lower_bound (search_key s) gRegions)
              ejct Hok Hsorted Hwf) as [Hok' Hc].
  eexists. split; [reflexivity|]. split; [exact Hok'|]. intros key.
  rewrite Hc. apply (f_equal u32). f_equal.
  rewrite Heq at 2. symmetry. apply count_pairs_drop.
  apply Forall_forall. intros a Ha Hend.
  assert (Hin : a ∈ gRegions).
  { rewrite Heq. apply elem_of_app. by left. }
  eapply Forall_forall in Hbefore; [|exact Ha]. simpl in Hbefore.
  eapply Forall_forall in Hlen; [|exact Hin]. simpl in Hlen.
  eapply Forall_forall in Hregions; [|exact Hin].
  unfold region_ok in Hregions. unfold s in Hbefore.
  rewrite i32_range in Hbefore; lia.
Qed.

Lemma skip_total_cons se sk key :
  skip_total gRegions key (se :: sk)
  = count_pairs gRegions se.1 se.2 key + skip_total gRegions key sk.
Proof. reflexivity. Qed.

Lemma skip_total_app sk1 sk2 key :
  skip_total gRegions key (sk1 ++ sk2)
  = skip_total gRegions key sk1 + skip_total gRegions key sk2.
Proof. unfold skip_total. by rewrite fmap_app, zsum_app. Qed.

(** The walk over a CIGAR of known operations: every skip is looked up,
    and the walk ends without the error. *)
Lemma junction_cigar_count ops : forall gp sp ejct,
  Forall (fun o => known_op o.1 = true) ops ->
  skips_inside n (skips ops gp) -> counts_ok ejct ->
  exists ejct',
    junction_cigar gRegions (maxExonLength gRegions) bm ops gp sp ejct
    = Done (Some ejct')
    /\ counts_ok ejct'
    /\ forall key,
         jct_count ejct' key
         = u32 (jct_count ejct key + skip_total gRegions key (skips ops gp)).
Proof.
  induction ops as [|[op l] ops IH]; intros gp sp ejct Hknown Hin Hok.
  - exists ejct. split; [reflexivity|]. split; [assumption|]. intros key.
    symmetry. by apply jct_count_range.
  - apply Forall_cons in Hknown as [Hop Hknown]. simpl in Hop.
    destruct op; try discriminate; cbn [junction_cigar skips] in *;
      try (by apply IH).
    apply Forall_cons in Hin as [[Hs He] Hin]. simpl in Hs, He.
    destruct (skip_junctions_count gp (i32 (gp + l)) ejct Hs He Hok)
      as (ej1 & Hrun1 & Hok1 & Hc1).
    rewrite Hrun1. cbn [bind].
    destruct (IH (i32 (gp + l)) sp ej1 Hknown Hin Hok1)
      as (ej' & Hrun & Hok' & Hc).
    exists ej'. split; [exact Hrun|]. split; [exact Hok'|]. intros key.
    rewrite Hc, Hc1, u32_add_l, skip_total_cons. apply (f_equal u32).
    simpl. lia.
Qed.

Lemma all_skips_cons minQual r rs :
  all_skips minQual (r :: rs)
  = (if jct_passes minQual r then skips (cigar r) (pos r) else [])
    ++ all_skips minQual rs.
Proof.
  unfold all_skips. rewrite filter_cons.
  destruct (jct_passes minQual r).
  - by rewrite decide_True by reflexivity.
  - by rewrite decide_False by discriminate.
Qed.

(** The loop over the records: every skip of every record that is read
    is looked up. *)
Lemma count_records_count minQual rs : forall ejct,
  Forall (fun r => jct_passes minQual r = true ->
                   Forall (fun o => known_op o.1 = true) (cigar r)) rs ->
  skips_inside n (all_skips minQual rs) -> counts_ok ejct ->
  exists ejct',
    count_records minQual gRegions (maxExonLength gRegions) bm rs ejct
    = Done (Some ejct')
    /\ counts_ok ejct'
    /\ forall key,
         jct_count ejct' key
         = u32 (jct_count ejct key
                + skip_total gRegions key (all_skips minQual rs)).
Proof.
  induction rs as [|r rs IH]; intros ejct Hknown Hin Hok.
  - exists ejct. split; [reflexivity|]. split; [assumption|]. intros key.
    symmetry. by apply jct_count_range.
  - apply Forall_cons in Hknown as [Hr Hknown].
    rewrite all_skips_cons in Hin |- *. unfold skips_inside in Hin.
    apply Forall_app in Hin as [Hin1 Hin].
    cbn [count_records]. unfold jct_passes in *.
    destruct (jct_filtered r); cbn [negb andb] in *; [by apply IH|].
    destruct (qual r <? minQual); cbn [negb andb] in *; [by apply IH|].
    destruct (junction_cigar_count (cigar r) (pos r) 0 ejct (Hr eq_refl)
                Hin1 Hok) as (ej1 & Hrun1 & Hok1 & Hc1).
    rewrite Hrun1. cbn [bind].
    destruct (IH ej1 Hknown Hin Hok1) as (ej' & Hrun & Hok' & Hc).
    exists ej'. split; [exact Hrun|]. split; [exact Hok'|]. intros key.
    rewrite Hc, Hc1, u32_add_l. apply (f_equal u32).
    rewrite skip_total_app. lia.
Qed.
End SkipCounts.

Section UniqueIds.
Import Junction.

Lemma eid_inj (l : list IntervalLabelId) x y :
  NoDup (eid <$> l) -> x ∈ l -> y ∈ l -> eid x = eid y -> x = y.
Proof.
  induction l as [|z l IH]; intros Hnd Hx Hy Heq.
  - by apply elem_of_nil in Hx.
  - rewrite fmap_cons in Hnd. apply NoDup_cons in Hnd as [Hz Hnd].
    apply elem_of_cons in Hx as [->|Hx]; apply elem_of_cons in Hy as [->|Hy];
      auto.
    + exfalso. apply Hz. rewrite Heq. by apply list_elem_of_fmap_2.
    + exfalso. apply Hz. rewrite <- Heq. by apply list_elem_of_fmap_2.
Qed.

(** The pairs of a sorted vector: both members are regions of it, the
    first not after the second. *)
Lemma ordered_pairs_sorted l :
  sorted_by_start l ->
  Forall (fun p => p.1 ∈ l /\ p.2 ∈ l /\ start p.1 <= start p.2)
    (ordered_pairs l).
Proof.
  induction l as [|a rest IH]; intros Hs; [constructor|].
  destruct Hs as [Ha Hs]. cbn [ordered_pairs]. apply Forall_app. split.
  - apply Forall_fmap. apply Forall_forall. intros b Hb. simpl.
    split; [left|]. split; [by right|].
    eapply Forall_forall in Ha; eauto.
  - eapply Forall_impl; [exact (IH Hs)|]. intros p (H1 & H2 & H3).
    split; [by right|]. split; [by right|exact H3].
Qed.

(** No pair counts under a key whose ids stand in the wrong order along
    the chromosome. *)
Lemma count_pairs_reversed l gpStart gpEnd a b :
  NoDup (eid <$> l) -> sorted_by_start l -> a ∈ l -> b ∈ l ->
  start a < start b ->
  count_pairs l gpStart gpEnd (eid b, eid a) = 0.
Proof.
  intros Hnd Hs Ha Hb Hlt. unfold count_pairs. apply countb_none.
  eapply Forall_impl; [exact (ordered_pairs_sorted l Hs)|].
  intros [p1 p2] (H1 & H2 & H3). simpl in *. unfold joins.
  destruct (bool_decide_reflect ((eid p1, eid p2) = (eid b, eid a)))
    as [Heq|Hne]; [|by rewrite andb_false_r].
  injection Heq as E1 E2.
  apply (eid_inj l p1 b Hnd H1 Hb) in E1.
  apply (eid_inj l p2 a Hnd H2 Ha) in E2. subst. lia.
Qed.

Lemma count_pairs_no_id l gpStart gpEnd key :
  Forall (fun x => eid x <> key.1) l ->
  count_pairs l gpStart gpEnd key = 0.
Proof.
  induction 1 as [|x l Hx _ IH]; [reflexivity|].
  rewrite count_pairs_cons, IH, countb_none; [reflexivity|].
  apply Forall_forall. intros y _. unfold joins.
  destruct (bool_decide_reflect ((eid x, eid y) = key)) as [<-|Hne];
    [by destruct Hx|by rewrite andb_false_r].
Qed.

Lemma countb_single (l : list IntervalLabelId) b (c : bool) :
  NoDup (eid <$> l) -> b ∈ l ->
  countb (fun y => bool_decide (eid y = eid b) && c) l = if c then 1 else 0.
Proof.
  induction l as [|x l IH]; intros Hnd Hb.
  - by apply elem_of_nil in Hb.
  - rewrite fmap_cons in Hnd. apply NoDup_cons in Hnd as [Hx Hnd].
    cbn [countb]. apply elem_of_cons in Hb as [->|Hb].
    + rewrite bool_decide_eq_true_2 by reflexivity. cbn [andb].
      rewrite countb_none; [destruct c; reflexivity|].
      apply Forall_forall. intros y Hy.
      rewrite bool_decide_eq_false_2; [reflexivity|].
      intros Heq. apply Hx. rewrite <- Heq. by apply list_elem_of_fmap_2.
    + rewrite bool_decide_eq_false_2.
      * rewrite (IH Hnd Hb). reflexivity.
      * intros Heq. apply Hx. rewrite Heq. by apply list_elem_of_fmap_2.
Qed.

(** With exon ids that are not repeated, a skip counts once under the
    ids of the two regions it joins. *)
Lemma count_pairs_unique l gpStart gpEnd a b :
  NoDup (eid <$> l) -> sorted_by_start l -> a ∈ l -> b ∈ l ->
  start a < start b -> eid a < eid b ->
  count_pairs l gpStart gpEnd (eid a, eid b)
  = if (gpStart =? end_ a) && (gpEnd =? start b) then 1 else 0.
Proof.
  induction l as [|x l IH]; intros Hnd Hs Ha Hb Hlt Hid.
  - by apply elem_of_nil in Ha.
  - pose proof Hnd as Hnd0.
    rewrite fmap_cons in Hnd. apply NoDup_cons in Hnd as [Hx Hnd].
    destruct Hs as [Hxs Hs]. rewrite count_pairs_cons.
    assert (Hbl : b ∈ l).
    { apply elem_of_cons in Hb as [->|Hb]; [|exact Hb]. exfalso.
      apply elem_of_cons in Ha as [->|Ha]; [lia|].
      eapply Forall_forall in Hxs; [|exact Ha]. simpl in Hxs. lia. }
    apply elem_of_cons in Ha as [->|Hal].
    + rewrite count_pairs_no_id.
      2:{ apply Forall_forall. intros y Hy Heq. apply Hx. simpl in Heq.
          rewrite <- Heq. by apply list_elem_of_fmap_2. }
      rewrite Z.add_0_r.
      rewrite (countb_ext _
                 (fun y => bool_decide (eid y = eid b)
                           && ((gpStart =? end_ x) && (gpEnd =? start b)))).
      { by apply countb_single. }
      apply Forall_forall. intros y Hy. unfold joins.
      destruct (bool_decide_reflect (eid y = eid b)) as [Heq|Hne].
      * apply (eid_inj l y b Hnd Hy Hbl) in Heq. subst y.
        rewrite bool_decide_eq_true_2 by reflexivity.
        rewrite (proj2 (Z.ltb_lt _ _) Hid).
        rewrite (Z.eqb_sym (end_ x)), (Z.eqb_sym (start b)).
        by rewrite !andb_true_r.
      * rewrite bool_decide_eq_false_2 by congruence.
        by rewrite andb_false_r.
    + rewrite countb_none; [by apply IH|].
      apply Forall_forall. intros y Hy. unfold joins.
      rewrite bool_decide_eq_false_2; [by rewrite andb_false_r|].
      intros Heq. injection Heq as Heq _. apply Hx. rewrite Heq.
      by apply list_elem_of_fmap_2.
Qed.

Lemma skip_total_unique l sk a b :
  NoDup (eid <$> l) -> sorted_by_start l -> a ∈ l -> b ∈ l ->
  start a < start b -> eid a < eid b ->
  skip_total l (eid a, eid b) sk = skips_between a b sk.
Proof.
  intros Hnd Hs Ha Hb Hlt Hid. unfold skip_total, skips_between.
  induction sk as [|se sk IH]; [reflexivity|].
  rewrite fmap_cons, zsum_cons, IH. cbn [countb].
  by rewrite (count_pairs_unique l se.1 se.2 a b).
Qed.

Lemma skip_total_reversed l sk a b :
  NoDup (eid <$> l) -> sorted_by_start l -> a ∈ l -> b ∈ l ->
  start a < start b ->
  skip_total l (eid b, eid a) sk = 0.
Proof.
  intros Hnd Hs Ha Hb Hlt. unfold skip_total.
  induction sk as [|se sk IH]; [reflexivity|].
  rewrite fmap_cons, zsum_cons, IH.
  by rewrite (count_pairs_reversed l se.1 se.2 a b).
Qed.
End UniqueIds.

Section Errors.
Import Bam Junction.
Context `{IntervalOrder}.

(** A walk that reads no bit out of range reports the error exactly when
    the CIGAR holds an operation it does not know. *)
Lemma junction_cigar_error gRegions maxLen bm ops : forall gp sp ejct,
  junction_cigar gRegions maxLen bm ops gp sp ejct <> Fault ->
  junction_cigar gRegions maxLen bm ops gp sp ejct <> Timeout
  /\ (junction_cigar gRegions maxLen bm ops gp sp ejct = Done None
      <-> Exists (fun o => known_op o.1 = false) ops).
Proof.
  induction ops as [|[op l] ops IH]; intros gp sp ejct Hnf.
  - split; [discriminate|]. split; [discriminate|].
    intros Hex. by apply Exists_nil in Hex.
  - assert (Hstep : forall gp' sp' ejct',
      junction_cigar gRegions maxLen bm ops gp' sp' ejct' <> Fault ->
      known_op op = true ->
      junction_cigar gRegions maxLen bm ops gp' sp' ejct' <> Timeout
      /\ (junction_cigar gRegions maxLen bm ops gp' sp' ejct' = Done None
          <-> Exists (fun o => known_op o.1 = false) ((op, l) :: ops))).
    { intros gp' sp' ejct' Hnf' Hk. destruct (IH gp' sp' ejct' Hnf')
        as [Hnt Hiff].
      split; [exact Hnt|]. rewrite Hiff, Exists_cons. simpl.
      rewrite Hk. split; [by right|]. by intros [?|?]. }
    destruct op; cbn [junction_cigar] in Hnf |- *;
      try (by apply Hstep);
      try (split; [discriminate|]; split; [intros _|reflexivity];
           by apply Exists_cons_hd).
    unfold skip_junctions in *.
    destruct (vec_get bm gp) as [[|]|]; cbn [bind] in *;
      try (by apply Hstep); try congruence.
    destruct (vec_get bm (i32 (gp + l))) as [[|]|]; cbn [bind] in *;
      try (by apply Hstep); congruence.
Qed.

Lemma count_records_error minQual gRegions maxLen bm rs : forall ejct,
  count_records minQual gRegions maxLen bm rs ejct <> Fault ->
  count_records minQual gRegions maxLen bm rs ejct <> Timeout
  /\ (count_records minQual gRegions maxLen bm rs ejct = Done None
      <-> Exists (fun r => jct_passes minQual r = true
                           /\ Exists (fun o => known_op o.1 = false) (cigar r))
            rs).
Proof.
  induction rs as [|r rs IH]; intros ejct Hnf.
  - split; [discriminate|]. split; [discriminate|].
    intros Hex. by apply Exists_nil in Hex.
  - cbn [count_records] in Hnf |- *. rewrite Exists_cons.
    unfold jct_passes at 1.
    destruct (jct_filtered r); cbn [negb andb].
    { destruct (IH ejct Hnf) as [Hnt Hiff]. split; [exact Hnt|].
      rewrite Hiff. split; [by right|]. by intros [[? _]|?]. }
    destruct (qual r <? minQual); cbn [negb andb].
    { destruct (IH ejct Hnf) as [Hnt Hiff]. split; [exact Hnt|].
      rewrite Hiff. split; [by right|]. by intros [[? _]|?]. }
    destruct (junction_cigar gRegions maxLen bm (cigar r) (pos r) 0 ejct)
      as [[ej1|]| |] eqn:Hwalk; cbn [bind] in Hnf |- *; try congruence.
    + assert (Hnone : ~ Exists (fun o => known_op o.1 = false) (cigar r)).
      { intros Hex.
        apply (junction_cigar_error gRegions maxLen bm (cigar r) (pos r) 0
                 ejct) in Hex; congruence. }
      destruct (IH ej1 Hnf) as [Hnt Hiff]. split; [exact Hnt|].
      rewrite Hiff. split; [by right|]. by intros [[_ ?]|?].
    + split; [discriminate|]. split; [|reflexivity]. intros _. left.
      split; [reflexivity|].
      apply (junction_cigar_error gRegions maxLen bm (cigar r) (pos r) 0
               ejct); congruence.
    + exfalso.
      apply (junction_cigar_error gRegions maxLen bm (cigar r) (pos r) 0
               ejct); congruence.
Qed.
End Errors.

Section Report.
Import Junction.

Lemma report_partners_spec itR rest ejct row :
  row ∈ report_partners itR rest ejct
  <-> exists b, b ∈ rest /\ lid itR = lid b /\ end_ itR < start b
        /\ row = (itR, b,
                  jct_count ejct (if eid b <? eid itR then (eid b, eid itR)
                                  else (eid itR, eid b))).
Proof.
  induction rest as [|b rest IH].
  - simpl. split; [intros Hin; by apply elem_of_nil in Hin|].
    intros (b & Hb & _). by apply elem_of_nil in Hb.
  - cbn [report_partners].
    destruct (Z.eqb_spec (lid itR) (lid b)) as [Hl|Hl];
      [destruct (Z.ltb_spec (end_ itR) (start b)) as [Hg|Hg]|];
      cbn [andb]; rewrite ?elem_of_cons, IH; split.
    + intros [->|(y & Hy & ?)]; [exists b|exists y]; rewrite elem_of_cons; auto.
    + intros (y & Hy & Hly & Hgy & ->). apply elem_of_cons in Hy as [->|Hy];
        [by left|right; by exists y].
    + intros (y & Hy & ?). exists y. rewrite elem_of_cons; auto.
    + intros (y & Hy & Hly & Hgy & ->). apply elem_of_cons in Hy as [->|Hy];
        [lia|by exists y].
    + intros (y & Hy & ?). exists y. rewrite elem_of_cons; auto.
    + intros (y & Hy & Hly & Hgy & ->). apply elem_of_cons in Hy as [->|Hy];
        [congruence|by exists y].
Qed.

(** The rows of the count table: a row for two regions of one gene, the
    first before the second in the vector and ending before it starts. *)
Lemma report_rows_spec gRegions ejct row :
  row ∈ report_rows gRegions ejct
  <-> exists a b, (a, b) ∈ ordered_pairs gRegions
        /\ lid a = lid b /\ end_ a < start b
        /\ row = (a, b,
                  jct_count ejct (if eid b <? eid a then (eid b, eid a)
                                  else (eid a, eid b))).
Proof.
  induction gRegions as [|a rest IH].
  - simpl. split; [intros Hin; by apply elem_of_nil in Hin|].
    intros (a & b & Hab & _). by apply elem_of_nil in Hab.
  - cbn [report_rows ordered_pairs]. rewrite elem_of_app, IH.
    rewrite report_partners_spec. split.
    + intros [(b & Hb & Hrest)|(x & y & Hxy & Hrest)].
      * exists a, b. split; [|exact Hrest]. apply elem_of_app. left.
        by apply list_elem_of_fmap_2'  with b.
      * exists x, y. split; [|exact Hrest]. apply elem_of_app. by right.
    + intros (x & y & Hxy & Hrest). apply elem_of_app in Hxy as [Hxy|Hxy].
      * apply list_elem_of_fmap in Hxy as (b & Heq & Hb).
        injection Heq as -> ->. left. by exists b.
      * right. by exists x, y.
Qed.
End Report.

Section Examples.
Import Junction.

Lemma start_order_by_start : @by_start start_order.
Proof. split; reflexivity. Qed.

Lemma three_exons_ok :
  sorted_by_start three_exons /\ Forall (region_ok 100) three_exons
  /\ NoDup (eid <$> three_exons).
Proof.
  split; [|split].
  - simpl. repeat split; repeat constructor; simpl; lia.
  - repeat (apply Forall_cons_2; [unfold region_ok; simpl; lia|]).
    apply Forall_nil_2.
  - apply (bool_decide_unpack _). vm_compute. exact I.
Qed.
End Examples.

(** ** One chromosome of [create_tracks] *)

Section TrackFacts.
Import Bam Resolver Coverage.
Context `{PairHash}.

(** The vector of the second pass, base by base. *)
Lemma coverage_pass_depth minQual target_len rs :
  0 <= target_len < 2 ^ 32 ->
  Forall (record_inside target_len) rs ->
  let vp := validPairs minQual rs in
  let counted := filter (fun r => counts minQual vp r = true) rs in
  coverage_pass minQual vp init (empty_cov target_len) rs
  = Done ((fun i => Z.min (depth i counted) maxCoverage)
            <$> seqZ 0 target_len).
Proof.
  intros Hlen Hin vp counted.
  assert (Hl0 : Z.of_nat (length (empty_cov target_len)) = target_len).
  { unfold empty_cov. rewrite length_replicate. lia. }
  assert (Hw0 : Forall (within maxCoverage) (empty_cov target_len)).
  { apply Forall_replicate. unfold within, maxCoverage. lia. }
  assert (Hcounted : Forall (record_inside
                       (Z.of_nat (length (empty_cov target_len)))) counted).
  { rewrite Hl0. apply Forall_forall. intros r Hr.
    apply list_elem_of_filter in Hr as [_ Hr].
    eapply Forall_forall in Hin; eauto. }
  destruct (add_records_pointwise counted (empty_cov target_len) Hcounted
              Hw0 ltac:(lia)) as (cov' & Hrun & Hl & Hp).
  rewrite coverage_pass_filter by reflexivity. fold counted. rewrite Hrun.
  f_equal. apply list_eq. intros i. rewrite list_lookup_fmap.
  destruct (decide (Z.of_nat i < target_len)) as [Hi|Hi].
  - rewrite lookup_seqZ_lt by lia. simpl. rewrite (Hp i 0).
    + by rewrite Z.add_0_l, Z.add_0_l.
    + unfold empty_cov. apply lookup_replicate_2. lia.
  - rewrite lookup_seqZ_ge by lia. simpl. apply lookup_ge_None. lia.
Qed.
End TrackFacts.

Section TotalFacts.
Import Bam Coverage.

(** Below the cap the total of the vector grows by the matched bases of
    every record. *)
Lemma add_records_sum rs : forall cov cov',
  Forall (record_inside (Z.of_nat (length cov))) rs ->
  Forall (within maxCoverage) cov -> Z.of_nat (length cov) < 2 ^ 32 ->
  (forall (i : nat) c, cov !! i = Some c ->
     c + depth (Z.of_nat i) rs < maxCoverage) ->
  add_records cov rs = Done cov' ->
  zsum cov' = zsum cov + zsum ((fun r => matched_bases (cigar r)) <$> rs).
Proof.
  induction rs as [|r rs IH]; intros cov cov' Hin Hcov Hlen Hlow Hrun.
  - injection Hrun as <-. simpl. lia.
  - apply Forall_cons in Hin as [(Hpos & Hok & Hspan) Hrest].
    pose proof (ref_span_nonneg (cigar r) Hok) as Hnn.
    cbn [add_records] in Hrun. unfold add_record in Hrun.
    rewrite u32_small in Hrun by lia.
    destruct (parse_cigar (cigar r) cov (pos r)) as [cov1| |] eqn:Hrun1;
      try discriminate. cbn [bind] in Hrun.
    destruct (parse_cigar_pointwise (cigar r) cov (pos r) cov1 Hpos Hok
                ltac:(lia) Hcov Hlen Hrun1) as (Hl1 & Hw1 & _ & Hp1).
    assert (Hsum1 : zsum cov1 = zsum cov + matched_bases (cigar r)).
    { apply (parse_cigar_sum (cigar r) cov (pos r) cov1 Hpos Hok
               ltac:(lia) Hcov Hlen); [|exact Hrun1].
      intros i c _ Hi. specialize (Hlow i c Hi).
      pose proof (depth_nonneg (Z.of_nat i) (r :: rs)). lia. }
    rewrite <- Hl1 in Hrest, Hlen.
    assert (Hlow1 : forall (i : nat) c1, cov1 !! i = Some c1 ->
              c1 + depth (Z.of_nat i) rs < maxCoverage).
    { intros i c1 Hi1.
      destruct (lookup_lt_is_Some_2 cov i) as [c Hi].
      { rewrite <- Hl1. eapply lookup_lt_Some; eauto. }
      rewrite (Hp1 i c Hi) in Hi1. injection Hi1 as <-.
      specialize (Hlow i c Hi). rewrite depth_cons in Hlow.
      pose proof (depth_nonneg (Z.of_nat i) rs).
      unfold bump_base.
      destruct (matched_at (cigar r) (pos r) (Z.of_nat i)),
        (Z.ltb_spec c maxCoverage); cbn [andb]; lia. }
    rewrite (IH cov1 cov' Hrest Hw1 Hlen Hlow1 Hrun).
    rewrite fmap_cons, zsum_cons. lia.
Qed.
End TotalFacts.


(** * The claims *)

Section ResolverClaims.
Import Bam Resolver.

(** C1. In a stream whose kept records (those the filter of the spec does
    not drop) are sorted by position, form pairs and have hashes that do
    not collide, whatever the dropped records between them are, the record
    at index [k] gives a ValidFragment exactly when an earlier record is
    its mate, both are kept, and the smaller of their two qualities
    reaches the threshold; the fragment then carries that minimum as its
    pair quality. Two mates at 100/100 of one name, with qualities 30 and
    25, give one fragment of pair quality 25 at threshold 20 and none at
    threshold 26. *)
Theorem resolver_emits_qualifying_pairs `{PairHash}
    (minQual : Z) (rs : list bam1_t) :
  paired_stream (qualifying minQual rs) ->
  collision_free (qualifying minQual rs) ->
  (forall (k : nat) r f, rs !! k = Some r ->
     resolve_trace minQual init rs !! k = Some (Some f)
     <-> exists (i : nat) r1,
           (i < k)%nat /\ rs !! i = Some r1 /\ mate_of r1 r
           /\ qualifies minQual r1 = true /\ qualifies minQual r = true
           /\ minQual <= Z.min (qual r1) (qual r)
           /\ f = {| hv := hash_pair_mate r;
                     pairQuality := Z.min (qual r1) (qual r); rec := r |})
  /\ (forall name c1 c2,
        let m1 := mate name 100 100 30 c1 in
        let m2 := mate name 100 100 25 c2 in
        hash_pair m1 = hash_pair_mate m2 ->
        fragments 20 [m1; m2]
        = [ {| hv := hash_pair_mate m2; pairQuality := 25; rec := m2 |} ]
        /\ fragments 26 [m1; m2] = []).
Proof.
  intros Hps Hcf. split; [|intros name c1 c2; apply scenario_pair].
  intros k r f Hk. rewrite (resolve_trace_lookup minQual rs init k r Hk).
  destruct (qualifies minQual r) eqn:Hq.
  2:{ rewrite (resolve_dropped minQual _ r Hq). cbn [snd].
      split; [discriminate|]. intros (i & r1 & _ & _ & _ & _ & Hno & _).
      discriminate. }
  set (k' := length (qualifying minQual (take k rs))).
  pose proof (qualifying_lookup minQual rs k r Hk Hq) as Hk'. fold k' in Hk'.
  rewrite (resolve_state_qualifying minQual (take k rs) init).
  rewrite qualifying_take. fold k'.
  rewrite <- (resolve_trace_lookup minQual (qualifying minQual rs) init k' r
                Hk').
  rewrite (trace_emits_iff minQual (qualifying minQual rs) Hps Hcf k' r f Hk').
  split.
  - intros (i' & r1 & Hi' & Hr1 & Hm & Hp1 & Hp & Hmin & Hf).
    destruct (proj2 (qualifying_earlier minQual rs k r1))
      as (i & Hi & Hri & Hq1); [by exists i'|].
    exists i, r1. split; [exact Hi|]. split; [exact Hri|].
    split; [exact Hm|]. split; [exact Hq1|]. split; [reflexivity|].
    split; [exact Hmin|exact Hf].
  - intros (i & r1 & Hi & Hri & Hm & Hq1 & _ & Hmin & Hf).
    destruct (proj1 (qualifying_earlier minQual rs k r1))
      as (i' & Hi' & Hr1); [by exists i|].
    exists i', r1. rewrite !passes_qualifies.
    split; [exact Hi'|]. split; [exact Hr1|]. split; [exact Hm|].
    split; [exact Hq1|]. split; [exact Hq|]. split; [exact Hmin|exact Hf].
Qed.

Lemma resolver_emits_qualifying_pairs_witness :
  @resolve_trace ideal_hash 10 init pairs_with_more !! 5%nat
  = Some (Some {| hv := @hash_pair_mate ideal_hash
                          (mate "a" 200 100 25 [(BAM_CMATCH, 50)]);
                  pairQuality := 25;
                  rec := mate "a" 200 100 25 [(BAM_CMATCH, 50)] |}).
Proof.
  apply (proj1 (@resolver_emits_qualifying_pairs ideal_hash 10 pairs_with_more
                  two_pairs_paired (ideal_hash_collision_free two_pairs))
               5%nat (mate "a" 200 100 25 [(BAM_CMATCH, 50)]) _ eq_refl).
  exists 0%nat, (mate "a" 100 200 30 [(BAM_CMATCH, 50)]).
  unfold mate_of. simpl. repeat split; lia.
Defined.

(** C5. At threshold 0 a further record that matches the key of a
    resolved pair is not ignored: three records of one name at 100/100 give
    two ValidFragments under one key, the second with the zero mark as its
    pair quality, where threshold 1 gives the one of the pair. *)
Theorem threshold_zero_resolves_twice `{PairHash} (name : string)
    (c : list (cigar_op * Z)) :
  let m1 := mate name 100 100 30 c in
  let m2 := mate name 100 100 25 c in
  let m3 := mate name 100 100 20 c in
  hash_pair m1 = hash_pair_mate m2 ->
  hash_pair_mate m3 = hash_pair_mate m2 ->
  fragments 0 [m1; m2; m3]
  = [ {| hv := hash_pair_mate m2; pairQuality := 25; rec := m2 |};
      {| hv := hash_pair_mate m2; pairQuality := 0; rec := m3 |} ]
  /\ fragments 1 [m1; m2; m3]
     = [ {| hv := hash_pair_mate m2; pairQuality := 25; rec := m2 |} ].
Proof.
  intros m1 m2 m3 Hkey Hsame.
  set (st1 := {| lastAlignedPos := 100;
                 lastAlignedPosReads := {[ hash_string name ]} ∪ ∅;
                 qualities := <[ hash_pair m1 := 30 ]> ∅ |}).
  set (st2 := {| lastAlignedPos := 100;
                 lastAlignedPosReads := {[ hash_string name ]} ∪ ∅;
                 qualities := <[ hash_pair_mate m2 := 0 ]>
                                (<[ hash_pair m1 := 30 ]> ∅) |}).
  assert (Hsecond : forall m, qname m = name -> pos m = 100 -> mpos m = 100 ->
            forall st, lastAlignedPos st = 100 ->
            lastAlignedPosReads st = {[ hash_string name ]} ∪ ∅ ->
            is_first (cleanup st m) m = false).
  { intros m Hn Hp Hmp st Hl Hr. unfold cleanup, is_first.
    rewrite Hl, Hp, Hmp, Hn. cbn. rewrite Hr.
    apply bool_decide_eq_false_2. intros Hnot. apply Hnot.
    apply elem_of_union_l, elem_of_singleton. reflexivity. }
  assert (H1 : forall q, q = 0 \/ q = 1 -> resolve q init m1 = (st1, None)).
  { intros q Hq. rewrite resolve_first; [reflexivity| |reflexivity].
    destruct Hq as [-> | ->]; reflexivity. }
  assert (H2 : forall q, q = 0 \/ q = 1 ->
            resolve q st1 m2
            = (st2, Some {| hv := hash_pair_mate m2; pairQuality := 25;
                            rec := m2 |})).
  { intros q Hq. rewrite (resolve_second q st1 m2 30).
    - destruct Hq as [-> | ->]; reflexivity.
    - destruct Hq as [-> | ->]; reflexivity.
    - by apply Hsecond.
    - cbn. rewrite Hkey. apply lookup_insert_eq. }
  assert (H3 : forall q, q = 0 \/ q = 1 ->
            snd (resolve q st2 m3)
            = if 0 <? q then None
              else Some {| hv := hash_pair_mate m2; pairQuality := 0;
                           rec := m3 |}).
  { intros q Hq. rewrite (resolve_second q st2 m3 0).
    - rewrite Hsame. destruct Hq as [-> | ->]; reflexivity.
    - destruct Hq as [-> | ->]; reflexivity.
    - by apply Hsecond.
    - cbn. rewrite Hsame. apply lookup_insert_eq. }
  unfold fragments. cbn [resolve_trace].
  rewrite !H1, !H2, !H3 by auto. split; reflexivity.
Qed.

Lemma threshold_zero_resolves_twice_witness :
  let m2 := mate "q" 100 100 25 [(BAM_CMATCH, 50)] in
  let m3 := mate "q" 100 100 20 [(BAM_CMATCH, 50)] in
  @fragments ideal_hash 0 [ mate "q" 100 100 30 [(BAM_CMATCH, 50)]; m2; m3 ]
  = [ {| hv := @hash_pair_mate ideal_hash m2; pairQuality := 25; rec := m2 |};
      {| hv := @hash_pair_mate ideal_hash m2; pairQuality := 0; rec := m3 |} ].
Proof.
  exact (proj1 (@threshold_zero_resolves_twice ideal_hash "q"
                  [(BAM_CMATCH, 50)] eq_refl eq_refl)).
Defined.
End ResolverClaims.

Section CoverageClaims.
Import Bam Coverage.

(** C6. A coverage counter saturates and never wraps: a record only
    makes counters grow, and leaves them within the bound of its loop,
    which is [max - 1] for the mid-point count of count_dna.h and [max]
    itself for the per-base count of tracks.h. *)
Theorem counters_saturate `{PairHash} :
  (forall cov r cov',
     Forall (within maxCoverage) cov -> add_record cov r = Done cov' ->
     Forall2 (grown_within maxCoverage) cov cov')
  /\ (forall target_len cov r cov',
        Forall (within (maxCoverage - 1)) cov ->
        count_midpoint target_len cov r = Done cov' ->
        Forall2 (grown_within (maxCoverage - 1)) cov cov')
  /\ (forall minQual vp st rs cov cov',
        Forall (within maxCoverage) cov ->
        coverage_pass minQual vp st cov rs = Done cov' ->
        Forall (within maxCoverage) cov')
  /\ (forall minQual target_len st rs cov cov',
        Forall (within (maxCoverage - 1)) cov ->
        count_reads minQual target_len st cov rs = Done cov' ->
        Forall (within (maxCoverage - 1)) cov').
Proof.
  split; [|split; [|split]].
  - apply add_record_grows.
  - apply count_midpoint_grows.
  - apply coverage_pass_within.
  - intros minQual target_len st rs cov cov'. apply count_reads_within.
Qed.

Lemma counters_saturate_witness :
  Forall2 (grown_within maxCoverage) [0; 65535; 7] [1; 65535; 8].
Proof.
  apply (proj1 (@counters_saturate ideal_hash) [0; 65535; 7]
           (mate "q" 0 60 30 [(BAM_CMATCH, 3)]) [1; 65535; 8]).
  - repeat constructor; unfold maxCoverage; lia.
  - reflexivity.
Defined.

(** C6, as stated, fails on the per-base count: 65535 records that cover
    base 0 bring its counter to 65535, one more than [max - 1]. *)
Lemma per_base_counter_reaches_max :
  add_records [0]
    (replicate (Z.to_nat 65535) (mate "q" 0 60 30 [(BAM_CMATCH, 1)]))
  = Done [65535]
  /\ ~ within (maxCoverage - 1) 65535.
Proof.
  split; [vm_compute; reflexivity|]. unfold within, maxCoverage. lia.
Qed.

(** C7. The per-base count writes without a test on the position: a
    record whose matched bases run past the end of the chromosome reads
    and writes [cov] out of range. On a chromosome of 10 bases, the
    second mate at position 8 with CIGAR 5M reaches index 10. *)
Theorem per_base_write_out_of_range :
  add_record (empty_cov 10) (mate "q" 8 2 30 [(BAM_CMATCH, 5)]) = Fault
  /\ @coverage ideal_hash 10 10
       [ mate "q" 2 8 30 [(BAM_CMATCH, 5)];
         mate "q" 8 2 30 [(BAM_CMATCH, 5)] ] = Fault
  /\ @coverage ideal_hash 10 10
       [ mate "q" 2 8 30 [(BAM_CMATCH, 5)];
         mate "q" 8 2 30 [(BAM_CMATCH, 2)] ]
     = Done [0; 0; 1; 1; 1; 1; 1; 0; 1; 1].
Proof. vm_compute. auto. Qed.
End CoverageClaims.

Section CompressorClaims.
Import Compressor.

(** C2. With the resolution switched off (at most 0, or at least 1) and
    no normalisation, the track of a non-empty coverage vector is its
    maximal run-length encoding, returned as it is, and writing the score
    of each segment back over its bases gives the vector again. *)
Theorem disabled_resolution_is_lossless
    (fuel : nat) (resolution : float) (totalPairs : Z) (cov : list Z) :
  cov <> [] -> Forall is_uint16 cov -> Z.of_nat (length cov) < 2 ^ 32 ->
  (resolution <=? 0)%float = true \/ (1 <=? resolution)%float = true ->
  exists runs,
    max_rle cov runs
    /\ coverage_track (norm_factor 0 totalPairs) cov
       = Done (to_track 1 <$> runs)
    /\ compress fuel resolution (norm_factor 0 totalPairs) cov
       = Done (to_track 1 <$> runs)
    /\ expand (length cov) (to_track 1 <$> runs)
       = (fun c => Some (Z2f c)) <$> cov.
Proof.
  intros Hne Hcov Hlen Hres. change (norm_factor 0 totalPairs) with 1%float.
  destruct (coverage_track_spec 1 cov Hne Hcov Hlen) as (runs & Htrack & Hmax).
  exists runs. split; [assumption|]. split; [assumption|]. split.
  - unfold compress. rewrite Htrack. simpl. unfold reduce.
    by rewrite (resolution_disabled resolution Hres).
  - rewrite (expand_runs 1 cov runs (proj1 Hmax)).
    apply Forall_fmap_ext_1. eapply Forall_impl; [exact Hcov|].
    intros c Hc. simpl. by rewrite unit_norm.
Qed.

Lemma disabled_resolution_is_lossless_witness :
  exists runs,
    max_rle [0; 0; 3; 3; 3; 0] runs
    /\ coverage_track (norm_factor 0 0) [0; 0; 3; 3; 3; 0]
       = Done (to_track 1 <$> runs)
    /\ compress 0 0 (norm_factor 0 0) [0; 0; 3; 3; 3; 0]
       = Done (to_track 1 <$> runs)
    /\ expand 6 (to_track 1 <$> runs)
       = (fun c => Some (Z2f c)) <$> [0; 0; 3; 3; 3; 0].
Proof.
  apply (disabled_resolution_is_lossless 0 0%float 0 [0; 0; 3; 3; 3; 0]).
  - discriminate.
  - repeat constructor; unfold is_uint16; lia.
  - simpl; lia.
  - left. reflexivity.
Defined.

(** C3. The first pass over a non-empty coverage vector gives its
    maximal run-length encoding, each run of equal values one segment,
    and no other list of runs is one; [0,0,3,3,3,0] with the resolution
    switched off gives [(0,2,0), (2,5,3), (5,6,0)]. *)
Theorem coverage_track_is_max_rle :
  (forall (normFactor : float) (cov : list Z),
     cov <> [] -> Forall is_uint16 cov -> Z.of_nat (length cov) < 2 ^ 32 ->
     exists runs,
       coverage_track normFactor cov = Done (to_track normFactor <$> runs)
       /\ max_rle cov runs
       /\ forall runs', max_rle cov runs' -> runs' = runs)
  /\ (forall (fuel : nat) (resolution : float),
        resolution_enabled resolution = false ->
        compress fuel resolution 1 [0; 0; 3; 3; 3; 0]
        = Done [ {| start := 0; end_ := 2; score := 0 |};
                 {| start := 2; end_ := 5; score := 3 |};
                 {| start := 5; end_ := 6; score := 0 |} ]).
Proof.
  split.
  - intros normFactor cov Hne Hcov Hlen.
    destruct (coverage_track_spec normFactor cov Hne Hcov Hlen)
      as (runs & Htrack & Hmax).
    exists runs. split; [assumption|]. split; [assumption|].
    intros runs' Hmax'. by apply (max_rle_unique cov).
  - intros fuel resolution Hoff. unfold compress.
    assert (E : coverage_track 1 [0; 0; 3; 3; 3; 0]
                = Done [ {| start := 0; end_ := 2; score := 0 |};
                         {| start := 2; end_ := 5; score := 3 |};
                         {| start := 5; end_ := 6; score := 0 |} ])
      by (vm_compute; reflexivity).
    rewrite E. simpl. unfold reduce. by rewrite Hoff.
Qed.

Lemma coverage_track_is_max_rle_witness :
  exists runs,
    coverage_track 2 [4; 4; 9] = Done (to_track 2 <$> runs)
    /\ max_rle [4; 4; 9] runs
    /\ forall runs', max_rle [4; 4; 9] runs' -> runs' = runs.
Proof.
  apply (proj1 coverage_track_is_max_rle 2%float [4; 4; 9]).
  - discriminate.
  - repeat constructor; unfold is_uint16; lia.
  - simpl; lia.
Defined.

(** C8. The segment list of a non-empty coverage vector is ordered by
    start, contiguous, starts at 0 and ends at the length of the vector:
    after the run-length encoding, after any merging pass over a list that
    is so, and in whatever the reduction or the whole compression
    returns. *)
Theorem track_covers_chromosome (normFactor : float) (cov : list Z) :
  cov <> [] -> Forall is_uint16 cov -> Z.of_nat (length cov) < 2 ^ 32 ->
  exists tl0,
    coverage_track normFactor cov = Done tl0
    /\ covers (Z.of_nat (length cov)) tl0
    /\ (forall thres tl,
          covers (Z.of_nat (length cov)) tl ->
          covers (Z.of_nat (length cov)) (merge_pass thres tl))
    /\ (forall fuel resolution tl,
          reduce fuel resolution tl0 = Done tl ->
          covers (Z.of_nat (length cov)) tl)
    /\ (forall fuel resolution tl,
          compress fuel resolution normFactor cov = Done tl ->
          covers (Z.of_nat (length cov)) tl).
Proof.
  intros Hne Hcov Hlen.
  destruct (coverage_track_spec normFactor cov Hne Hcov Hlen)
    as (runs & Htrack & Hrle & _).
  assert (Hc : covers (Z.of_nat (length cov)) (to_track normFactor <$> runs)).
  { apply seg_chain_covers.
    apply (runs_chain normFactor runs 0 cov); [|assumption].
    intros ->. simpl in Hrle. congruence. }
  exists (to_track normFactor <$> runs).
  split; [assumption|]. split; [assumption|]. split; [|split].
  - intros thres tl. apply merge_pass_covers.
  - intros fuel resolution tl. by apply reduce_covers.
  - intros fuel resolution tl. unfold compress. rewrite Htrack. simpl.
    by apply reduce_covers.
Qed.

Lemma track_covers_chromosome_witness :
  exists tl0,
    coverage_track 1 [0; 0; 3; 3; 3; 0] = Done tl0
    /\ covers 6 tl0
    /\ (forall thres tl, covers 6 tl -> covers 6 (merge_pass thres tl))
    /\ (forall fuel resolution tl,
          reduce fuel resolution tl0 = Done tl -> covers 6 tl)
    /\ (forall fuel resolution tl,
          compress fuel resolution 1 [0; 0; 3; 3; 3; 0] = Done tl ->
          covers 6 tl).
Proof.
  apply (track_covers_chromosome 1%float [0; 0; 3; 3; 3; 0]).
  - discriminate.
  - repeat constructor; unfold is_uint16; lia.
  - simpl; lia.
Defined.

(** C4. A pass of the reduction need not find its threshold among the
    errors: at resolution [2^-67] (a value of the [float] option), the
    first ratio minus the resolution rounds to 1, the rank is the number
    of segments minus one, and [errs[bpidx]] lies one past the last
    error. For two segments the rank is 1 and there is one error. *)
Theorem reduce_tiny_resolution_faults :
  resolution_enabled 0x1p-67%float = true
  /\ coverage_track 1 [0; 1]
     = Done [ {| start := 0; end_ := 1; score := 0 |};
              {| start := 1; end_ := 2; score := 1 |} ]
  /\ break_index 0x1p-67%float 1%float 2 = Some 1
  /\ length (sort_errs (pair_errs
               [ {| start := 0; end_ := 1; score := 0 |};
                 {| start := 1; end_ := 2; score := 1 |} ])) = 1%nat
  /\ forall fuel : nat, compress (S fuel) 0x1p-67%float 1 [0; 1] = Fault.
Proof.
  split; [vm_compute; reflexivity|]. split; [vm_compute; reflexivity|].
  split; [vm_compute; reflexivity|]. split; [vm_compute; reflexivity|].
  intros fuel. vm_compute. reflexivity.
Qed.
End CompressorClaims.

Section IntervalClaims.
Import Intervals.



(** C10. For a chromosome of [target_len] bases, [0 < target_len < 2^31],
    and a window size and offset that are positive and at most [2^31]
    (as they are whenever a number of windows is given), the artificial
    windows come in strictly increasing order of start, each with
    [0 <= start < end <= target_len] and [end = min (start + size,
    target_len)]; when the offset is the size they partition
    [0, target_len). *)
Theorem windows_partition (c : CountDNAConfig) (chr : string)
    (target_len : Z) (fuel : nat) :
  0 < target_len < 2 ^ 31 ->
  0 <= window_num c < 2 ^ 32 ->
  (window_num c = 0 ->
     0 < window_size c <= 2 ^ 31 /\ 0 < window_offset c <= 2 ^ 31) ->
  target_len <= Z.of_nat fuel ->
  exists l wSize wOffset,
    window_params c target_len = (wSize, wOffset)
    /\ createIntervals fuel c chr target_len = Done l
    /\ increasing_starts l
    /\ Forall (window_ok target_len wSize) l
    /\ (wOffset = wSize -> partitions 0 l target_len)
    /\ (0 < window_num c ->
          wSize = target_len / window_num c + 1 /\ wOffset = wSize).
Proof.
  intros Hlen Hnum Hcfg Hfuel.
  assert (Hparams : exists wSize wOffset,
             window_params c target_len = (wSize, wOffset)
             /\ 0 < wSize <= 2 ^ 31 /\ 0 < wOffset <= 2 ^ 31
             /\ (0 < window_num c ->
                   wSize = target_len / window_num c + 1 /\ wOffset = wSize)).
  { unfold window_params.
    destruct (Z.ltb_spec 0 (window_num c)) as [Hpos|Hzero].
    - assert (0 <= target_len / window_num c <= target_len).
      { split; [apply Z.div_pos; lia|].
        apply Z.div_le_upper_bound; [lia|]. nia. }
      rewrite u32_small by lia. eexists _, _.
      split; [reflexivity|]. repeat split; lia.
    - eexists _, _. split; [reflexivity|]. split; [|split]; [| |lia].
      + apply Hcfg; lia.
      + apply Hcfg; lia. }
  destruct Hparams as (wSize & wOffset & Hp & Hsize & Hoff & Hn).
  destruct (window_loop_spec chr target_len wSize wOffset Hlen Hsize Hoff
              fuel 0 ltac:(lia) ltac:(lia))
    as (l & Hrun & Hok & _ & Hinc & Hpart).
  exists l, wSize, wOffset. unfold createIntervals. rewrite Hp.
  repeat split; auto; try apply Hn; try lia.
  intros Heq. apply Hpart; [assumption|lia].
Qed.

Lemma windows_partition_witness :
  exists l wSize wOffset,
    window_params {| window_size := 4; window_offset := 4; window_num := 0 |}
      10 = (wSize, wOffset)
    /\ createIntervals 10
         {| window_size := 4; window_offset := 4; window_num := 0 |}
         "chr1" 10 = Done l
    /\ increasing_starts l
    /\ Forall (window_ok 10 wSize) l
    /\ (wOffset = wSize -> partitions 0 l 10)
    /\ (0 < 0 -> wSize = 10 / 0 + 1 /\ wOffset = wSize).
Proof.
  apply (windows_partition
           {| window_size := 4; window_offset := 4; window_num := 0 |}
           "chr1" 10 10); simpl; lia.
Defined.

(** C10, as stated for every configuration, fails: with a window size of
    0 (and offset 1) a chromosome of one base gets the window [0, 0),
    whose start is not below its end. *)
Lemma empty_window_counterexample :
  createIntervals 2
    {| window_size := 0; window_offset := 1; window_num := 0 |} "chr1" 1
  = Done [ {| start := 0; end_ := 0; id := "chr1:0-0" |} ]
  /\ ~ (forall c chr target_len fuel l,
          0 < target_len ->
          createIntervals fuel c chr target_len = Done l ->
          Forall (fun itv => 0 <= start itv < end_ itv
                             /\ end_ itv <= target_len) l).
Proof.
  assert (Hrun : createIntervals 2
            {| window_size := 0; window_offset := 1; window_num := 0 |}
            "chr1" 1
          = Done [ {| start := 0; end_ := 0; id := "chr1:0-0" |} ])
    by (vm_compute; reflexivity).
  split; [exact Hrun|].
  intros Hall.
  specialize (Hall {| window_size := 0; window_offset := 1; window_num := 0 |}
                "chr1" 1 2%nat _ ltac:(lia) Hrun).
  apply Forall_cons in Hall as [[[_ Hitv] _] _]. simpl in Hitv. lia.
Qed.
End IntervalClaims.

(** * Further properties *)
Section PerBaseExtras.
Import Bam Coverage.

(** X1. A record whose CIGAR stays inside the chromosome never faults in
    the per-base count of tracks.h, and the vector it leaves is the old one
    with one more on every base under a matched block (M, =, X) that is
    below 65535; bases under deletions, skips, clips and insertions, and
    bases outside the record, keep their counter. *)
Theorem add_record_per_base (cov : list Z) (r : bam1_t) :
  0 <= pos r -> oplens_ok (cigar r) ->
  pos r + ref_span (cigar r) <= Z.of_nat (length cov) ->
  Forall (within maxCoverage) cov -> Z.of_nat (length cov) < 2 ^ 32 ->
  add_record cov r = Done (imap (bump_base (cigar r) (pos r)) cov).
Proof.
  intros Hpos Hok Hspan Hcov Hlen. unfold add_record.
  pose proof (ref_span_nonneg (cigar r) Hok) as Hnn.
  rewrite u32_small by lia.
  destruct (parse_cigar_done (cigar r) cov (pos r) Hpos Hok Hspan Hcov Hlen)
    as [cov' Hrun].
  destruct (parse_cigar_pointwise (cigar r) cov (pos r) cov' Hpos Hok
              ltac:(lia) Hcov Hlen Hrun) as (Hl & _ & _ & Hpt).
  rewrite Hrun. f_equal. apply list_eq. intros i.
  rewrite list_lookup_imap.
  destruct (cov !! i) as [c|] eqn:Hi; simpl.
  - exact (Hpt i c Hi).
  - apply lookup_ge_None. rewrite Hl. by apply lookup_ge_None.
Qed.

Lemma add_record_per_base_witness :
  add_record [0; 7; 65535; 0; 0; 1; 0; 0]
    (mate "q" 1 60 30 [(BAM_CSOFT_CLIP, 4); (BAM_CMATCH, 2); (BAM_CDEL, 2);
                       (BAM_CINS, 1); (BAM_CEQUAL, 1)])
  = Done [0; 8; 65535; 0; 0; 2; 0; 0].
Proof.
  apply (add_record_per_base [0; 7; 65535; 0; 0; 1; 0; 0]
           (mate "q" 1 60 30 [(BAM_CSOFT_CLIP, 4); (BAM_CMATCH, 2);
                              (BAM_CDEL, 2); (BAM_CINS, 1); (BAM_CEQUAL, 1)])).
  - simpl; lia.
  - repeat (apply Forall_cons_2; [simpl; lia|]). apply Forall_nil_2.
  - vm_compute; discriminate.
  - repeat (apply Forall_cons_2; [unfold within, maxCoverage; lia|]).
    apply Forall_nil_2.
  - simpl; lia.
Defined.

(** X2. One record adds at most its matched bases (the lengths of its M, =
    and X operations) to the total of the per-base vector, and exactly that
    many when no counter stands at 65535. *)
Theorem add_record_total (cov : list Z) (r : bam1_t) (cov' : list Z) :
  0 <= pos r -> oplens_ok (cigar r) ->
  pos r + ref_span (cigar r) < 2 ^ 32 ->
  Forall (within maxCoverage) cov -> Z.of_nat (length cov) < 2 ^ 32 ->
  add_record cov r = Done cov' ->
  zsum cov <= zsum cov' <= zsum cov + matched_bases (cigar r)
  /\ (Forall (fun c => c < maxCoverage) cov ->
      zsum cov' = zsum cov + matched_bases (cigar r)).
Proof.
  intros Hpos Hok Hspan Hcov Hlen Hrun. unfold add_record in Hrun.
  pose proof (ref_span_nonneg (cigar r) Hok) as Hnn.
  rewrite u32_small in Hrun by lia.
  split.
  - by destruct (parse_cigar_pointwise (cigar r) cov (pos r) cov' Hpos Hok
                   Hspan Hcov Hlen Hrun) as (_ & _ & Hsum & _).
  - intros Hlow.
    apply (parse_cigar_sum (cigar r) cov (pos r) cov' Hpos Hok Hspan Hcov
             Hlen); [|exact Hrun].
    intros i c _ Hi. eapply Forall_forall in Hlow; [exact Hlow|].
    eapply list_elem_of_lookup_2; eauto.
Qed.

Lemma add_record_total_witness :
  zsum [0; 7; 0; 0] <= zsum [0; 8; 1; 0] <= zsum [0; 7; 0; 0] + 2
  /\ (Forall (fun c => c < maxCoverage) [0; 7; 0; 0] ->
      zsum [0; 8; 1; 0] = zsum [0; 7; 0; 0] + 2).
Proof.
  apply (add_record_total [0; 7; 0; 0]
           (mate "q" 1 60 30 [(BAM_CMATCH, 2); (BAM_CREF_SKIP, 100)])
           [0; 8; 1; 0]).
  - simpl; lia.
  - repeat (apply Forall_cons_2; [simpl; lia|]). apply Forall_nil_2.
  - vm_compute; reflexivity.
  - repeat (apply Forall_cons_2; [unfold within, maxCoverage; lia|]).
    apply Forall_nil_2.
  - simpl; lia.
  - reflexivity.
Defined.
End PerBaseExtras.

Section MidPointExtras.
Import Bam Resolver Coverage.

(** X3. The mid-point pass of count_dna.h over one chromosome, started on
    the zero vector: when no mid-point is negative the pass ends without a
    fault, and the counter of every base is the number of valid fragments
    whose second mate has its mid-point there, capped at 65534. A
    mid-point at or past the end of the chromosome is counted nowhere. *)
Theorem midpoint_counts `{PairHash} (minQual target_len : Z)
    (rs : list bam1_t) :
  0 <= target_len < 2 ^ 31 ->
  Forall (fun f => 0 <= midPoint (rec f)) (fragments minQual rs) ->
  exists cov',
    count_reads minQual target_len init (empty_cov target_len) rs = Done cov'
    /\ Z.of_nat (length cov') = target_len
    /\ forall i, 0 <= i < target_len ->
         vec_get cov' i
         = Some (Z.min (hits i (fragments minQual rs)) (maxCoverage - 1)).
Proof.
  intros Hlen Hmid.
  destruct (count_reads_zero_vector minQual target_len rs Hlen Hmid)
    as (cov' & Hrun & Hl & _ & Hp).
  exists cov'. split; [exact Hrun|]. split; [exact Hl|]. intros i Hi.
  rewrite <- (Z2Nat.id i) by lia. rewrite vec_get_nat.
  apply Hp. lia.
Qed.

Lemma midpoint_counts_witness :
  exists cov',
    @count_reads ideal_hash 10 300 init (empty_cov 300) two_pairs = Done cov'
    /\ Z.of_nat (length cov') = 300
    /\ forall i, 0 <= i < 300 ->
         vec_get cov' i
         = Some (Z.min (@hits ideal_hash i (@fragments ideal_hash 10 two_pairs))
                       (maxCoverage - 1)).
Proof.
  apply (@midpoint_counts ideal_hash 10 300 two_pairs).
  - lia.
  - apply (bool_decide_unpack _). vm_compute. exact I.
Defined.
End MidPointExtras.

Section WindowExtras.
Import Bam Resolver Coverage Intervals.

(** X4. The sum loop of count_dna.h over one interval reads outside the
    coverage vector exactly when the interval is not empty and starts
    below 0 or ends past the vector; an interval whose end is not above
    its start gives 0 whatever its bounds are, and the loop always ends. *)
Theorem interval_sum_fault_iff (cov : list Z) (itv : ItvChr) :
  (interval_sum cov itv = Fault
   <-> start itv < end_ itv
       /\ (start itv < 0 \/ Z.of_nat (length cov) < end_ itv))
  /\ (end_ itv <= start itv -> interval_sum cov itv = Done 0)
  /\ interval_sum cov itv <> Timeout.
Proof.
  unfold interval_sum. split; [|split].
  - rewrite covsum_loop_fault. lia.
  - intros Hle. by replace (Z.to_nat (end_ itv - start itv)) with 0%nat by lia.
  - apply covsum_loop_ends.
Qed.

(** X5. Windows made with the offset equal to the size (as they are
    whenever a number of windows is given) lose and repeat nothing: on any
    coverage vector the sums reported for them add up to the sum of the
    whole vector. *)
Theorem window_sums_add_up (c : CountDNAConfig) (chr : string)
    (cov : list Z) (fuel : nat) :
  Forall is_uint16 cov -> 0 < Z.of_nat (length cov) < 2 ^ 31 ->
  0 <= window_num c < 2 ^ 32 ->
  (window_num c = 0 ->
     0 < window_size c <= 2 ^ 31 /\ window_offset c = window_size c) ->
  Z.of_nat (length cov) <= Z.of_nat fuel ->
  exists l ss,
    createIntervals fuel c chr (Z.of_nat (length cov)) = Done l
    /\ interval_sums cov l = Done ss
    /\ length ss = length l
    /\ zsum ss = zsum cov.
Proof.
  intros Hcov Hlen Hnum Hcfg Hfuel.
  destruct (window_params_spec c (Z.of_nat (length cov)) Hlen Hnum)
    as (wSize & wOffset & Hp & Hsize & Hoff & Hn & Hz).
  { intros Hzero. destruct (Hcfg Hzero). lia. }
  assert (Heq : wOffset = wSize).
  { destruct (Z.eq_dec (window_num c) 0) as [Hzero|Hpos].
    - destruct (Hz Hzero), (Hcfg Hzero). congruence.
    - apply Hn. lia. }
  destruct (window_loop_spec chr _ wSize wOffset Hlen Hsize Hoff
              fuel 0 ltac:(lia) ltac:(lia))
    as (l & Hrun & Hok & _ & _ & Hpart).
  specialize (Hpart Heq ltac:(lia)).
  destruct (interval_sums_partition cov Hcov ltac:(lia) l 0 ltac:(lia) Hpart)
    as (ss & Hss & Hsum).
  exists l, ss. unfold createIntervals. rewrite Hp.
  split; [exact Hrun|]. split; [exact Hss|]. split; [|exact Hsum].
  rewrite interval_sums_rows in Hss; [|assumption|lia|].
  - injection Hss as <-. apply length_fmap.
  - eapply Forall_impl; [exact Hok|]. unfold window_ok. intros itv. lia.
Qed.

Lemma window_sums_add_up_witness :
  exists l ss,
    createIntervals 7 {| window_size := 0; window_offset := 0;
                         window_num := 3 |} "chr1" 7 = Done l
    /\ interval_sums [1; 0; 2; 0; 0; 65535; 4] l = Done ss
    /\ length ss = length l
    /\ zsum ss = zsum [1; 0; 2; 0; 0; 65535; 4].
Proof.
  apply (window_sums_add_up
           {| window_size := 0; window_offset := 0; window_num := 3 |}
           "chr1" [1; 0; 2; 0; 0; 65535; 4] 7).
  - repeat (apply Forall_cons_2; [unfold is_uint16; lia|]). apply Forall_nil_2.
  - simpl; lia.
  - simpl; lia.
  - simpl; lia.
  - simpl; lia.
Defined.

(** X6. The number of artificial windows is the chromosome length divided
    by the offset, rounded up. With a number of windows [n] in the
    configuration the size is [target_len / n + 1], so there are at most
    [n] windows and there can be fewer: 10 bases and [n = 5] give the 4
    windows of size 3. *)
Theorem window_number (c : CountDNAConfig) (chr : string)
    (target_len : Z) (fuel : nat) :
  0 < target_len < 2 ^ 31 ->
  0 <= window_num c < 2 ^ 32 ->
  (window_num c = 0 ->
     0 < window_size c <= 2 ^ 31 /\ 0 < window_offset c <= 2 ^ 31) ->
  target_len <= Z.of_nat fuel ->
  exists l wSize wOffset,
    window_params c target_len = (wSize, wOffset)
    /\ createIntervals fuel c chr target_len = Done l
    /\ Z.of_nat (length l) = (target_len + wOffset - 1) / wOffset
    /\ (0 < window_num c -> Z.of_nat (length l) <= window_num c)
    /\ createIntervals 10
         {| window_size := 0; window_offset := 0; window_num := 5 |} "chr1" 10
       = Done [ {| start := 0; end_ := 3; id := "chr1:0-3" |};
                {| start := 3; end_ := 6; id := "chr1:3-6" |};
                {| start := 6; end_ := 9; id := "chr1:6-9" |};
                {| start := 9; end_ := 10; id := "chr1:9-10" |} ].
Proof.
  intros Hlen Hnum Hcfg Hfuel.
  destruct (window_params_spec c target_len Hlen Hnum Hcfg)
    as (wSize & wOffset & Hp & Hsize & Hoff & Hn & _).
  destruct (window_loop_spec chr target_len wSize wOffset Hlen Hsize Hoff
              fuel 0 ltac:(lia) ltac:(lia)) as (l & Hrun & _).
  pose proof (window_loop_length chr target_len wSize wOffset Hlen Hoff
                fuel 0 l ltac:(lia) Hrun) as Hcount.
  rewrite Z.sub_0_r in Hcount.
  assert (Hpos : 0 <= (target_len + wOffset - 1) / wOffset)
    by (apply Z.div_pos; lia).
  exists l, wSize, wOffset. unfold createIntervals. rewrite Hp.
  split; [reflexivity|]. split; [exact Hrun|]. split; [lia|].
  split; [|vm_compute; reflexivity].
  intros Hgt. destruct (Hn Hgt) as [Hw ->].
  rewrite Hcount, Z.max_r by assumption.
  apply Z.lt_succ_r, Z.div_lt_upper_bound; [lia|].
  pose proof (Z.div_mod target_len (window_num c) ltac:(lia)) as Hdm.
  pose proof (Z.mod_pos_bound target_len (window_num c) Hgt) as Hmod.
  nia.
Qed.

Lemma window_number_witness :
  exists l wSize wOffset,
    window_params {| window_size := 0; window_offset := 0; window_num := 5 |}
      10 = (wSize, wOffset)
    /\ createIntervals 10
         {| window_size := 0; window_offset := 0; window_num := 5 |}
         "chr1" 10 = Done l
    /\ Z.of_nat (length l) = (10 + wOffset - 1) / wOffset
    /\ (0 < 5 -> Z.of_nat (length l) <= 5)
    /\ createIntervals 10
         {| window_size := 0; window_offset := 0; window_num := 5 |} "chr1" 10
       = Done [ {| start := 0; end_ := 3; id := "chr1:0-3" |};
                {| start := 3; end_ := 6; id := "chr1:3-6" |};
                {| start := 6; end_ := 9; id := "chr1:6-9" |};
                {| start := 9; end_ := 10; id := "chr1:9-10" |} ].
Proof.
  apply (window_number
           {| window_size := 0; window_offset := 0; window_num := 5 |}
           "chr1" 10 10); simpl; lia.
Defined.

(** X7. One chromosome of count_dna.h without an interval file. A
    chromosome that is not valid, or for which the index counts no mapped
    read in a file whose name does not end in "cram", gets no row at all.
    Any other chromosome gets a row for every window, and when no
    mid-point is negative and no base has more than 65534 of them, the row
    reports the number of valid fragments whose second mate has its
    mid-point inside the window, also when the windows overlap. *)
Theorem window_rows_count_fragments `{PairHash} (validChr : bool)
    (bamFile : string) (mapped : Z) (fuel : nat)
    (c : CountDNAConfig) (chr : string) (target_len minQual : Z)
    (rs : list bam1_t) :
  0 < target_len < 2 ^ 31 ->
  0 <= window_num c < 2 ^ 32 ->
  (window_num c = 0 ->
     0 < window_size c <= 2 ^ 31 /\ 0 < window_offset c <= 2 ^ 31) ->
  target_len <= Z.of_nat fuel ->
  Forall (fun f => 0 <= midPoint (rec f)) (fragments minQual rs) ->
  (forall i, 0 <= i < target_len ->
     hits i (fragments minQual rs) <= maxCoverage - 1) ->
  (validChr = false
   \/ (ends_with "cram" bamFile = false /\ mapped = 0) ->
   window_rows validChr bamFile mapped fuel c chr target_len minQual rs
   = Done [])
  /\ (validChr = true ->
      ends_with "cram" bamFile = true \/ mapped <> 0 ->
      exists l,
        createIntervals fuel c chr target_len = Done l
        /\ window_rows validChr bamFile mapped fuel c chr target_len minQual
             rs
           = Done ((fun itv => (itv, hits_in (start itv) (end_ itv)
                                       (fragments minQual rs))) <$> l)).
Proof.
  intros Hlen Hnum Hcfg Hfuel Hmid Hcap. split.
  { unfold window_rows, nodata. intros [->|[-> ->]]; [reflexivity|].
    by destruct validChr. }
  intros -> Hdata.
  assert (Hnodata : nodata bamFile mapped = false).
  { unfold nodata. destruct Hdata as [->|Hm].
    - by destruct (mapped =? 0).
    - destruct (Z.eqb_spec mapped 0); [contradiction|reflexivity]. }
  destruct (count_reads_zero_vector minQual target_len rs ltac:(lia) Hmid)
    as (cov & Hcount & Hl & Hw & Hp).
  destruct (window_params_spec c target_len Hlen Hnum Hcfg)
    as (wSize & wOffset & Hparams & Hsize & Hoff & _).
  destruct (window_loop_spec chr target_len wSize wOffset Hlen Hsize Hoff
              fuel 0 ltac:(lia) ltac:(lia)) as (l & Hrun & Hok & _).
  assert (Hcreate : createIntervals fuel c chr target_len = Done l).
  { unfold createIntervals. by rewrite Hparams. }
  exists l. split; [exact Hcreate|].
  unfold window_rows. rewrite Hnodata. cbn [negb].
  rewrite Hcount, Hcreate. cbn [bind].
  assert (Hu : Forall is_uint16 cov).
  { eapply Forall_impl; [exact Hw|].
    unfold within, is_uint16, maxCoverage. intros x. lia. }
  rewrite interval_sums_rows; [|assumption|lia|].
  2:{ eapply Forall_impl; [exact Hok|]. unfold window_ok. intros itv. lia. }
  cbn [bind]. rewrite zip_fmap_diag. f_equal.
  apply Forall_fmap_ext_1. eapply Forall_impl; [exact Hok|].
  intros itv (Hse & He & _). f_equal.
  rewrite (slice_pointwise cov (fun i => hits i (fragments minQual rs)));
    try lia.
  - replace (end_ itv - start itv)
      with (Z.of_nat (Z.to_nat (end_ itv - start itv))) by lia.
    rewrite zsum_hits. f_equal. lia.
  - intros i Hi. rewrite <- (Z2Nat.id i) by lia. rewrite vec_get_nat.
    rewrite Hp by lia. f_equal. rewrite Z2Nat.id by lia.
    specialize (Hcap i ltac:(lia)). lia.
Qed.

Lemma window_rows_count_fragments_witness :
  @window_rows ideal_hash true "sample.bam" 0 300
    {| window_size := 100; window_offset := 50; window_num := 0 |}
    "chr1" 300 10 [] = Done []
  /\ exists l,
       createIntervals 300
         {| window_size := 100; window_offset := 50; window_num := 0 |}
         "chr1" 300 = Done l
       /\ @window_rows ideal_hash true "sample.bam" 4 300
            {| window_size := 100; window_offset := 50; window_num := 0 |}
            "chr1" 300 10 two_pairs
          = Done ((fun itv =>
                     (itv, @hits_in ideal_hash (start itv) (end_ itv)
                             (@fragments ideal_hash 10 two_pairs))) <$> l).
Proof.
  split.
  - apply (@window_rows_count_fragments ideal_hash true "sample.bam" 0 300
             {| window_size := 100; window_offset := 50; window_num := 0 |}
             "chr1" 300 10 []).
    + lia.
    + simpl; lia.
    + simpl; lia.
    + simpl; lia.
    + constructor.
    + intros i _. vm_compute. discriminate.
    + right. split; reflexivity.
  - apply (@window_rows_count_fragments ideal_hash true "sample.bam" 4 300
             {| window_size := 100; window_offset := 50; window_num := 0 |}
             "chr1" 300 10 two_pairs).
    + lia.
    + simpl; lia.
    + simpl; lia.
    + simpl; lia.
    + apply (bool_decide_unpack _). vm_compute. exact I.
    + intros i _.
      etransitivity; [apply (@hits_le_length ideal_hash)|].
      vm_compute. discriminate.
    + reflexivity.
    + right. discriminate.
Defined.
End WindowExtras.

Section IntervalFileExtras.
Import Intervals IntervalFile.

(** X8. The intervals [createIntervals] takes from an interval file for a
    chromosome: each has [0 <= start < end], they are as many as the
    lines that name the chromosome at most, and the lines that name
    another chromosome have no part in the result, whatever they hold. *)
Theorem file_intervals_accepted (lexical_cast : string -> option Z)
    (chr : string) (lines : list (list string)) (l : list ItvChr) :
  file_intervals lexical_cast chr lines = Intervals l ->
  Forall (fun itv => 0 <= start itv < end_ itv) l
  /\ (length l <= length (filter (fun t => names chr t = true) lines))%nat
  /\ file_intervals lexical_cast chr
       (filter (fun t => names chr t = true) lines) = Intervals l.
Proof.
  revert l. induction lines as [|tokens lines IH]; intros l Hrun.
  - injection Hrun as <-. repeat split; auto.
  - rewrite filter_cons.
    destruct (file_intervals_line lexical_cast chr tokens lines l Hrun)
      as [Hskip|(itv & l' & -> & Hrest & Hn & Hitv & _)].
    + destruct (IH l Hskip) as (Hok & Hlen & Hsame).
      destruct (decide (names chr tokens = true)) as [Hn|Hn].
      * split; [exact Hok|]. split; [simpl; lia|].
        destruct tokens as [|chrName tokens1]; [discriminate|].
        cbn [file_intervals] in Hrun |- *. simpl in Hn.
        rewrite Hn in Hrun |- *. cbn [negb] in Hrun |- *.
        destruct tokens1 as [|t_start tokens2]; [exact Hsame|].
        destruct (lexical_cast t_start) as [s|]; [|discriminate].
        destruct tokens2 as [|t_end tokens3]; [discriminate|].
        destruct (lexical_cast t_end) as [e|]; [|discriminate].
        destruct (i32 s <? 0); [discriminate|].
        destruct (i32 e <? 0); [discriminate|].
        destruct (i32 e <=? i32 s); [discriminate|].
        destruct tokens3 as [|t_id tokens4]; [discriminate|].
        rewrite Hskip in Hrun. injection Hrun as Hl.
        apply (f_equal length) in Hl. simpl in Hl. lia.
      * auto.
    + destruct (IH l' Hrest) as (Hok & Hlen & Hsame).
      rewrite decide_True by assumption.
      split; [by constructor|]. split; [simpl; lia|].
      destruct tokens as [|chrName tokens1]; [discriminate|].
      cbn [file_intervals] in Hrun |- *. simpl in Hn.
      rewrite Hn in Hrun |- *. cbn [negb] in Hrun |- *.
      destruct tokens1 as [|t_start tokens2];
        [rewrite Hrest in Hrun; injection Hrun as Hl;
         apply (f_equal length) in Hl; simpl in Hl; lia|].
      destruct (lexical_cast t_start) as [s|]; [|discriminate].
      destruct tokens2 as [|t_end tokens3]; [discriminate|].
      destruct (lexical_cast t_end) as [e|]; [|discriminate].
      destruct (i32 s <? 0); [discriminate|].
      destruct (i32 e <? 0); [discriminate|].
      destruct (i32 e <=? i32 s); [discriminate|].
      destruct tokens3 as [|t_id tokens4]; [discriminate|].
      rewrite Hrest in Hrun. rewrite Hsame. exact Hrun.
Qed.

Lemma file_intervals_accepted_witness :
  let lines := [ ["chr1"; "5"; "9"; "a"]; ["chr2"; "7"; "x"]; [];
                 ["chr1"; "0"; "400"; "b"; "more"] ] in
  let l := [ {| start := 5; end_ := 9; id := "a" |};
             {| start := 0; end_ := 400; id := "b" |} ] in
  Forall (fun itv => 0 <= start itv < end_ itv) l
  /\ (length l <= length (filter (fun t => names "chr1" t = true) lines))%nat
  /\ file_intervals decimal "chr1"
       (filter (fun t => names "chr1" t = true) lines) = Intervals l.
Proof.
  exact (file_intervals_accepted decimal "chr1"
           [ ["chr1"; "5"; "9"; "a"]; ["chr2"; "7"; "x"]; [];
             ["chr1"; "0"; "400"; "b"; "more"] ] _ eq_refl).
Defined.

(** X9. [createIntervals] never compares an interval of the file with
    the length of the chromosome: an accepted interval that ends past the
    coverage vector makes the sum loop read out of range. *)
Theorem file_interval_past_end (lexical_cast : string -> option Z)
    (chr : string) (lines : list (list string)) (l : list ItvChr)
    (cov : list Z) (itv : ItvChr) :
  file_intervals lexical_cast chr lines = Intervals l ->
  itv ∈ l -> Z.of_nat (length cov) < end_ itv ->
  interval_sum cov itv = Fault.
Proof.
  intros Hrun Hin Hpast.
  assert (Hok : Forall (fun itv => 0 <= start itv < end_ itv) l).
  { clear Hin. revert l Hrun.
    induction lines as [|tokens lines IH]; intros l Hrun.
    - injection Hrun as <-. constructor.
    - destruct (file_intervals_line lexical_cast chr tokens lines l Hrun)
        as [Hskip|(i0 & l' & -> & Hrest & _ & Hitv & _)]; [by apply IH|].
      constructor; [assumption|by apply IH]. }
  eapply Forall_forall in Hok; [|exact Hin].
  unfold interval_sum. apply covsum_loop_fault. lia.
Qed.

Lemma file_interval_past_end_witness :
  interval_sum (replicate 100 0) {| start := 0; end_ := 400; id := "b" |}
  = Fault.
Proof.
  apply (file_interval_past_end decimal "chr1"
           [ ["chr1"; "5"; "9"; "a"]; ["chr1"; "0"; "400"; "b"] ]
           [ {| start := 5; end_ := 9; id := "a" |};
             {| start := 0; end_ := 400; id := "b" |} ]).
  - reflexivity.
  - apply list_elem_of_further, list_elem_of_here.
  - simpl; lia.
Defined.
End IntervalFileExtras.

Section CompressorExtras.
Import Compressor.

(** X10. When the reduction of tracks.h returns, it has reached its aim
    or cannot go on: a list of at most one segment is returned as it is,
    and for a longer one the result has a single segment or a number of
    segments whose ratio to the original number is not above the
    resolution. The result is never longer than the input. *)
Theorem reduce_meets_resolution (fuel : nat) (resolution : float)
    (tl tl' : list Track) :
  resolution_enabled resolution = true ->
  reduce fuel resolution tl = Done tl' ->
  (length tl' <= length tl)%nat
  /\ ((length tl <= 1)%nat -> tl' = tl)
  /\ ((1 < length tl)%nat ->
      (length tl' <= 1)%nat
      \/ (resolution
          <? Z2f (Z.of_nat (length tl')) / Z2f (u32 (Z.of_nat (length tl))))
         %float = false).
Proof.
  intros Hon Hrun. unfold reduce in Hrun. rewrite Hon in Hrun.
  split; [exact (reduce_loop_never_grows _ _ _ _ _ _ Hrun)|].
  assert (Hlt : (resolution <? 1)%float = true).
  { unfold resolution_enabled in Hon. by apply andb_true_iff in Hon as [_ ?]. }
  destruct (reduce_loop_post _ _ _ _ _ _ Hrun) as [[-> Hg]|Hg];
    unfold reduce_guard in Hg; apply andb_false_iff in Hg as [Hg|Hg].
  - split; [reflexivity|]. intros Hlong. apply Z.ltb_ge in Hg. lia.
  - congruence.
  - pose proof (reduce_loop_never_grows _ _ _ _ _ _ Hrun) as Hle.
    apply Z.ltb_ge in Hg. split.
    + intros Hshort. destruct fuel as [|fuel]; simpl in Hrun;
        unfold reduce_guard in Hrun;
        destruct (Z.ltb_spec 1 (Z.of_nat (length tl))); try lia;
        simpl in Hrun; congruence.
    + intros _. left. lia.
  - split; [|intros _; by right].
    intros Hshort. destruct fuel as [|fuel]; simpl in Hrun;
      unfold reduce_guard in Hrun;
      destruct (Z.ltb_spec 1 (Z.of_nat (length tl))); try lia;
      simpl in Hrun; congruence.
Qed.

Lemma reduce_meets_resolution_witness :
  let tl := [ {| start := 0; end_ := 2; score := 0 |};
              {| start := 2; end_ := 5; score := 3 |};
              {| start := 5; end_ := 6; score := 0 |} ] in
  let tl' := [ {| start := 0; end_ := 6; score := 1.5 |} ] in
  (length tl' <= length tl)%nat
  /\ ((length tl <= 1)%nat -> tl' = tl)
  /\ ((1 < length tl)%nat ->
      (length tl' <= 1)%nat
      \/ (0.5 <? Z2f (Z.of_nat (length tl'))
                 / Z2f (u32 (Z.of_nat (length tl))))%float = false).
Proof.
  apply (reduce_meets_resolution 3 0.5%float
           [ {| start := 0; end_ := 2; score := 0 |};
             {| start := 2; end_ := 5; score := 3 |};
             {| start := 5; end_ := 6; score := 0 |} ]
           [ {| start := 0; end_ := 6; score := 1.5 |} ]).
  - reflexivity.
  - vm_compute. reflexivity.
Defined.

(** X11. Whatever the normalisation factor, the run-length encoding of
    tracks.h loses nothing: writing the score of each segment back over
    its bases gives, base by base, the factor times the depth. *)
Theorem track_scores_every_base (normFactor : float) (cov : list Z) :
  cov <> [] -> Forall is_uint16 cov -> Z.of_nat (length cov) < 2 ^ 32 ->
  exists tl,
    coverage_track normFactor cov = Done tl
    /\ expand (length cov) tl
       = (fun c => Some (normFactor * Z2f c)%float) <$> cov.
Proof.
  intros Hne Hcov Hlen.
  destruct (coverage_track_spec normFactor cov Hne Hcov Hlen)
    as (runs & Htrack & Hrle & _).
  exists (to_track normFactor <$> runs). split; [exact Htrack|].
  by apply expand_runs.
Qed.

Lemma track_scores_every_base_witness :
  exists tl,
    coverage_track 0.25 [4; 4; 9; 0] = Done tl
    /\ expand 4 tl = (fun c => Some (0.25 * Z2f c)%float) <$> [4; 4; 9; 0].
Proof.
  apply (track_scores_every_base 0.25%float [4; 4; 9; 0]).
  - discriminate.
  - repeat (apply Forall_cons_2; [unfold is_uint16; lia|]). apply Forall_nil_2.
  - simpl; lia.
Defined.

(** X12. The reduction only removes segment boundaries: the ends of the
    segments after a merging pass, and after the whole reduction or
    compression, are ends of the segments before, in the same order. No
    boundary is moved or made. *)
Theorem reduce_keeps_breakpoints :
  (forall thres tl, sublist (end_ <$> merge_pass thres tl) (end_ <$> tl))
  /\ (forall fuel resolution tl tl',
        reduce fuel resolution tl = Done tl' ->
        sublist (end_ <$> tl') (end_ <$> tl))
  /\ (forall fuel resolution normFactor cov tl0 tl,
        coverage_track normFactor cov = Done tl0 ->
        compress fuel resolution normFactor cov = Done tl ->
        sublist (end_ <$> tl) (end_ <$> tl0)).
Proof.
  assert (Hred : forall fuel resolution tl tl',
            reduce fuel resolution tl = Done tl' ->
            sublist (end_ <$> tl') (end_ <$> tl)).
  { intros fuel resolution tl tl' Hrun. unfold reduce in Hrun.
    destruct (resolution_enabled resolution).
    - exact (reduce_loop_ends _ _ _ _ _ _ Hrun).
    - by injection Hrun as <-. }
  split; [exact merge_pass_ends|]. split; [exact Hred|].
  intros fuel resolution normFactor cov tl0 tl Htrack Hrun.
  unfold compress in Hrun. rewrite Htrack in Hrun. exact (Hred _ _ _ _ Hrun).
Qed.
End CompressorExtras.

Section SecondPassExtras.
Import Bam Resolver Coverage.

(** X13. The second pass of tracks.h counts the records of the valid
    pairs and no others. It is the per-base count of the records that
    pass the two tests and whose key is among the valid pairs, the key
    being [hash_pair] whenever the record does not lie after its mate
    (the read store of this pass is cleared but never filled); and in a
    position-sorted stream of pairs without hash collisions these are
    exactly the two mates of each pair that qualified in the first
    pass. *)
Theorem second_pass_counts_valid_pairs `{PairHash} (minQual : Z)
    (rs : list bam1_t) :
  paired_stream rs -> collision_free rs ->
  (forall cov,
     coverage_pass minQual (validPairs minQual rs) init cov rs
     = add_records cov
         (filter (fun r => counts minQual (validPairs minQual rs) r = true)
            rs))
  /\ (forall (k : nat) r, rs !! k = Some r ->
        counts minQual (validPairs minQual rs) r = true
        <-> in_valid_pair minQual rs k).
Proof.
  intros Hps Hcf. split.
  - intros cov. by apply coverage_pass_filter.
  - intros k r Hk. by apply counts_iff.
Qed.

Lemma second_pass_counts_valid_pairs_witness :
  @coverage_pass ideal_hash 10 (@validPairs ideal_hash 10 two_pairs) init
    (empty_cov 300) two_pairs
  = add_records (empty_cov 300)
      (filter (fun r => @counts ideal_hash 10
                          (@validPairs ideal_hash 10 two_pairs) r = true)
         two_pairs).
Proof.
  exact (proj1 (@second_pass_counts_valid_pairs ideal_hash 10 two_pairs
                  two_pairs_paired (ideal_hash_collision_free two_pairs))
           (empty_cov 300)).
Defined.

(** X14. The coverage vector tracks.h builds for a chromosome whose
    records lie on it: the pass never faults, and the counter of every
    base is the number of counted records with a matched base (M, =, X)
    there, capped at 65535. Without a valid pair the vector is zero. *)
Theorem coverage_is_capped_depth `{PairHash} (minQual target_len : Z)
    (rs : list bam1_t) :
  0 <= target_len < 2 ^ 32 ->
  Forall (record_inside target_len) rs ->
  exists cov',
    coverage minQual target_len rs = Done cov'
    /\ Z.of_nat (length cov') = target_len
    /\ forall i, 0 <= i < target_len ->
         vec_get cov' i
         = Some (Z.min (depth i (filter
                          (fun r => counts minQual (validPairs minQual rs) r
                                    = true) rs))
                       maxCoverage).
Proof.
  intros Hlen Hin. unfold coverage.
  set (vp := validPairs minQual rs).
  set (counted := filter (fun r => counts minQual vp r = true) rs).
  assert (Hl0 : Z.of_nat (length (empty_cov target_len)) = target_len).
  { unfold empty_cov. rewrite length_replicate. lia. }
  assert (Hw0 : Forall (within maxCoverage) (empty_cov target_len)).
  { apply Forall_replicate. unfold within, maxCoverage. lia. }
  assert (Hcounted : Forall (record_inside
                       (Z.of_nat (length (empty_cov target_len)))) counted).
  { rewrite Hl0. apply Forall_forall. intros r Hr.
    apply list_elem_of_filter in Hr as [_ Hr].
    eapply Forall_forall in Hin; eauto. }
  destruct (add_records_pointwise counted (empty_cov target_len) Hcounted
              Hw0 ltac:(lia)) as (cov' & Hrun & Hl & Hp).
  assert (Hpass : (if bool_decide (vp = ∅) then Done (empty_cov target_len)
                   else coverage_pass minQual vp init (empty_cov target_len)
                          rs) = Done cov').
  { destruct (bool_decide_reflect (vp = ∅)) as [Hempty|_].
    - assert (Hnil : counted = []).
      { unfold counted. rewrite Hempty. apply filter_counts_empty. }
      rewrite Hnil in Hrun. exact Hrun.
    - rewrite coverage_pass_filter by reflexivity. exact Hrun. }
  exists cov'. split; [exact Hpass|]. split; [lia|]. intros i Hi.
  rewrite <- (Z2Nat.id i) by lia. rewrite vec_get_nat.
  rewrite (Hp (Z.to_nat i) 0).
  - by rewrite Z.add_0_l.
  - unfold empty_cov. apply lookup_replicate_2. lia.
Qed.

Lemma coverage_is_capped_depth_witness :
  exists cov',
    @coverage ideal_hash 10 300 two_pairs = Done cov'
    /\ Z.of_nat (length cov') = 300
    /\ forall i, 0 <= i < 300 ->
         vec_get cov' i
         = Some (Z.min (depth i (filter
                          (fun r => @counts ideal_hash 10
                                      (@validPairs ideal_hash 10 two_pairs) r
                                    = true) two_pairs))
                       maxCoverage).
Proof.
  apply (@coverage_is_capped_depth ideal_hash 10 300 two_pairs).
  - lia.
  - repeat (apply Forall_cons_2;
      [split; [simpl; lia|split; [|vm_compute; discriminate]];
       repeat (apply Forall_cons_2; [simpl; lia|]); apply Forall_nil_2|]).
    apply Forall_nil_2.
Defined.

(** X15. Raising the quality threshold only drops pairs: in a
    position-sorted stream of pairs without hash collisions, a record
    that gives a ValidFragment at a threshold gives the same fragment at
    every lower threshold, so the valid pairs of the higher threshold are
    among those of the lower. *)
Theorem raising_threshold_drops_pairs `{PairHash} (minQual minQual' : Z)
    (rs : list bam1_t) :
  paired_stream rs -> collision_free rs -> minQual <= minQual' ->
  (forall (k : nat) f,
     resolve_trace minQual' init rs !! k = Some (Some f) ->
     resolve_trace minQual init rs !! k = Some (Some f))
  /\ validPairs minQual' rs ⊆ validPairs minQual rs.
Proof.
  intros Hps Hcf Hle.
  assert (Hpass : forall r, passes minQual' r = true ->
                            passes minQual r = true).
  { intros r. unfold passes. rewrite !andb_true_iff, !negb_true_iff.
    intros [Hf Hq]. split; [exact Hf|].
    apply Z.ltb_ge in Hq. apply Z.ltb_ge. lia. }
  assert (Hpair : forall (i k : nat) r1 r,
            valid_pair minQual' rs i k r1 r -> valid_pair minQual rs i k r1 r).
  { intros i k r1 r (Hi & Hr1 & Hr & Hm & Hp1 & Hp & Hq).
    split; [exact Hi|]. split; [exact Hr1|]. split; [exact Hr|].
    split; [exact Hm|]. split; [by apply Hpass|]. split; [by apply Hpass|].
    lia. }
  split.
  - intros k f Hk.
    destruct (lookup_lt_is_Some_2 rs k) as [r Hr].
    { rewrite <- (resolve_trace_length minQual' rs init).
      eapply lookup_lt_Some; eauto. }
    destruct (proj1 (trace_emits_iff minQual' rs Hps Hcf k r f Hr) Hk)
      as (i & r1 & Hi & Hr1 & Hm & Hp1 & Hp & Hq & Hf).
    apply (trace_emits_iff minQual rs Hps Hcf k r f Hr).
    exists i, r1. split; [exact Hi|]. split; [exact Hr1|]. split; [exact Hm|].
    split; [by apply Hpass|]. split; [by apply Hpass|]. split; [lia|exact Hf].
  - intros hv0 Hin.
    apply (valid_key_iff minQual' rs Hps Hcf) in Hin
      as (i & k & r1 & r & Hv & Hkey).
    apply (valid_key_iff minQual rs Hps Hcf). exists i, k, r1, r. auto.
Qed.

Lemma raising_threshold_drops_pairs_witness :
  @validPairs ideal_hash 30 two_pairs ⊆ @validPairs ideal_hash 10 two_pairs.
Proof.
  apply (@raising_threshold_drops_pairs ideal_hash 10 30 two_pairs
           two_pairs_paired (ideal_hash_collision_free two_pairs)).
  lia.
Defined.
End SecondPassExtras.

Section JunctionExtras.
Import Bam Junction.

(** X16. count_junction.h, one chromosome whose regions are sorted by
    start and lie on it: when every record that is read has only known
    CIGAR operations and skips that lie on the chromosome, the count ends
    without an error and adds under every key the number of times a skip
    runs from the end of a region to the start of a later one whose exon
    id is larger. The test on the two bits, the binary search from
    [gpStart - maxExonLength] and the two early exits of the loops lose
    no such pair. *)
Theorem countExonJct_counts_pairs `{IntervalOrder} (minQual n : Z)
    (gRegions : list IntervalLabelId) (rs : list bam1_t)
    (ejct : TExonJctCount) :
  by_start -> 0 <= n <= 2 ^ 31 ->
  sorted_by_start gRegions -> Forall (region_ok n) gRegions ->
  Forall (fun r => jct_passes minQual r = true ->
                   Forall (fun o => known_op o.1 = true) (cigar r)) rs ->
  skips_inside n (all_skips minQual rs) -> counts_ok ejct ->
  exists ejct',
    countExonJct minQual n gRegions rs ejct = Done (Some ejct')
    /\ counts_ok ejct'
    /\ forall key,
         jct_count ejct' key
         = u32 (jct_count ejct key
                + skip_total gRegions key (all_skips minQual rs)).
Proof.
  intros Horder Hn Hsorted Hregions Hknown Hin Hok.
  destruct (featureBitMap_spec n gRegions ltac:(lia)) as (bm & Hbm & _).
  { eapply Forall_impl; [exact Hregions|].
    unfold region_ok, flagged_ok. intros r. lia. }
  destruct (count_records_count n gRegions bm Horder Hn Hsorted Hregions Hbm
              minQual rs ejct Hknown Hin Hok) as (ejct' & Hrun & Hok' & Hc).
  destruct gRegions as [|r0 rest] eqn:Hg.
  - exists ejct. split; [reflexivity|]. split; [assumption|]. intros key.
    rewrite skip_total_nil. symmetry. by apply jct_count_range.
  - exists ejct'. unfold countExonJct. rewrite Hbm. cbn [bind].
    split; [exact Hrun|]. by split.
Qed.

Lemma countExonJct_counts_pairs_witness :
  exists ejct',
    @countExonJct start_order 20 100 three_exons
      [spliced_read; spliced_read] ∅ = Done (Some ejct')
    /\ counts_ok ejct'
    /\ forall key,
         jct_count ejct' key
         = u32 (jct_count ∅ key
                + skip_total three_exons key
                    (all_skips 20 [spliced_read; spliced_read])).
Proof.
  apply (@countExonJct_counts_pairs start_order 20 100 three_exons
           [spliced_read; spliced_read] ∅ start_order_by_start).
  - lia.
  - apply three_exons_ok.
  - apply three_exons_ok.
  - repeat (apply Forall_cons_2;
      [intros _; repeat (apply Forall_cons_2; [reflexivity|]);
       apply Forall_nil_2|]).
    apply Forall_nil_2.
  - unfold skips_inside. apply (bool_decide_unpack _). vm_compute. exact I.
  - intros key c Hc. by rewrite lookup_empty in Hc.
Defined.

(** X17. The count table of count_junction.h, for regions with exon ids
    that are not repeated: a row for two regions of one gene, the first
    ending before the second starts, shows the number of skips that run
    from the end of the first to the start of the second (in 32 bits) when
    the exon id of the first is the smaller one, and 0 when it is the
    larger one, however many reads are spliced there. *)
Theorem junction_table_rows `{IntervalOrder} (minQual n : Z)
    (gRegions : list IntervalLabelId) (rs : list bam1_t)
    (ejct' : TExonJctCount)
    (row : IntervalLabelId * IntervalLabelId * Z) :
  by_start -> 0 <= n <= 2 ^ 31 ->
  sorted_by_start gRegions -> Forall (region_ok n) gRegions ->
  NoDup (eid <$> gRegions) ->
  Forall (fun r => jct_passes minQual r = true ->
                   Forall (fun o => known_op o.1 = true) (cigar r)) rs ->
  skips_inside n (all_skips minQual rs) ->
  countExonJct minQual n gRegions rs ∅ = Done (Some ejct') ->
  row ∈ report_rows gRegions ejct' ->
  exists a b,
    (a, b) ∈ ordered_pairs gRegions /\ lid a = lid b /\ end_ a < start b
    /\ row = (a, b,
              if eid a <? eid b
              then u32 (skips_between a b (all_skips minQual rs))
              else 0).
Proof.
  intros Horder Hn Hsorted Hregions Hnd Hknown Hin Hrun Hrow.
  assert (Hok0 : counts_ok (∅ : TExonJctCount)).
  { intros key c Hc. by rewrite lookup_empty in Hc. }
  apply report_rows_spec in Hrow as (a & b & Hab & Hlid & Hgap & ->).
  destruct (featureBitMap_spec n gRegions ltac:(lia)) as (bm & Hbm & _).
  { eapply Forall_impl; [exact Hregions|].
    unfold region_ok, flagged_ok. intros r. lia. }
  destruct (count_records_count n gRegions bm Horder Hn Hsorted Hregions Hbm
              minQual rs ∅ Hknown Hin Hok0) as (ej & Hrun' & _ & Hc).
  assert (Hsame : ej = ejct').
  { unfold countExonJct in Hrun. rewrite Hbm in Hrun. cbn [bind] in Hrun.
    destruct gRegions; [by apply elem_of_nil in Hab|]. congruence. }
  subst ej.
  exists a, b. split; [exact Hab|]. split; [exact Hlid|].
  split; [exact Hgap|]. f_equal.
  pose proof (ordered_pairs_sorted gRegions Hsorted) as Hpairs.
  eapply Forall_forall in Hpairs; [|exact Hab].
  destruct Hpairs as (Ha & Hb & _). simpl in Ha, Hb.
  assert (Hwa : 0 <= start a <= end_ a).
  { eapply Forall_forall in Hregions; [|exact Ha]. apply Hregions. }
  assert (Hlt : start a < start b) by lia.
  rewrite Hc. unfold jct_count at 1. rewrite lookup_empty. cbn [default].
  rewrite Z.add_0_l.
  destruct (Z.ltb_spec (eid b) (eid a)) as [Hrev|Hfwd].
  - destruct (Z.ltb_spec (eid a) (eid b)); [lia|].
    by rewrite (skip_total_reversed gRegions _ a b).
  - assert (Hne : eid a <> eid b).
    { intros Heq. apply (eid_inj gRegions a b Hnd Ha Hb) in Heq. subst. lia. }
    destruct (Z.ltb_spec (eid a) (eid b)); [|lia].
    by rewrite (skip_total_unique gRegions _ a b).
Qed.

Lemma junction_table_rows_witness :
  let e0 := {| start := 10; end_ := 20; lid := 0; eid := 0 |} in
  let e1 := {| start := 30; end_ := 40; lid := 0; eid := 1 |} in
  exists a b,
    (a, b) ∈ ordered_pairs three_exons /\ lid a = lid b /\ end_ a < start b
    /\ (e0, e1, 2)
       = (a, b,
          if eid a <? eid b
          then u32 (skips_between a b
                      (all_skips 20 [spliced_read; spliced_read]))
          else 0).
Proof.
  apply (@junction_table_rows start_order 20 100 three_exons
           [spliced_read; spliced_read] {[ (0, 1) := 2 ]}
           ({| start := 10; end_ := 20; lid := 0; eid := 0 |},
            {| start := 30; end_ := 40; lid := 0; eid := 1 |}, 2)
           start_order_by_start).
  - lia.
  - apply three_exons_ok.
  - apply three_exons_ok.
  - apply three_exons_ok.
  - repeat (apply Forall_cons_2;
      [intros _; repeat (apply Forall_cons_2; [reflexivity|]);
       apply Forall_nil_2|]).
    apply Forall_nil_2.
  - unfold skips_inside. apply (bool_decide_unpack _). vm_compute. exact I.
  - vm_compute. reflexivity.
  - apply list_elem_of_here.
Defined.

(** X18. [countExonJct] knows six CIGAR operations (S, I, D, N, H, M):
    unless a bit is read out of range first, one chromosome ends with
    "Unknown Cigar options" exactly when a record that passes the flag
    and quality tests holds any other operation, [=] and [X] among them,
    which tracks.h counts as matches. *)
Theorem unknown_cigar_aborts `{IntervalOrder} (minQual n : Z)
    (gRegions : list IntervalLabelId) (rs : list bam1_t)
    (ejct : TExonJctCount) :
  countExonJct minQual n gRegions rs ejct <> Fault ->
  countExonJct minQual n gRegions rs ejct <> Timeout
  /\ (countExonJct minQual n gRegions rs ejct = Done None
      <-> gRegions <> []
          /\ Exists (fun r => jct_passes minQual r = true
                              /\ Exists (fun o => known_op o.1 = false)
                                   (cigar r)) rs).
Proof.
  unfold countExonJct. intros Hnf.
  destruct gRegions as [|r0 rest].
  { split; [discriminate|]. split; [discriminate|]. by intros [? _]. }
  destruct (featureBitMap n (r0 :: rest)) as [bm| |] eqn:Hbm;
    cbn [bind] in Hnf |- *.
  - destruct (count_records_error minQual (r0 :: rest)
                (maxExonLength (r0 :: rest)) bm rs ejct Hnf) as [Hnt Hiff].
    split; [exact Hnt|]. rewrite Hiff. split; [by split|by intros [_ ?]].
  - congruence.
  - exfalso. unfold featureBitMap in Hbm.
    destruct (flag_positions_spec (r0 :: rest)
                (replicate (Z.to_nat n) false)) as [Hdone Hfault].
    destruct (decide (Forall (flagged_ok
                (Z.of_nat (length (replicate (Z.to_nat n) false))))
                (r0 :: rest))) as [Hall|Hno].
    + destruct (Hdone Hall) as (bm & Hrun & _). congruence.
    + rewrite (Hfault Hno) in Hbm. discriminate.
Qed.

Lemma unknown_cigar_aborts_witness :
  let r := mate "q" 15 60 30 [(BAM_CMATCH, 5); (BAM_CEQUAL, 3)] in
  @countExonJct start_order 20 100 three_exons [spliced_read; r] ∅ <> Timeout
  /\ (@countExonJct start_order 20 100 three_exons [spliced_read; r] ∅
      = Done None
      <-> three_exons <> []
          /\ Exists (fun r => jct_passes 20 r = true
                              /\ Exists (fun o => known_op o.1 = false)
                                   (cigar r)) [spliced_read; r]).
Proof.
  apply (@unknown_cigar_aborts start_order 20 100 three_exons
           [spliced_read; mate "q" 15 60 30 [(BAM_CMATCH, 5); (BAM_CEQUAL, 3)]]
           ∅).
  vm_compute. discriminate.
Defined.

(** X19. The bit set of [countExonJct] has one bit per base of the
    chromosome, and the start and the end of every region are set without
    a test: a region that starts below 0, or ends at or past the length of
    the chromosome, is flagged out of range, before any record is read. *)
Theorem junction_bits_out_of_range `{IntervalOrder} (minQual n : Z)
    (gRegions : list IntervalLabelId) (rs : list bam1_t)
    (ejct : TExonJctCount) :
  0 <= n ->
  (featureBitMap n gRegions = Fault <-> ~ Forall (flagged_ok n) gRegions)
  /\ (~ Forall (flagged_ok n) gRegions ->
      countExonJct minQual n gRegions rs ejct = Fault).
Proof.
  intros Hn. unfold featureBitMap.
  destruct (flag_positions_spec gRegions (replicate (Z.to_nat n) false))
    as [Hdone Hfault].
  rewrite length_replicate, Z2Nat.id in Hdone, Hfault by lia.
  split; [split|].
  - intros Hf Hall. destruct (Hdone Hall) as (bm & Hrun & _). congruence.
  - exact Hfault.
  - intros Hno. unfold countExonJct, featureBitMap.
    destruct gRegions as [|r0 rest]; [exfalso; apply Hno; constructor|].
    by rewrite (Hfault Hno).
Qed.

Lemma junction_bits_out_of_range_witness :
  let last := {| start := 90; end_ := 100; lid := 0; eid := 3 |} in
  (featureBitMap 100 [last] = Fault <-> ~ Forall (flagged_ok 100) [last])
  /\ (~ Forall (flagged_ok 100) [last] ->
      @countExonJct start_order 20 100 [last] [spliced_read] ∅ = Fault).
Proof.
  apply (@junction_bits_out_of_range start_order 20 100
           [ {| start := 90; end_ := 100; lid := 0; eid := 3 |} ]
           [spliced_read] ∅).
  lia.
Defined.
End JunctionExtras.

Section TrackExtras.
Import Bam Resolver Coverage Compressor.

(** X20. One chromosome of tracks.h with the resolution switched off and
    all records lying on it: without a valid pair no line is written;
    otherwise the segments cover the chromosome from 0 to its length, and
    the score they give to a base is the normalisation factor times the
    number of counted records with a matched base there, capped at
    65535. *)
Theorem track_of_chromosome `{PairHash} (fuel : nat)
    (resolution normFactor : float) (minQual target_len : Z)
    (rs : list bam1_t) :
  resolution_enabled resolution = false ->
  0 < target_len < 2 ^ 32 ->
  Forall (record_inside target_len) rs ->
  let counted :=
    filter (fun r => counts minQual (validPairs minQual rs) r = true) rs in
  (validPairs minQual rs = ∅ ->
   create_tracks_chr fuel resolution normFactor minQual target_len rs
   = Done [])
  /\ (validPairs minQual rs <> ∅ ->
      exists tl,
        create_tracks_chr fuel resolution normFactor minQual target_len rs
        = Done tl
        /\ covers target_len tl
        /\ expand (Z.to_nat target_len) tl
           = (fun i => Some (normFactor
                             * Z2f (Z.min (depth i counted) maxCoverage))%float)
               <$> seqZ 0 target_len).
Proof.
  intros Hoff Hlen Hin counted. unfold create_tracks_chr. split.
  - intros Hempty. by rewrite bool_decide_eq_true_2.
  - intros Hvp. rewrite bool_decide_eq_false_2 by assumption.
    rewrite (coverage_pass_depth minQual target_len rs ltac:(lia) Hin).
    cbn [bind]. fold counted.
    set (cov := (fun i => Z.min (depth i counted) maxCoverage)
                  <$> seqZ 0 target_len).
    assert (Hl : Z.of_nat (length cov) = target_len).
    { unfold cov. rewrite length_fmap, length_seqZ. lia. }
    assert (Hne : cov <> []).
    { intros Hnil. rewrite Hnil in Hl. simpl in Hl. lia. }
    assert (Hu : Forall is_uint16 cov).
    { unfold cov. apply Forall_fmap, Forall_forall. intros i _. simpl.
      pose proof (depth_nonneg i counted).
      unfold is_uint16, maxCoverage. lia. }
    destruct (coverage_track_spec normFactor cov Hne Hu ltac:(lia))
      as (runs & Htrack & Hrle & _).
    exists (to_track normFactor <$> runs).
    unfold compress. rewrite Htrack. cbn [bind]. unfold reduce.
    rewrite Hoff. split; [reflexivity|]. split.
    + rewrite <- Hl.
      apply seg_chain_covers.
      apply (runs_chain normFactor runs 0 cov); [|assumption].
      intros ->. simpl in Hrle. congruence.
    + replace (Z.to_nat target_len) with (length cov) by lia.
      rewrite (expand_runs normFactor cov runs Hrle).
      unfold cov. by rewrite <- list_fmap_compose.
Qed.

Lemma track_of_chromosome_witness :
  let counted :=
    filter (fun r => @counts ideal_hash 10
                       (@validPairs ideal_hash 10 two_pairs) r = true)
      two_pairs in
  (@validPairs ideal_hash 10 two_pairs = ∅ ->
   @create_tracks_chr ideal_hash 0 0 1 10 300 two_pairs = Done [])
  /\ (@validPairs ideal_hash 10 two_pairs <> ∅ ->
      exists tl,
        @create_tracks_chr ideal_hash 0 0 1 10 300 two_pairs = Done tl
        /\ covers 300 tl
        /\ expand (Z.to_nat 300) tl
           = (fun i => Some (1 * Z2f (Z.min (depth i counted) maxCoverage))
                         %float)
               <$> seqZ 0 300).
Proof.
  apply (@track_of_chromosome ideal_hash 0 0%float 1%float 10 300 two_pairs).
  - reflexivity.
  - lia.
  - repeat (apply Forall_cons_2;
      [split; [simpl; lia|split; [|vm_compute; discriminate]];
       repeat (apply Forall_cons_2; [simpl; lia|]); apply Forall_nil_2|]).
    apply Forall_nil_2.
Defined.

(** X21. On a chromosome where no base is covered 65535 times or more by
    the counted records, the coverage vector of tracks.h adds up to the
    matched bases (M, =, X) of these records: every matched base of every
    record of a valid pair is counted once, and nothing else is. *)
Theorem coverage_total `{PairHash} (minQual target_len : Z)
    (rs : list bam1_t) (cov' : list Z) :
  0 <= target_len < 2 ^ 32 ->
  Forall (record_inside target_len) rs ->
  let counted :=
    filter (fun r => counts minQual (validPairs minQual rs) r = true) rs in
  (forall i, 0 <= i < target_len -> depth i counted < maxCoverage) ->
  coverage minQual target_len rs = Done cov' ->
  zsum cov' = zsum ((fun r => matched_bases (cigar r)) <$> counted).
Proof.
  intros Hlen Hin counted Hlow Hrun.
  assert (Hl0 : Z.of_nat (length (empty_cov target_len)) = target_len).
  { unfold empty_cov. rewrite length_replicate. lia. }
  assert (Hw0 : Forall (within maxCoverage) (empty_cov target_len)).
  { apply Forall_replicate. unfold within, maxCoverage. lia. }
  assert (Hz0 : zsum (empty_cov target_len) = 0).
  { unfold empty_cov. induction (Z.to_nat target_len) as [|k IHk];
      [reflexivity|]. simpl. fold (zsum (replicate k 0)). by rewrite IHk. }
  assert (Hcounted : Forall (record_inside
                       (Z.of_nat (length (empty_cov target_len)))) counted).
  { rewrite Hl0. apply Forall_forall. intros r Hr.
    apply list_elem_of_filter in Hr as [_ Hr].
    eapply Forall_forall in Hin; eauto. }
  assert (Hadd : add_records (empty_cov target_len) counted = Done cov').
  { unfold coverage in Hrun.
    destruct (bool_decide_reflect (validPairs minQual rs = ∅)) as [Hempty|_].
    - assert (Hnil : counted = []).
      { unfold counted. rewrite Hempty. apply filter_counts_empty. }
      rewrite Hnil. exact Hrun.
    - rewrite coverage_pass_filter in Hrun by reflexivity. exact Hrun. }
  assert (Hlow0 : forall (i : nat) c, empty_cov target_len !! i = Some c ->
            c + depth (Z.of_nat i) counted < maxCoverage).
  { intros i c Hi. apply lookup_replicate in Hi as [-> Hi].
    rewrite Z.add_0_l. apply Hlow. lia. }
  rewrite (add_records_sum counted (empty_cov target_len) cov' Hcounted Hw0
             ltac:(lia) Hlow0 Hadd).
  lia.
Qed.

Lemma coverage_total_witness :
  let counted :=
    filter (fun r => @counts ideal_hash 10
                       (@validPairs ideal_hash 10 two_pairs) r = true)
      two_pairs in
  zsum ((fun i => Z.min (depth i counted) maxCoverage) <$> seqZ 0 300)
  = zsum ((fun r => matched_bases (cigar r)) <$> counted).
Proof.
  apply (@coverage_total ideal_hash 10 300 two_pairs).
  - lia.
  - repeat (apply Forall_cons_2;
      [split; [simpl; lia|split; [|vm_compute; discriminate]];
       repeat (apply Forall_cons_2; [simpl; lia|]); apply Forall_nil_2|]).
    apply Forall_nil_2.
  - intros i _. eapply Z.le_lt_trans; [apply depth_le_length|].
    vm_compute. reflexivity.
  - unfold coverage.
    rewrite bool_decide_eq_false_2 by (vm_compute; discriminate).
    apply (@coverage_pass_depth ideal_hash 10 300 two_pairs); [lia|].
    repeat (apply Forall_cons_2;
      [split; [simpl; lia|split; [|vm_compute; discriminate]];
       repeat (apply Forall_cons_2; [simpl; lia|]); apply Forall_nil_2|]).
    apply Forall_nil_2.
Defined.
End TrackExtras.
